(** * homebriefing-next: session handling, SOAP client helpers and the
      Field 18 / Field 19 codec

    A shallow embedding of the TypeScript sources

      - [src/lib/homebriefing/client.ts]        (module [Client])
      - [src/lib/homebriefing/session-store.ts] (module [SessionStore])
      - the dashboard page                      (module [Dashboard])
      - the new-flight-plan page                (modules [Field18], [Field19])

    A JavaScript string is modelled as the list of its code units; the
    model covers the code units below 256 ([ascii]).  Regular expressions
    are kept as syntax trees and run by a backtracking matcher that follows
    the ECMAScript priorities (ordered alternation, greedy and lazy
    quantifiers, atomic lookahead). *)

From Stdlib Require Import ZArith Lia List Ascii String Bool Arith DecimalString.
From stdpp Require Import base option list gmap strings.

Import ListNotations.
Local Open Scope list_scope.
Local Open Scope nat_scope.

Abbreviation jsstr := (list ascii).

(** String literals of the source, as code-unit lists. *)
Definition str (s : string) : jsstr := list_ascii_of_string s.

(* ===================================================================== *)
(** * JavaScript string primitives                                        *)
(* ===================================================================== *)

Module JsString.

Definition code (c : ascii) : nat := nat_of_ascii c.

Definition isDigit (c : ascii) : bool := (48 <=? code c) && (code c <=? 57).
Definition isUpper (c : ascii) : bool := (65 <=? code c) && (code c <=? 90).
Definition isLower (c : ascii) : bool := (97 <=? code c) && (code c <=? 122).
(** [\w] *)
Definition isWord (c : ascii) : bool :=
  isDigit c || isUpper c || isLower c || (code c =? 95).
(** [\s], and the characters removed by [trim]: TAB LF VT FF CR SP NBSP. *)
Definition isSpace (c : ascii) : bool :=
  ((9 <=? code c) && (code c <=? 13)) || (code c =? 32) || (code c =? 160).
(** The characters [.] refuses. *)
Definition isLineTerminator (c : ascii) : bool :=
  (code c =? 10) || (code c =? 13).

Definition toUpper (c : ascii) : ascii :=
  if isLower c then ascii_of_nat (code c - 32) else c.
Definition toLower (c : ascii) : ascii :=
  if isUpper c then ascii_of_nat (code c + 32) else c.

(** [s.startsWith(p)] *)
Fixpoint startsWith (s p : jsstr) {struct p} : bool :=
  match p, s with
  | [], _ => true
  | x :: p', y :: s' => Ascii.eqb x y && startsWith s' p'
  | _ :: _, [] => false
  end.

Fixpoint indexOfFrom (s sub : jsstr) (pos : nat) : option nat :=
  if startsWith s sub then Some pos
  else match s with
       | [] => None
       | _ :: s' => indexOfFrom s' sub (S pos)
       end.

(** [s.indexOf(sub)]: the first position where [sub] occurs, or -1. *)
Definition indexOf (s sub : jsstr) : Z :=
  match indexOfFrom s sub 0 with
  | Some i => Z.of_nat i
  | None => (-1)%Z
  end.

(** [s.includes(sub)] *)
Definition includes (s sub : jsstr) : bool :=
  match indexOfFrom s sub 0 with Some _ => true | None => false end.

(** [parts.join(sep)] *)
Fixpoint join (sep : jsstr) (parts : list jsstr) : jsstr :=
  match parts with
  | [] => []
  | [p] => p
  | p :: rest => p ++ sep ++ join sep rest
  end.

(** [s.split(sep)] for a non-empty separator string: [cur] holds the
    characters of the piece being read, in reverse; [skip] counts the
    characters of a separator just recognised that are still to be
    passed over. *)
Fixpoint splitAux (sep : jsstr) (s : jsstr) (cur : jsstr) (skip : nat)
  : list jsstr :=
  match s with
  | [] => [rev cur]
  | c :: s' =>
      match skip with
      | S n => splitAux sep s' cur n
      | 0 =>
          if startsWith s sep
          then rev cur :: splitAux sep s' [] (length sep - 1)
          else splitAux sep s' (c :: cur) 0
      end
  end.

Definition split (s sep : jsstr) : list jsstr := splitAux sep s [] 0.

(** [s.trim()] *)
Fixpoint trimStart (s : jsstr) : jsstr :=
  match s with
  | c :: s' => if isSpace c then trimStart s' else s
  | [] => []
  end.
Definition trim (s : jsstr) : jsstr := rev (trimStart (rev (trimStart s))).

(** Truthiness of a string: only the empty string is falsy. *)
Definition truthy (s : jsstr) : bool :=
  match s with [] => false | _ :: _ => true end.

Definition eqb (a b : jsstr) : bool := bool_decide (a = b).

(** [s.substring(start, end)] and [s.substring(start)]: indices are
    clamped to the string and swapped when out of order. *)
Definition clampIndex (len : nat) (i : Z) : nat :=
  Z.to_nat (Z.max 0 (Z.min i (Z.of_nat len))).

Definition substring (s : jsstr) (start finish : Z) : jsstr :=
  let a := clampIndex (length s) start in
  let b := clampIndex (length s) finish in
  firstn (Nat.max a b - Nat.min a b) (skipn (Nat.min a b) s).

Definition substringFrom (s : jsstr) (start : Z) : jsstr :=
  skipn (clampIndex (length s) start) s.

(** [s.replace(pat, rep)] for a string pattern and a replacement
    without [$]: the first occurrence only. *)
Fixpoint replaceFirst (s pat rep : jsstr) : jsstr :=
  if startsWith s pat then rep ++ skipn (length pat) s
  else match s with
       | [] => []
       | c :: s' => c :: replaceFirst s' pat rep
       end.

(** Decimal digits of a number, as template literals print it. *)
Definition showNat (n : nat) : jsstr :=
  list_ascii_of_string (NilZero.string_of_uint (Nat.to_uint n)).

(** [parseInt(s)] without a radix: leading white space, a sign, an
    optional [0x] prefix, then the longest run of digits; [None] is NaN.
    (The result is exact; a double would round above 2^53.) *)
Definition digitValue (radix : Z) (c : ascii) : option Z :=
  let v := if isDigit c then Some (Z.of_nat (code c) - 48)%Z
           else if isLower c then Some (Z.of_nat (code c) - 87)%Z
           else if isUpper c then Some (Z.of_nat (code c) - 55)%Z
           else None in
  match v with
  | Some d => if (d <? radix)%Z then Some d else None
  | None => None
  end.

Fixpoint parseDigits (radix : Z) (s : jsstr) (acc : option Z) : option Z :=
  match s with
  | [] => acc
  | c :: s' =>
      match digitValue radix c with
      | Some d => parseDigits radix s' (Some (radix * default 0%Z acc + d)%Z)
      | None => acc
      end
  end.

Definition parseInt (s : jsstr) : option Z :=
  let s := trimStart s in
  let '(negative, s) :=
    match s with
    | "-"%char :: s' => (true, s')
    | "+"%char :: s' => (false, s')
    | _ => (false, s)
    end in
  let '(radix, s) :=
    match s with
    | "0"%char :: x :: s' =>
        if Ascii.eqb x "x" || Ascii.eqb x "X" then (16%Z, s') else (10%Z, s)
    | _ => (10%Z, s)
    end in
  match parseDigits radix s None with
  | Some n => Some (if negative then (- n)%Z else n)
  | None => None
  end.

(** A plain object used as a dictionary: its string-keyed properties in
    creation order.  [Object.entries] lists the array-index keys first,
    in numeric order, then the other keys in creation order. *)
Definition JsObject : Type := list (jsstr * jsstr).

Fixpoint objectSet (key value : jsstr) (o : JsObject) : JsObject :=
  match o with
  | [] => [(key, value)]
  | (k, v) :: o' =>
      if eqb key k then (k, value) :: o'
      else (k, v) :: objectSet key value o'
  end.

Definition arrayIndex (key : jsstr) : option Z :=
  match key with
  | [] => None
  | c :: rest =>
      if forallb isDigit key
         && (negb (Ascii.eqb c "0") || match rest with [] => true | _ => false end)
      then match parseDigits 10 key None with
           | Some n => if (n <=? 4294967294)%Z then Some n else None
           | None => None
           end
      else None
  end.

Fixpoint insertByIndex (e : Z * (jsstr * jsstr)) (l : list (Z * (jsstr * jsstr)))
  : list (Z * (jsstr * jsstr)) :=
  match l with
  | [] => [e]
  | e' :: l' => if (fst e <? fst e')%Z then e :: l else e' :: insertByIndex e l'
  end.

Definition objectEntries (o : JsObject) : list (jsstr * jsstr) :=
  let indexed :=
    fold_right insertByIndex []
      (omap (fun kv => match arrayIndex (fst kv) with
                       | Some n => Some (n, kv)
                       | None => None
                       end) o) in
  map snd indexed
  ++ filter (fun kv => arrayIndex (fst kv) = None) o.

End JsString.

(* ===================================================================== *)
(** * Regular expressions                                                 *)
(* ===================================================================== *)

Module Regex.
Import JsString.

(** Members of a bracket expression. *)
Inductive citem : Type :=
| IChr (c : ascii)              (* a single character *)
| IRange (lo hi : ascii)        (* lo-hi *)
| IDigit                        (* \d *)
| IWord                         (* \w *)
| ISpace.                       (* \s *)

Inductive regex : Type :=
| Eps                           (* the empty pattern *)
| Chr (c : ascii)               (* a literal character *)
| Any                           (* . *)
| OneOf (items : list citem)    (* [...] and the escapes \d \w \s *)
| NoneOf (items : list citem)   (* [^...] *)
| Seq (r1 r2 : regex)
| Alt (r1 r2 : regex)           (* r1|r2 *)
| Star (r : regex)              (* r*  *)
| LazyStar (r : regex)          (* r*? *)
| Group (n : nat) (r : regex)   (* the n-th capturing group *)
| Ahead (r : regex)             (* (?=r) *)
| Bol                           (* ^ *)
| Eol.                          (* $ *)

(** Derived forms. *)
Definition Plus (r : regex) : regex := Seq r (Star r).        (* r+ *)
Definition Opt (r : regex) : regex := Alt r Eps.              (* r? *)
Definition Lit (s : jsstr) : regex :=
  fold_right (fun c r => Seq (Chr c) r) Eps s.

Definition itemHas (i : citem) (x : ascii) : bool :=
  match i with
  | IChr c => Ascii.eqb c x
  | IRange lo hi => (code lo <=? code x) && (code x <=? code hi)
  | IDigit => isDigit x
  | IWord => isWord x
  | ISpace => isSpace x
  end.

Definition itemsHave (items : list citem) (x : ascii) : bool :=
  existsb (fun i => itemHas i x) items.

(** Character comparison; under the [i] flag both sides are
    canonicalised.  The patterns of the source are ASCII, on which
    canonicalisation is upper-casing, and no character outside ASCII
    canonicalises into ASCII. *)
Definition chrMatches (ci : bool) (c x : ascii) : bool :=
  if ci then Ascii.eqb (toUpper c) (toUpper x) else Ascii.eqb c x.

Definition setMatches (ci : bool) (items : list citem) (x : ascii) : bool :=
  itemsHave items x
  || (ci && (itemsHave items (toUpper x) || itemsHave items (toLower x))).

(** Captures: the newest binding of a group comes first. *)
Definition caps : Type := list (nat * jsstr).

Fixpoint capture (n : nat) (cs : caps) : option jsstr :=
  match cs with
  | [] => None
  | (m, v) :: cs' => if n =? m then Some v else capture n cs'
  end.

(** The matcher, in continuation-passing style.  A state is the index
    [pos] of the next character, the rest [s] of the input from there,
    and the captures so far.  [k] is what remains to be matched; a
    failure of [k] makes the matcher backtrack into its next choice. *)
Definition cont (A : Type) : Type := nat -> jsstr -> caps -> option A.
Definition matcher : Type :=
  forall A : Type, nat -> jsstr -> caps -> cont A -> option A.

(** The loop of a quantifier [body*] (or [body*?] when [lazy]).  An
    iteration that consumes nothing is refused, as in ECMAScript's
    RepeatMatcher; every accepted iteration therefore shortens the
    input, and [fuel], which starts above the length of the input, never
    runs out (lemmas [iterate_fuel] and [run_Star_unfold] below).

    No pattern of the source has a capturing group under a quantifier,
    so captures are not reset between iterations. *)
Fixpoint iterate (lazy : bool) (body : matcher) (A : Type) (k : cont A)
  (fuel : nat) (pos : nat) (s : jsstr) (cs : caps) {struct fuel} : option A :=
  match fuel with
  | 0 => None
  | S fuel' =>
      if lazy then
        match k pos s cs with
        | Some a => Some a
        | None =>
            body A pos s cs
              (fun pos' s' cs' =>
                 if length s' <? length s
                 then iterate lazy body A k fuel' pos' s' cs' else None)
        end
      else
        match body A pos s cs
                (fun pos' s' cs' =>
                   if length s' <? length s
                   then iterate lazy body A k fuel' pos' s' cs' else None) with
        | Some a => Some a
        | None => k pos s cs
        end
  end.

Fixpoint run (ci : bool) (r : regex) {struct r} : matcher :=
  fun A pos s cs k =>
  match r with
  | Eps => k pos s cs
  | Chr c =>
      match s with
      | x :: s' => if chrMatches ci c x then k (S pos) s' cs else None
      | [] => None
      end
  | Any =>
      match s with
      | x :: s' => if negb (isLineTerminator x) then k (S pos) s' cs else None
      | [] => None
      end
  | OneOf items =>
      match s with
      | x :: s' => if setMatches ci items x then k (S pos) s' cs else None
      | [] => None
      end
  | NoneOf items =>
      match s with
      | x :: s' => if negb (setMatches ci items x) then k (S pos) s' cs else None
      | [] => None
      end
  | Seq r1 r2 =>
      run ci r1 A pos s cs (fun pos' s' cs' => run ci r2 A pos' s' cs' k)
  | Alt r1 r2 =>
      match run ci r1 A pos s cs k with
      | Some a => Some a
      | None => run ci r2 A pos s cs k
      end
  | Star r1 => iterate false (run ci r1) A k (S (length s)) pos s cs
  | LazyStar r1 => iterate true (run ci r1) A k (S (length s)) pos s cs
  | Group n r1 =>
      run ci r1 A pos s cs
        (fun pos' s' cs' => k pos' s' ((n, firstn (pos' - pos) s) :: cs'))
  | Ahead r1 =>
      match run ci r1 caps pos s cs (fun _ _ cs' => Some cs') with
      | Some cs' => k pos s cs'
      | None => None
      end
  | Bol => if pos =? 0 then k pos s cs else None
  | Eol => match s with [] => k pos s cs | _ :: _ => None end
  end.

(** A successful match: where it starts and ends, the matched text and
    the captures. *)
Record mres : Type := MRes {
  m_index : nat;
  m_end : nat;
  m_text : jsstr;
  m_caps : caps
}.

(** The n-th capture of a match; [None] is JavaScript's [undefined]. *)
Definition group (n : nat) (m : mres) : option jsstr := capture n (m_caps m).
(** The same, for a group that is known to take part in the match. *)
Definition groupStr (n : nat) (m : mres) : jsstr := default [] (group n m).

(** One attempt, at [pos]. *)
Definition matchAt (ci : bool) (r : regex) (pos : nat) (s : jsstr) : option mres :=
  run ci r mres pos s []
    (fun pos' _ cs => Some (MRes pos pos' (firstn (pos' - pos) s) cs)).

(** The first match at or after [pos]. *)
Fixpoint search (ci : bool) (r : regex) (pos : nat) (s : jsstr) : option mres :=
  match matchAt ci r pos s with
  | Some m => Some m
  | None =>
      match s with
      | [] => None
      | _ :: s' => search ci r (S pos) s'
      end
  end.

(** [re.exec(s)] / [s.match(re)] without the [g] flag. *)
Definition exec (ci : bool) (r : regex) (s : jsstr) : option mres :=
  search ci r 0 s.

(** [re.test(s)] *)
Definition test (ci : bool) (r : regex) (s : jsstr) : bool :=
  match exec ci r s with Some _ => true | None => false end.

(** All matches, left to right, each search starting where the previous
    match ended (one further after an empty match): what [s.match(re)]
    with the [g] flag collects.  [skip] counts the characters of the
    previous match still to be passed over.  A [while (re.exec(s))]
    loop over a [g] pattern visits the same matches when the pattern
    cannot match the empty string. *)
Fixpoint scan (ci : bool) (r : regex) (pos skip : nat) (s : jsstr) : list mres :=
  match skip with
  | S n =>
      match s with
      | [] => []
      | _ :: s' => scan ci r (S pos) n s'
      end
  | 0 =>
      match matchAt ci r pos s with
      | Some m =>
          m :: match s with
               | [] => []
               | _ :: s' => scan ci r (S pos) (m_end m - pos - 1) s'
               end
      | None =>
          match s with
          | [] => []
          | _ :: s' => scan ci r (S pos) 0 s'
          end
      end
  end.

Definition matchAll (ci : bool) (r : regex) (s : jsstr) : list mres :=
  scan ci r 0 0 s.

(** The groups that take part in every match of a pattern: those that
    stand outside alternatives and quantifiers. *)
Fixpoint mandatoryGroups (r : regex) : list nat :=
  match r with
  | Seq r1 r2 => mandatoryGroups r1 ++ mandatoryGroups r2
  | Group n r1 => n :: mandatoryGroups r1
  | Ahead r1 => mandatoryGroups r1
  | _ => []
  end.

(** A matcher that uses its continuation only through its results. *)
Definition matcherExt (body : matcher) : Prop :=
  forall (A : Type) (pos : nat) (s : jsstr) (cs : caps) (k1 k2 : cont A),
    (forall pos' s' cs', k1 pos' s' cs' = k2 pos' s' cs') ->
    body A pos s cs k1 = body A pos s cs k2.

(** The language of a pattern, without priorities: which texts a
    pattern can consume.  Anchors and lookaheads consume nothing (their
    conditions on the context are not recorded). *)
Inductive lang (ci : bool) : regex -> jsstr -> Prop :=
| L_Eps : lang ci Eps []
| L_Chr c x : chrMatches ci c x = true -> lang ci (Chr c) [x]
| L_Any x : isLineTerminator x = false -> lang ci Any [x]
| L_OneOf items x : setMatches ci items x = true -> lang ci (OneOf items) [x]
| L_NoneOf items x : setMatches ci items x = false -> lang ci (NoneOf items) [x]
| L_Seq r1 r2 w1 w2 :
    lang ci r1 w1 -> lang ci r2 w2 -> lang ci (Seq r1 r2) (w1 ++ w2)
| L_AltL r1 r2 w : lang ci r1 w -> lang ci (Alt r1 r2) w
| L_AltR r1 r2 w : lang ci r2 w -> lang ci (Alt r1 r2) w
| L_StarNil r : lang ci (Star r) []
| L_StarCons r w1 w2 :
    lang ci r w1 -> lang ci (Star r) w2 -> lang ci (Star r) (w1 ++ w2)
| L_LazyNil r : lang ci (LazyStar r) []
| L_LazyCons r w1 w2 :
    lang ci r w1 -> lang ci (LazyStar r) w2 -> lang ci (LazyStar r) (w1 ++ w2)
| L_Group n r w : lang ci r w -> lang ci (Group n r) w
| L_Ahead r : lang ci (Ahead r) []
| L_Bol : lang ci Bol []
| L_Eol : lang ci Eol [].

End Regex.

(* ===================================================================== *)
(** * client.ts                                                           *)
(* ===================================================================== *)

Module Client.
Import JsString Regex.

(** [SESSION_EXPIRY_PATTERNS], all with the [i] flag. *)
Definition dotStar : regex := Star Any.

Definition SESSION_EXPIRY_PATTERNS : list regex :=
  [ Seq (Lit (str "session")) (Seq dotStar (Lit (str "expired")));
    Seq (Lit (str "invalid")) (Seq dotStar (Lit (str "session")));
    Seq (Lit (str "not")) (Seq dotStar
      (Seq (Lit (str "logged")) (Seq dotStar (Lit (str "in")))));
    Seq (Lit (str "login")) (Seq dotStar (Lit (str "required")));
    Seq (Lit (str "authentication")) (Seq dotStar (Lit (str "failed")));
    Lit (str "unauthorized") ].

Definition isSessionExpiredResponse (xml : jsstr) : bool :=
  if existsb (fun pattern => test true pattern xml) SESSION_EXPIRY_PATTERNS
  then true
  else if includes xml (str "<!DOCTYPE html") || includes xml (str "<html")
  then true
  else false.

(** ** Cookies *)

(** A JavaScript [Map<string, string>]: its entries in insertion order,
    each key once. *)
Definition JsMap : Type := list (jsstr * jsstr).

Fixpoint mapSet (key value : jsstr) (m : JsMap) : JsMap :=
  match m with
  | [] => [(key, value)]
  | (k, v) :: m' =>
      if JsString.eqb key k then (k, value) :: m'
      else (k, v) :: mapSet key value m'
  end.

Fixpoint mapGet (key : jsstr) (m : JsMap) : option jsstr :=
  match m with
  | [] => None
  | (k, v) :: m' => if JsString.eqb key k then Some v else mapGet key m'
  end.

Definition mapHas (key : jsstr) (m : JsMap) : bool :=
  match mapGet key m with Some _ => true | None => false end.

(** What the client reads of a [fetch] response. *)
Record Response : Type := {
  status : Z;
  setCookie : option jsstr;     (* headers.get('set-cookie') *)
  location : option jsstr;      (* headers.get('location') *)
  body : jsstr                  (* await response.text() *)
}.

(** [response.ok] *)
Definition ok (r : Response) : bool :=
  ((200 <=? status r) && (status r <=? 299))%Z.

(** [s.split(re)]: a separator is looked for at every position [q]
    after the start [p] of the current piece; a match that ends at [p]
    is ignored.  [cur] holds the piece read so far, in reverse, and is
    empty exactly when [q = p]. *)
Fixpoint splitReAux (ci : bool) (r : regex) (pos skip : nat) (cur : jsstr)
  (s : jsstr) : list jsstr :=
  match s with
  | [] => [rev cur]
  | c :: s' =>
      match skip with
      | S n => splitReAux ci r (S pos) n cur s'
      | 0 =>
          match matchAt ci r pos s with
          | None => splitReAux ci r (S pos) 0 (c :: cur) s'
          | Some m =>
              if m_end m =? pos
              then match cur with
                   | [] => splitReAux ci r (S pos) 0 [c] s'
                   | _ :: _ => rev cur :: splitReAux ci r (S pos) 0 [c] s'
                   end
              else rev cur :: splitReAux ci r (S pos) (m_end m - pos - 1) [] s'
          end
      end
  end.

Definition splitRe (ci : bool) (r : regex) (s : jsstr) : list jsstr :=
  match s with
  | [] => match matchAt ci r 0 [] with Some _ => [] | None => [[]] end
  | _ :: _ => splitReAux ci r 0 0 [] s
  end.

(** [/,(?=[^;]+=[^;]+)/] *)
Definition cookieSplitRe : regex :=
  Seq (Chr ",")
      (Ahead (Seq (Plus (NoneOf [IChr ";"]))
                  (Seq (Chr "=") (Plus (NoneOf [IChr ";"]))))).

(** [/^([^=]+)=([^;]+)/] *)
Definition cookiePairRe : regex :=
  Seq Bol (Seq (Group 1 (Plus (NoneOf [IChr "="])))
               (Seq (Chr "=") (Group 2 (Plus (NoneOf [IChr ";"]))))).

Definition extractCookies (response : Response) : JsMap :=
  match setCookie response with
  | Some setCookieHeader =>
      if truthy setCookieHeader then
        fold_left
          (fun cookies part =>
             match exec false cookiePairRe part with
             | Some m => mapSet (trim (groupStr 1 m)) (trim (groupStr 2 m)) cookies
             | None => cookies
             end)
          (splitRe false cookieSplitRe setCookieHeader) []
      else []
  | None => []
  end.

(** [const [key, value] = part.split('=')] followed by the guard
    [if (key && value)]: the pair that is stored for one part of the
    existing header, if any.  [value] is [undefined] when the part has
    no ['=']. *)
Definition existingPair (part : jsstr) : option (jsstr * jsstr) :=
  match split part (str "=") with
  | key :: value :: _ =>
      if truthy key && truthy value then Some (key, value) else None
  | _ => None
  end.

(** The first loop of [mergeCookies]: the pairs of the existing header. *)
Definition setExisting (parts : list jsstr) (m : JsMap) : JsMap :=
  fold_left (fun cookieMap part =>
               match existingPair part with
               | Some (key, value) => mapSet key value cookieMap
               | None => cookieMap
               end) parts m.

(** The second loop: the new cookies. *)
Definition setAll (newCookies : JsMap) (m : JsMap) : JsMap :=
  fold_left (fun cookieMap kv => mapSet (fst kv) (snd kv) cookieMap)
            newCookies m.

(** The [cookieMap] that [mergeCookies] builds. *)
Definition mergeCookiesMap (existing : jsstr) (newCookies : JsMap) : JsMap :=
  setAll newCookies
    (if truthy existing
     then setExisting (split existing (str "; ")) []
     else []).

Definition mergeCookies (existing : jsstr) (newCookies : JsMap) : jsstr :=
  join (str "; ")
    (map (fun kv => fst kv ++ str "=" ++ snd kv)
         (mergeCookiesMap existing newCookies)).

(** How a cookie header of the form [name=value; name=value] reads:
    its parts are separated by [; ], and a part with an [=] gives the
    name before its first [=] the value after it. *)
Fixpoint cutAt (c : ascii) (s : jsstr) : option (jsstr * jsstr) :=
  match s with
  | [] => None
  | x :: s' =>
      if Ascii.eqb x c then Some ([], s')
      else match cutAt c s' with
           | Some (a, b) => Some (x :: a, b)
           | None => None
           end
  end.

Definition headerPairs (existing : jsstr) : list (jsstr * jsstr) :=
  omap (cutAt "=") (split existing (str "; ")).

(** The value of the last pair that names [key]: the most recently
    observed one. *)
Definition lastValue (key : jsstr) (pairs : list (jsstr * jsstr))
  : option jsstr :=
  mapGet key (rev pairs).

(** ** Login, step 3 *)

Definition BASE_URL : jsstr := str "https://hbs.ixosystem.eu/ixo".

Inductive Method : Type := GET | POST.

Record Request : Type := {
  url : jsstr;
  method : Method;
  cookieHeader : jsstr;                 (* 'Cookie' *)
  tokenHeader : option jsstr;           (* 'X-AisWeb-Token' *)
  form : list (jsstr * jsstr);          (* URLSearchParams body *)
  redirectManual : bool                 (* redirect: 'manual' *)
}.

Record LoginResult : Type := {
  success : bool;
  cookies : option jsstr;
  token : option jsstr;
  userSession : option jsstr;
  error : option jsstr
}.

Definition loginFailure (msg : jsstr) : LoginResult :=
  {| success := false; cookies := None; token := None;
     userSession := None; error := Some msg |}.

(** The pattern of the [AppController] constructor call:
    [new], [\s+], [AppController], [\s*], an opening parenthesis, [\s*],
    a double-quoted non-empty string (group 1), [\s*], a comma, [\s*],
    a double-quoted non-empty string (group 2). *)
Definition dquote : ascii := "034"%char.
Definition ws : regex := Star (OneOf [ISpace]).
Definition quoted (n : nat) : regex :=
  Seq (Chr dquote) (Seq (Group n (Plus (NoneOf [IChr dquote]))) (Chr dquote)).
Definition appCtrlRe : regex :=
  Seq (Lit (str "new"))
 (Seq (Plus (OneOf [ISpace]))
 (Seq (Lit (str "AppController"))
 (Seq ws (Seq (Chr "(") (Seq ws (Seq (quoted 1)
 (Seq ws (Seq (Chr ",") (Seq ws (quoted 2)))))))))).

Definition loginRequest (cookies token username password captcha : jsstr)
  : Request :=
  {| url := BASE_URL ++ str "/dataHandler.php?method=loginExt";
     method := POST;
     cookieHeader := cookies;
     tokenHeader := Some token;
     form := [ (str "userName", username); (str "password", password);
               (str "lang", str "en"); (str "captcha", captcha) ];
     redirectManual := false |}.

Definition indexRequest (cookies : jsstr) (manual : bool) : Request :=
  {| url := BASE_URL ++ str "/index.php";
     method := GET;
     cookieHeader := cookies;
     tokenHeader := None;
     form := [];
     redirectManual := manual |}.

(** [submitLogin].  The portal is the function [fetch]: what it answers
    to the n-th request of the call.  (A [fetch] that throws is not
    modelled.) *)
Definition submitLogin (fetch : nat -> Request -> Response)
  (cookies token username password captcha : jsstr) : LoginResult :=
  let loginResponse :=
    fetch 0 (loginRequest cookies token username password captcha) in
  if negb (ok loginResponse) then loginFailure (str "Login request failed")
  else
    let loginCookies := extractCookies loginResponse in
    let currentCookies := mergeCookies cookies loginCookies in
    let responseText := body loginResponse in
    if includes responseText (str "<IsError>1</IsError>")
       || includes responseText (str "<LoginOK>0</LoginOK>")
    then loginFailure (str "Invalid credentials or captcha")
    else
      let indexResponse := fetch 1 (indexRequest currentCookies true) in
      let indexCookies := extractCookies indexResponse in
      let currentCookies := mergeCookies currentCookies indexCookies in
      if (status indexResponse =? 302)%Z
         && match location indexResponse with
            | Some loc => includes loc (str "login.php")
            | None => false
            end
      then loginFailure (str "Login failed - redirected back to login")
      else
        let '(currentCookies, indexHtml) :=
          if (status indexResponse =? 302)%Z then
            let redirectResponse :=
              fetch 2 (indexRequest currentCookies false) in
            let redirectCookies := extractCookies redirectResponse in
            (mergeCookies currentCookies redirectCookies,
             body redirectResponse)
          else (currentCookies, body indexResponse) in
        match exec false appCtrlRe indexHtml with
        | None => loginFailure (str "Failed to extract session data after login")
        | Some appCtrlMatch =>
            {| success := true;
               cookies := Some currentCookies;
               token := group 1 appCtrlMatch;
               userSession := group 2 appCtrlMatch;
               error := None |}
        end.

(** The exchanges of one call of [submitLogin], and what it looks at. *)
Section SubmitLoginExchanges.
Variable fetch : nat -> Request -> Response.
Variables cookies0 token0 username password captcha : jsstr.

Definition loginResponse : Response :=
  fetch 0 (loginRequest cookies0 token0 username password captcha).
Definition cookies1 : jsstr :=
  mergeCookies cookies0 (extractCookies loginResponse).
Definition indexResponse : Response := fetch 1 (indexRequest cookies1 true).
Definition cookies2 : jsstr :=
  mergeCookies cookies1 (extractCookies indexResponse).
Definition redirectResponse : Response := fetch 2 (indexRequest cookies2 false).
Definition cookies3 : jsstr :=
  mergeCookies cookies2 (extractCookies redirectResponse).

(** The login request was not answered with an OK status. *)
Definition requestFailed : bool := negb (ok loginResponse).
(** The answer holds an error marker. *)
Definition errorMarker : bool :=
  includes (body loginResponse) (str "<IsError>1</IsError>")
  || includes (body loginResponse) (str "<LoginOK>0</LoginOK>").
(** The landing-page request is redirected. *)
Definition redirected : bool := (status indexResponse =? 302)%Z.
(** It is redirected back to the login page. *)
Definition backToLogin : bool :=
  redirected && match location indexResponse with
                | Some loc => includes loc (str "login.php")
                | None => false
                end.
(** The final page and the cookies that go with it. *)
Definition finalPage : jsstr :=
  if redirected then body redirectResponse else body indexResponse.
Definition finalCookies : jsstr := if redirected then cookies3 else cookies2.

End SubmitLoginExchanges.

(** ** Validation response *)

Record FieldError : Type := { field : jsstr; message : jsstr }.

Record FlightPlanValidationResponse : Type := {
  isError : bool;
  sessionExpired : option bool;
  fplIsOk : bool;
  errorMessages : option (list jsstr);
  fieldErrors : option (list FieldError);
  rawResponse : option jsstr
}.

(** The pattern built by [getTagValue] and written out for the
    [FplErrors] and [ErrMsg] loops: [<], an optional [ns1:], the tag
    name, [>], group 1 = any run of characters other than [<], then the
    closing tag with the same optional prefix.  The tag names used are
    made of letters. *)
Definition tagRe (tag : jsstr) : regex :=
  Seq (Chr "<") (Seq (Opt (Lit (str "ns1:"))) (Seq (Lit tag) (Seq (Chr ">")
 (Seq (Group 1 (Star (NoneOf [IChr "<"])))
 (Seq (Lit (str "</")) (Seq (Opt (Lit (str "ns1:")))
 (Seq (Lit tag) (Chr ">")))))))).

Definition getTagValue (tag content : jsstr) : jsstr :=
  match exec true (tagRe tag) content with
  | Some m => groupStr 1 m
  | None => []
  end.

(** The field code of an error entry: [F\d+[a-z]?|FAddinfo\w+]. *)
Definition fieldCodeRe : regex :=
  Alt (Seq (Chr "F") (Seq (Plus (OneOf [IDigit]))
                          (Opt (OneOf [IRange "a" "z"]))))
      (Seq (Lit (str "FAddinfo")) (Plus (OneOf [IWord]))).

(** [/^(F\d+[a-z]?|FAddinfo\w+)\s+(.+)$/i] *)
Definition fieldErrorRe : regex :=
  Seq Bol (Seq (Group 1 fieldCodeRe)
          (Seq (Plus (OneOf [ISpace])) (Seq (Group 2 (Plus Any)) Eol))).

(** The body of the [FplErrors] loop for one [errorText]: nothing is
    pushed for an empty text. *)
Definition fplErrorEntry (errorText : jsstr) : option FieldError :=
  if truthy errorText then
    match exec true fieldErrorRe errorText with
    | Some fieldMatch =>
        Some {| field := groupStr 1 fieldMatch;
                message := groupStr 2 fieldMatch |}
    | None => Some {| field := str "General"; message := errorText |}
    end
  else None.

(** A text has a leading field code when one of its prefixes belongs
    to the language of the field-code pattern (under the [i] flag). *)
Definition hasLeadingFieldCode (errorText : jsstr) : Prop :=
  exists w rest, errorText = w ++ rest /\ lang true fieldCodeRe w.

Definition nonEmptyList {A : Type} (l : list A) : option (list A) :=
  match l with [] => None | _ :: _ => Some l end.

Definition parseValidationResponse (xml : jsstr) : FlightPlanValidationResponse :=
  if isSessionExpiredResponse xml then
    {| isError := true; sessionExpired := Some true; fplIsOk := false;
       errorMessages := None; fieldErrors := None; rawResponse := None |}
  else
    let isError := JsString.eqb (getTagValue (str "IsError") xml) (str "1") in
    let fplIsOk := JsString.eqb (getTagValue (str "FplIsOk") xml) (str "1") in
    let fieldErrors :=
      omap (fun fplMatch => fplErrorEntry (groupStr 1 fplMatch))
           (matchAll true (tagRe (str "FplErrors")) xml) in
    let errorMessages :=
      filter (fun t => truthy t = true)
             (map (groupStr 1) (matchAll true (tagRe (str "ErrMsg")) xml)) in
    {| isError := isError;
       sessionExpired := None;
       fplIsOk := fplIsOk;
       errorMessages := nonEmptyList errorMessages;
       fieldErrors := nonEmptyList fieldErrors;
       rawResponse := if negb fplIsOk then Some xml else None |}.

End Client.

(* ===================================================================== *)
(** * session-store.ts                                                    *)
(* ===================================================================== *)

Module SessionStore.

Record HomebriefingSession : Type := {
  cookies : jsstr;
  token : jsstr;
  userSession : jsstr;
  expiresAt : Z
}.

Record PendingLogin : Type := {
  pendingCookies : jsstr;
  pendingToken : jsstr;
  createdAt : Z
}.

(** The two tables of the store, keyed by session id. *)
Record Store : Type := {
  sessions : gmap jsstr HomebriefingSession;
  pendingLogins : gmap jsstr PendingLogin
}.

Definition emptyStore : Store := {| sessions := ∅; pendingLogins := ∅ |}.

(** Milliseconds. *)
Definition SESSION_TIMEOUT : Z := 30 * 60 * 1000.
Definition PENDING_TIMEOUT : Z := 5 * 60 * 1000.

(** Every [Date.now()] of the source is an argument of the model, named
    [now] when an operation reads the clock once.  [sessionId] in
    [createPendingLogin] is the value [generateSessionId] drew. *)
Definition createPendingLogin (sessionId : jsstr) (now : Z)
  (cookies token : jsstr) (st : Store) : jsstr * Store :=
  (sessionId,
   {| sessions := sessions st;
      pendingLogins :=
        <[sessionId := {| pendingCookies := cookies; pendingToken := token;
                          createdAt := now |}]> (pendingLogins st) |}).

Definition getPendingLogin (now : Z) (sessionId : jsstr) (st : Store)
  : option PendingLogin * Store :=
  match pendingLogins st !! sessionId with
  | None => (None, st)
  | Some pending =>
      if (now - createdAt pending >? PENDING_TIMEOUT)%Z
      then (None, {| sessions := sessions st;
                     pendingLogins := delete sessionId (pendingLogins st) |})
      else (Some pending, st)
  end.

Definition activateSession (now : Z) (sessionId cookies token userSession : jsstr)
  (st : Store) : bool * Store :=
  (true,
   {| sessions :=
        <[sessionId := {| cookies := cookies; token := token;
                          userSession := userSession;
                          expiresAt := (now + SESSION_TIMEOUT)%Z |}]>
          (sessions st);
      pendingLogins := delete sessionId (pendingLogins st) |}).

(** [session.expiresAt = v] *)
Definition setExpiresAt (v : Z) (session : HomebriefingSession)
  : HomebriefingSession :=
  {| cookies := cookies session; token := token session;
     userSession := userSession session; expiresAt := v |}.

(** [getSession] reads the clock twice: [nowCheck] for the expiry test,
    [nowExtend] when it extends the session.  The object it returns is
    the stored one, after the extension. *)
Definition getSession (nowCheck nowExtend : Z) (sessionId : jsstr) (st : Store)
  : option HomebriefingSession * Store :=
  match sessions st !! sessionId with
  | None => (None, st)
  | Some session =>
      if (nowCheck >? expiresAt session)%Z
      then (None, {| sessions := delete sessionId (sessions st);
                     pendingLogins := pendingLogins st |})
      else
        let session' := setExpiresAt (nowExtend + SESSION_TIMEOUT)%Z session in
        (Some session',
         {| sessions := <[sessionId := session']> (sessions st);
            pendingLogins := pendingLogins st |})
  end.

Definition deleteSession (sessionId : jsstr) (st : Store) : Store :=
  {| sessions := delete sessionId (sessions st);
     pendingLogins := delete sessionId (pendingLogins st) |}.

(** The sweep that runs every five minutes. *)
Definition cleanup (now : Z) (st : Store) : Store :=
  {| sessions :=
       filter (fun kv => ¬ (now > expiresAt (snd kv))%Z) (sessions st);
     pendingLogins :=
       filter (fun kv => ¬ (now - createdAt (snd kv) > PENDING_TIMEOUT)%Z)
              (pendingLogins st) |}.

(** What happens to the store between two moments: reads of one session
    and sweeps. *)
Inductive event : Type :=
| Access (nowCheck nowExtend : Z)      (* getSession(sessionId) *)
| Sweep (now : Z).                     (* cleanup() *)

Definition step (sessionId : jsstr) (e : event) (st : Store)
  : option (option HomebriefingSession) * Store :=
  match e with
  | Access nowCheck nowExtend =>
      let '(r, st') := getSession nowCheck nowExtend sessionId st in
      (Some r, st')
  | Sweep now => (None, cleanup now st)
  end.

(** Runs a trace; collects what each [getSession] returned. *)
Fixpoint runTrace (sessionId : jsstr) (es : list event) (st : Store)
  : list (option HomebriefingSession) * Store :=
  match es with
  | [] => ([], st)
  | e :: es' =>
      let '(r, st') := step sessionId e st in
      let '(rs, st'') := runTrace sessionId es' st' in
      (match r with Some x => x :: rs | None => rs end, st'')
  end.

(** The clock values at which the reads of a trace extended the session. *)
Definition extensions (es : list event) : list Z :=
  flat_map (fun e => match e with
                     | Access _ nowExtend => [nowExtend]
                     | Sweep _ => []
                     end) es.

Definition minutes (n : Z) : Z := (n * 60 * 1000)%Z.

(** Every event of the trace happens at most twenty minutes after the
    moment [last] from which the expiry was last computed (the clock
    value of the previous extension, or of the activation). *)
Fixpoint withinTwentyMinutes (last : Z) (es : list event) : Prop :=
  match es with
  | [] => True
  | Access nowCheck nowExtend :: es' =>
      (nowCheck <= last + minutes 20)%Z /\ withinTwentyMinutes nowExtend es'
  | Sweep now :: es' =>
      (now <= last + minutes 20)%Z /\ withinTwentyMinutes last es'
  end.

End SessionStore.

(* ===================================================================== *)
(** * The dashboard page: which actions a flight plan offers              *)
(* ===================================================================== *)

Module Dashboard.

(** JavaScript's [&] works on the 32-bit two's-complement value of its
    operands. *)
Definition toInt32 (x : Z) : Z := ((x + 2 ^ 31) mod 2 ^ 32 - 2 ^ 31)%Z.
Definition bitAnd (a b : Z) : Z := Z.land (toInt32 a) (toInt32 b).

Definition canPerformActions (statusCode flCanDo : Z) : bool :=
  if (negb (statusCode =? 48) && negb (statusCode =? 53))%Z then false
  else if (bitAnd flCanDo 7 =? 7)%Z then false
  else if (bitAnd flCanDo 4 =? 4)%Z then false
  else if (bitAnd flCanDo 16 =? 16)%Z then false
  else if (bitAnd flCanDo 3 =? 3)%Z then true
  else if (bitAnd flCanDo 1 =? 1)%Z then true
  else false.

(** The message kinds the comments of the page name. *)
Inductive Action : Type := DLA | CNL | CHG | DEP | ARR.

(** The action buttons of the detail modal: the block rendered under
    [!isArchive && canPerformActions(fp.flStatusCode, fp.flCanDo)] holds
    the Delay and the Cancel button; the page has no other action. *)
Definition actionButtons (isArchive : bool) (statusCode flCanDo : Z)
  : list Action :=
  if negb isArchive && canPerformActions statusCode flCanDo
  then [DLA; CNL] else [].

End Dashboard.

(* ===================================================================== *)
(** * The new-flight-plan page: Field 18                                  *)
(* ===================================================================== *)

Module Field18.
Import JsString Regex.

Record Field18Data : Type := {
  sts : list jsstr;
  pbn : list jsstr;
  per : jsstr;
  eurProtected : bool;
  rfp : jsstr;
  stayInfo : list jsstr;        (* STAYINFO1-9 *)
  textFields : JsObject
}.

(** The object [parseField18String] starts from. *)
Definition emptyField18Data : Field18Data :=
  {| sts := []; pbn := []; per := []; eurProtected := false; rfp := [];
     stayInfo := replicate 9 []; textFields := [] |}.

(** [data.stayInfo.forEach((info, index) => ...)] *)
Fixpoint stayInfoParts (index : nat) (infos : list jsstr) : list jsstr :=
  match infos with
  | [] => []
  | info :: rest =>
      (if truthy info
       then [str "STAYINFO" ++ showNat (index + 1) ++ str "/" ++ info]
       else [])
      ++ stayInfoParts (S index) rest
  end.

Definition buildField18String (data : Field18Data) : jsstr :=
  let parts :=
    (if 0 <? length (sts data)
     then [str "STS/" ++ join (str " ") (sts data)] else [])
    ++ (if 0 <? length (pbn data)
        then [str "PBN/" ++ join [] (pbn data)] else [])
    ++ (if eurProtected data then [str "EUR/PROTECTED"] else [])
    ++ (if truthy (per data) then [str "PER/" ++ per data] else [])
    ++ (if truthy (rfp data) then [str "RFP/" ++ rfp data] else [])
    ++ flat_map (fun cv => if truthy (snd cv)
                           then [fst cv ++ str "/" ++ snd cv] else [])
                (objectEntries (textFields data))
    ++ stayInfoParts 0 (stayInfo data) in
  join (str " ") parts.

Definition codeChars : regex := Plus (OneOf [IRange "A" "Z"; IRange "0" "9"]).

(** The tokenizer pattern, with the [g] flag: group 1 is one or more of
    [A-Z0-9]; a slash; group 2 is one or more non-space characters
    followed, lazily, by any number of groups made of [\s+] and one or
    more characters other than space and slash; then a lookahead for
    either [\s+], a code and a slash, or the end of the input. *)
Definition field18Re : regex :=
  Seq (Group 1 codeChars)
 (Seq (Chr "/")
 (Seq (Group 2
         (Seq (Plus (NoneOf [IChr " "]))
              (LazyStar (Seq (Plus (OneOf [ISpace]))
                             (Plus (NoneOf [IChr " "; IChr "/"]))))))
      (Ahead (Alt (Seq (Plus (OneOf [ISpace])) (Seq codeChars (Chr "/")))
                  Eol)))).

(** The pattern that cuts a PBN value into its codes: a capital letter
    and a digit, with the [g] flag. *)
Definition pbnRe : regex := Seq (OneOf [IRange "A" "Z"]) (OneOf [IDigit]).

Definition setSts v d :=
  {| sts := v; pbn := pbn d; per := per d; eurProtected := eurProtected d;
     rfp := rfp d; stayInfo := stayInfo d; textFields := textFields d |}.
Definition setPbn v d :=
  {| sts := sts d; pbn := v; per := per d; eurProtected := eurProtected d;
     rfp := rfp d; stayInfo := stayInfo d; textFields := textFields d |}.
Definition setPer v d :=
  {| sts := sts d; pbn := pbn d; per := v; eurProtected := eurProtected d;
     rfp := rfp d; stayInfo := stayInfo d; textFields := textFields d |}.
Definition setEurProtected v d :=
  {| sts := sts d; pbn := pbn d; per := per d; eurProtected := v;
     rfp := rfp d; stayInfo := stayInfo d; textFields := textFields d |}.
Definition setRfp v d :=
  {| sts := sts d; pbn := pbn d; per := per d; eurProtected := eurProtected d;
     rfp := v; stayInfo := stayInfo d; textFields := textFields d |}.
Definition setStayInfo v d :=
  {| sts := sts d; pbn := pbn d; per := per d; eurProtected := eurProtected d;
     rfp := rfp d; stayInfo := v; textFields := textFields d |}.
Definition setTextFields v d :=
  {| sts := sts d; pbn := pbn d; per := per d; eurProtected := eurProtected d;
     rfp := rfp d; stayInfo := stayInfo d; textFields := v |}.

(** The body of the loop over the matched tokens. *)
Definition field18Token (data : Field18Data) (token : jsstr) : Field18Data :=
  let slashIndex := indexOf token (str "/") in
  let code := substring token 0 slashIndex in
  let value := substringFrom token (slashIndex + 1) in
  if eqb code (str "STS") then
    setSts (filter (fun p => truthy p = true) (split value (str " "))) data
  else if eqb code (str "PBN") then
    setPbn (map m_text (matchAll false pbnRe value)) data
  else if eqb code (str "PER") then setPer value data
  else if eqb code (str "EUR") && eqb value (str "PROTECTED") then
    setEurProtected true data
  else if eqb code (str "RFP") then setRfp value data
  else if startsWith code (str "STAYINFO") then
    match parseInt (replaceFirst code (str "STAYINFO") []) with
    | Some num =>
        if ((1 <=? num) && (num <=? 9))%Z
        then setStayInfo (<[Z.to_nat (num - 1) := value]> (stayInfo data)) data
        else data
    | None => data
    end
  else setTextFields (objectSet code value (textFields data)) data.

Definition parseField18String (s : jsstr) : Field18Data :=
  if negb (truthy s) then emptyField18Data
  else fold_left field18Token (map m_text (matchAll false field18Re s))
                 emptyField18Data.

End Field18.

(* ===================================================================== *)
(** * The new-flight-plan page: Field 19                                  *)
(* ===================================================================== *)

Module Field19.
Import JsString Regex.

Record Field19Data : Type := MkField19 {
  endurance : jsstr;
  persons : jsstr;
  radioUhf : bool;
  radioVhf : bool;
  radioElba : bool;
  survivalPolar : bool;
  survivalDesert : bool;
  survivalMaritime : bool;
  survivalJungle : bool;
  jacketsLight : bool;
  jacketsFluores : bool;
  jacketsUhf : bool;
  jacketsVhf : bool;
  dinghiesEnabled : bool;
  dinghiesNumber : jsstr;
  dinghiesCapacity : jsstr;
  dinghiesCover : bool;
  dinghiesColour : jsstr;
  aircraftColour : jsstr;
  remarks : jsstr;
  pilotInCommand : jsstr
}.

Definition defaultField19Data : Field19Data :=
  {| endurance := []; persons := [];
     radioUhf := false; radioVhf := true; radioElba := true;
     survivalPolar := false; survivalDesert := false;
     survivalMaritime := false; survivalJungle := false;
     jacketsLight := false; jacketsFluores := false;
     jacketsUhf := false; jacketsVhf := false;
     dinghiesEnabled := false; dinghiesNumber := [];
     dinghiesCapacity := []; dinghiesCover := false; dinghiesColour := [];
     aircraftColour := []; remarks := []; pilotInCommand := [] |}.

(** The letters of a group of flags that are set, joined.  The encoder
    tests the length of the array of letters; the joined text is not
    empty exactly when the array is not. *)
Definition flags (l : list (bool * jsstr)) : jsstr :=
  join [] (flat_map (fun bf : bool * jsstr => if fst bf then [snd bf] else []) l).

(** The local variables [radio], [survival], [jackets] and [dPart] of
    the encoder. *)
Definition radioFlags (data : Field19Data) : jsstr :=
  flags [ (radioUhf data, str "U"); (radioVhf data, str "V");
          (radioElba data, str "E") ].
Definition survivalFlags (data : Field19Data) : jsstr :=
  flags [ (survivalPolar data, str "P"); (survivalDesert data, str "D");
          (survivalMaritime data, str "M"); (survivalJungle data, str "J") ].
Definition jacketFlags (data : Field19Data) : jsstr :=
  flags [ (jacketsLight data, str "L"); (jacketsFluores data, str "F");
          (jacketsUhf data, str "U"); (jacketsVhf data, str "V") ].
Definition dPart (data : Field19Data) : jsstr :=
  str "D\" ++ dinghiesNumber data
  ++ (if truthy (dinghiesCapacity data)
      then str " " ++ dinghiesCapacity data else [])
  ++ (if dinghiesCover data then str " C" else [])
  ++ (if truthy (dinghiesColour data)
      then str " " ++ dinghiesColour data else []).

Definition buildField19String (data : Field19Data) : jsstr :=
  let parts :=
    (if truthy (endurance data) then [str "E\" ++ endurance data] else [])
    ++ (if truthy (persons data) then [str "P\" ++ persons data] else [])
    ++ (if truthy (radioFlags data) then [str "R\" ++ radioFlags data] else [])
    ++ (if truthy (survivalFlags data)
        then [str "S\" ++ survivalFlags data] else [])
    ++ (if truthy (jacketFlags data)
        then [str "J\" ++ jacketFlags data] else [])
    ++ (if dinghiesEnabled data && truthy (dinghiesNumber data)
        then [dPart data] else [])
    ++ (if truthy (aircraftColour data)
        then [str "A\" ++ aircraftColour data] else [])
    ++ (if truthy (remarks data) then [str "N\" ++ remarks data] else [])
    ++ (if truthy (pilotInCommand data)
        then [str "C\" ++ pilotInCommand data] else []) in
  join (str " ") parts.

(** The token pattern, with the [g] flag: group 1 is one capital
    letter; a backslash; group 2 is the run of non-space characters
    that follows (possibly empty). *)
Definition field19Re : regex :=
  Seq (Group 1 (OneOf [IRange "A" "Z"]))
      (Seq (Chr "\") (Group 2 (Star (NoneOf [IChr " "])))).

Definition setEndurance v d :=
  let 'MkField19 _ a2 a3 a4 a5 a6 a7 a8 a9 a10 a11 a12 a13 a14 a15 a16 a17 a18 a19 a20 a21 := d in
  MkField19 v a2 a3 a4 a5 a6 a7 a8 a9 a10 a11 a12 a13 a14 a15 a16 a17 a18 a19 a20 a21.
Definition setPersons v d :=
  let 'MkField19 a1 _ a3 a4 a5 a6 a7 a8 a9 a10 a11 a12 a13 a14 a15 a16 a17 a18 a19 a20 a21 := d in
  MkField19 a1 v a3 a4 a5 a6 a7 a8 a9 a10 a11 a12 a13 a14 a15 a16 a17 a18 a19 a20 a21.
Definition setRadio u v e d :=
  let 'MkField19 a1 a2 _ _ _ a6 a7 a8 a9 a10 a11 a12 a13 a14 a15 a16 a17 a18 a19 a20 a21 := d in
  MkField19 a1 a2 u v e a6 a7 a8 a9 a10 a11 a12 a13 a14 a15 a16 a17 a18 a19 a20 a21.
Definition setSurvival p ds m j d :=
  let 'MkField19 a1 a2 a3 a4 a5 _ _ _ _ a10 a11 a12 a13 a14 a15 a16 a17 a18 a19 a20 a21 := d in
  MkField19 a1 a2 a3 a4 a5 p ds m j a10 a11 a12 a13 a14 a15 a16 a17 a18 a19 a20 a21.
Definition setJackets l f u v d :=
  let 'MkField19 a1 a2 a3 a4 a5 a6 a7 a8 a9 _ _ _ _ a14 a15 a16 a17 a18 a19 a20 a21 := d in
  MkField19 a1 a2 a3 a4 a5 a6 a7 a8 a9 l f u v a14 a15 a16 a17 a18 a19 a20 a21.
Definition setDinghies en num d :=
  let 'MkField19 a1 a2 a3 a4 a5 a6 a7 a8 a9 a10 a11 a12 a13 _ _ a16 a17 a18 a19 a20 a21 := d in
  MkField19 a1 a2 a3 a4 a5 a6 a7 a8 a9 a10 a11 a12 a13 en num a16 a17 a18 a19 a20 a21.
Definition setDinghiesCover v d :=
  let 'MkField19 a1 a2 a3 a4 a5 a6 a7 a8 a9 a10 a11 a12 a13 a14 a15 a16 _ a18 a19 a20 a21 := d in
  MkField19 a1 a2 a3 a4 a5 a6 a7 a8 a9 a10 a11 a12 a13 a14 a15 a16 v a18 a19 a20 a21.
Definition setAircraftColour v d :=
  let 'MkField19 a1 a2 a3 a4 a5 a6 a7 a8 a9 a10 a11 a12 a13 a14 a15 a16 a17 a18 _ a20 a21 := d in
  MkField19 a1 a2 a3 a4 a5 a6 a7 a8 a9 a10 a11 a12 a13 a14 a15 a16 a17 a18 v a20 a21.
Definition setRemarks v d :=
  let 'MkField19 a1 a2 a3 a4 a5 a6 a7 a8 a9 a10 a11 a12 a13 a14 a15 a16 a17 a18 a19 _ a21 := d in
  MkField19 a1 a2 a3 a4 a5 a6 a7 a8 a9 a10 a11 a12 a13 a14 a15 a16 a17 a18 a19 v a21.
Definition setPilotInCommand v d :=
  let 'MkField19 a1 a2 a3 a4 a5 a6 a7 a8 a9 a10 a11 a12 a13 a14 a15 a16 a17 a18 a19 a20 _ := d in
  MkField19 a1 a2 a3 a4 a5 a6 a7 a8 a9 a10 a11 a12 a13 a14 a15 a16 a17 a18 a19 a20 v.

(** The [C] case of the switch: cover or pilot in command. *)
Definition field19C (s value : jsstr) (data : Field19Data) : Field19Data :=
  if (indexOf s (str "C\" ++ value) >? indexOf s (str "D\"))%Z
  then setPilotInCommand value data
  else setDinghiesCover true data.

(** The [switch] on the code of a token. *)
Definition field19Switch (s : jsstr) (data : Field19Data) (code value : jsstr)
  : Field19Data :=
  if eqb code (str "E") then setEndurance value data
  else if eqb code (str "P") then setPersons value data
  else if eqb code (str "R") then
    setRadio (includes value (str "U")) (includes value (str "V"))
             (includes value (str "E")) data
  else if eqb code (str "S") then
    setSurvival (includes value (str "P")) (includes value (str "D"))
                (includes value (str "M")) (includes value (str "J")) data
  else if eqb code (str "J") then
    setJackets (includes value (str "L")) (includes value (str "F"))
               (includes value (str "U")) (includes value (str "V")) data
  else if eqb code (str "D") then setDinghies true value data
  else if eqb code (str "A") then setAircraftColour value data
  else if eqb code (str "N") then setRemarks value data
  else if eqb code (str "C") then field19C s value data
  else data.

(** The body of the [exec] loop: [const [, code, value] = match] and the
    switch. *)
Definition field19Token (s : jsstr) (data : Field19Data) (m : mres)
  : Field19Data :=
  field19Switch s data (groupStr 1 m) (groupStr 2 m).

Definition parseField19String (s : jsstr) : Field19Data :=
  if negb (truthy s) then defaultField19Data
  else fold_left (field19Token s) (matchAll false field19Re s)
                 defaultField19Data.

End Field19.

(* ===================================================================== *)
(** * Field 19: the tokens of the encoder and of the decoder              *)
(* ===================================================================== *)

Module Field19Parts.
Import JsString Regex Field19.

(** The run of non-space characters a text starts with, and what follows
    it. *)
Fixpoint nonSpaceRun (s : jsstr) : jsstr :=
  match s with
  | c :: s' => if Ascii.eqb c " " then [] else c :: nonSpaceRun s'
  | [] => []
  end.

Fixpoint afterRun (s : jsstr) : jsstr :=
  match s with
  | c :: s' => if Ascii.eqb c " " then s else afterRun s'
  | [] => []
  end.

(** A token as the encoder writes it: a letter, a backslash, a payload. *)
Definition partText (p : ascii * jsstr) : jsstr := fst p :: "\"%char :: snd p.

(** The payload of the dinghy token. *)
Definition dinghyPayload (data : Field19Data) : jsstr :=
  dinghiesNumber data
  ++ (if truthy (dinghiesCapacity data)
      then str " " ++ dinghiesCapacity data else [])
  ++ (if dinghiesCover data then str " C" else [])
  ++ (if truthy (dinghiesColour data)
      then str " " ++ dinghiesColour data else []).

(** The tokens the encoder writes before and after the dinghy token. *)
Definition partsBefore (data : Field19Data) : list (ascii * jsstr) :=
  (if truthy (endurance data) then [("E"%char, endurance data)] else [])
  ++ (if truthy (persons data) then [("P"%char, persons data)] else [])
  ++ (if truthy (radioFlags data) then [("R"%char, radioFlags data)] else [])
  ++ (if truthy (survivalFlags data)
      then [("S"%char, survivalFlags data)] else [])
  ++ (if truthy (jacketFlags data) then [("J"%char, jacketFlags data)] else []).

Definition partsAfter (data : Field19Data) : list (ascii * jsstr) :=
  (if truthy (aircraftColour data)
   then [("A"%char, aircraftColour data)] else [])
  ++ (if truthy (remarks data) then [("N"%char, remarks data)] else [])
  ++ (if truthy (pilotInCommand data)
      then [("C"%char, pilotInCommand data)] else []).

(** A token whose letter is a capital and whose payload has no
    backslash. *)
Definition okPart (p : ascii * jsstr) : Prop :=
  isUpper (fst p) = true /\ ~ In "\"%char (snd p).

(** What follows a token in the encoder's output: nothing, or a space. *)
Definition tailOK (t : jsstr) : Prop :=
  match t with [] => True | x :: _ => x = " "%char end.

(** Code and value of a match, as the decoder reads them. *)
Definition codeValue (m : mres) : jsstr * jsstr := (groupStr 1 m, groupStr 2 m).

(** The decoder's loop, on codes and values. *)
Definition switchAll (s : jsstr) (toks : list (jsstr * jsstr)) (d : Field19Data)
  : Field19Data :=
  fold_left (fun d cv => field19Switch s d (fst cv) (snd cv)) toks d.

(** What follows a text without backslash: nothing, or a character other
    than a backslash. *)
Definition headNot (t : jsstr) : Prop :=
  match t with [] => True | x :: _ => x <> "\"%char end.

(** A token followed by the separator. *)
Definition chunk (p : ascii * jsstr) : jsstr := partText p ++ str " ".

(** The free-text sub-fields. *)
Definition textFields19 (data : Field19Data) : list jsstr :=
  [ endurance data; persons data; dinghiesNumber data; dinghiesCapacity data;
    dinghiesColour data; aircraftColour data; remarks data;
    pilotInCommand data ].

End Field19Parts.

(* ===================================================================== *)
(** * Two portals, for the examples of the login step                     *)
(* ===================================================================== *)

Module LoginExamples.
Import JsString Regex Client.

Definition landingPage : jsstr :=
  str "<script>var app = new AppController(" ++ [dquote] ++ str "T0K3N"
  ++ [dquote] ++ str ", " ++ [dquote] ++ str "S3SS10N" ++ [dquote]
  ++ str ", 'x');</script>".

Definition plainResponse (st : Z) (text : jsstr) : Response :=
  {| status := st; setCookie := None; location := None; body := text |}.

(** A portal that accepts the login and serves the landing page. *)
Definition portalUp (n : nat) (_ : Request) : Response :=
  match n with
  | 0 => {| status := 200; setCookie := Some (str "auth=1; Path=/");
            location := None; body := str "<LoginOK>1</LoginOK>" |}
  | _ => plainResponse 200 landingPage
  end.

(** A portal whose login endpoint answers 500, with no error marker,
    while its landing page would be served. *)
Definition portalLoginDown (n : nat) (_ : Request) : Response :=
  match n with
  | 0 => plainResponse 500 (str "Internal Server Error")
  | _ => plainResponse 200 landingPage
  end.

End LoginExamples.

(* ===================================================================== *)
(** * Regular expressions: the groups of a pattern                        *)
(* ===================================================================== *)

Module RegexGroups.
Import JsString Regex.

(** The capturing groups of a pattern, each with its body. *)
Fixpoint groupsOf (r : regex) : list (nat * regex) :=
  match r with
  | Seq r1 r2 | Alt r1 r2 => groupsOf r1 ++ groupsOf r2
  | Star r1 | LazyStar r1 | Ahead r1 => groupsOf r1
  | Group n r1 => (n, r1) :: groupsOf r1
  | _ => []
  end.

(** [\d{4}] and the like: a fixed number of repetitions. *)
Fixpoint Repeat (n : nat) (r : regex) : regex :=
  match n with
  | 0 => Eps
  | S n' => Seq r (Repeat n' r)
  end.

(** Patterns without anchors and lookaheads: whether they match a text
    does not depend on what stands around it. *)
Fixpoint anchorFree (r : regex) : bool :=
  match r with
  | Seq r1 r2 | Alt r1 r2 => anchorFree r1 && anchorFree r2
  | Star r1 | LazyStar r1 | Group _ r1 => anchorFree r1
  | Ahead _ | Bol | Eol => false
  | _ => true
  end.

(** Equality up to the case of the letters, as the [i] flag compares. *)
Definition sameText (a b : jsstr) : Prop := Forall2 (fun x y => chrMatches true x y = true) a b.

(** [[\s\S]]: any character at all, line terminators included. *)
Definition AnyChar : regex := NoneOf [].

End RegexGroups.

(* ===================================================================== *)
(** * client.ts: requests and the parsers of the SOAP answers             *)
(* ===================================================================== *)

Module ClientXml.
Import JsString Regex RegexGroups Client.

(** [s.replace(/c/g, rep)] for a pattern that is one literal character
    and a replacement text without [$]: every occurrence is replaced, in
    one pass from left to right. *)
Definition replaceAllChar (c : ascii) (rep : jsstr) (s : jsstr) : jsstr :=
  flat_map (fun x => if Ascii.eqb x c then rep else [x]) s.

Definition escapeXml (s : jsstr) : jsstr :=
  replaceAllChar "'" (str "&apos;")
    (replaceAllChar dquote (str "&quot;")
       (replaceAllChar ">" (str "&gt;")
          (replaceAllChar "<" (str "&lt;")
             (replaceAllChar "&" (str "&amp;") s)))).

(** What [escapeXml] makes of one character. *)
Definition escapeChar (x : ascii) : jsstr :=
  if Ascii.eqb x "&" then str "&amp;"
  else if Ascii.eqb x "<" then str "&lt;"
  else if Ascii.eqb x ">" then str "&gt;"
  else if Ascii.eqb x dquote then str "&quot;"
  else if Ascii.eqb x "'" then str "&apos;"
  else [x].

(** The characters that [escapeXml] replaces, and the names of the
    entities that stand for them (what follows the [&]). *)
Definition xmlSpecial (x : ascii) : Prop :=
  x = "&"%char \/ x = "<"%char \/ x = ">"%char \/ x = dquote \/ x = "'"%char.

Definition entityNames : list jsstr :=
  [str "amp;"; str "lt;"; str "gt;"; str "quot;"; str "apos;"].

(** [getMultilineTagValue]: as [getTagValue], with group 1 the shortest
    run of any characters that the closing tag can follow. *)
Definition multilineTagRe (tag : jsstr) : regex :=
  Seq (Chr "<") (Seq (Opt (Lit (str "ns1:"))) (Seq (Lit tag) (Seq (Chr ">")
 (Seq (Group 1 (LazyStar AnyChar))
 (Seq (Lit (str "</")) (Seq (Opt (Lit (str "ns1:")))
 (Seq (Lit tag) (Chr ">")))))))).

Definition getMultilineTagValue (tag content : jsstr) : jsstr :=
  match exec true (multilineTagRe tag) content with
  | Some m => groupStr 1 m
  | None => []
  end.

(** The opening tag of an element, as the tag patterns accept it: with
    or without the [ns1:] prefix, in any letter case. *)
Definition openTagRe (tag : jsstr) : regex :=
  Seq (Chr "<") (Seq (Opt (Lit (str "ns1:"))) (Seq (Lit tag) (Chr ">"))).

Definition nsPrefix (o : jsstr) : Prop := o = [] \/ sameText (str "ns1:") o.

(** [parseInt(text) || 0] and [parseInt(text) || undefined]: NaN and 0
    are both falsy. *)
Definition parseIntOr0 (text : jsstr) : Z :=
  match parseInt text with
  | Some n => n
  | None => 0%Z
  end.

Definition parseIntOrUndefined (text : jsstr) : option Z :=
  match parseInt text with
  | Some n => if (n =? 0)%Z then None else Some n
  | None => None
  end.

(** [text || undefined] *)
Definition orUndefined (text : jsstr) : option jsstr :=
  if truthy text then Some text else None.

(** ** The session-expiry patterns, read as phrases *)

(** A text made of the given words in their order, each in any letter
    case, with any characters other than line terminators between one
    word and the next. *)
Fixpoint phraseText (words : list jsstr) (w : jsstr) : Prop :=
  match words with
  | [] => w = []
  | [word] => sameText word w
  | word :: rest =>
      exists word' between w',
        w = word' ++ between ++ w'
        /\ sameText word word'
        /\ Forall (fun c => isLineTerminator c = false) between
        /\ phraseText rest w'
  end.

(** The patterns of [SESSION_EXPIRY_PATTERNS] as lists of words. *)
Definition SESSION_EXPIRY_PHRASES : list (list jsstr) :=
  [ [str "session"; str "expired"];
    [str "invalid"; str "session"];
    [str "not"; str "logged"; str "in"];
    [str "login"; str "required"];
    [str "authentication"; str "failed"];
    [str "unauthorized"] ].

(** The pattern of a phrase. *)
Fixpoint phraseRe (words : list jsstr) : regex :=
  match words with
  | [] => Eps
  | [word] => Lit word
  | word :: rest => Seq (Lit word) (Seq dotStar (phraseRe rest))
  end.

(** ** initLogin *)

(** The pattern of the token on the login page: the text
    [AWLoginDataHandler.setToken(], a double quote, group 1 = one or more
    characters other than a double quote, a double quote, a closing
    parenthesis. *)
Definition setTokenRe : regex :=
  Seq (Lit (str "AWLoginDataHandler.setToken("))
      (Seq (Chr dquote)
           (Seq (Group 1 (Plus (NoneOf [IChr dquote])))
                (Seq (Chr dquote) (Chr ")")))).

Definition SESSION_COOKIE : jsstr := str "__Host-IxoWeb-NL".

(** The result of [initLogin]: the value it returns, or the message of
    the error it throws. *)
Inductive InitLoginOutcome : Type :=
| InitLoginResult (cookies token : jsstr)
| InitLoginError (msg : jsstr).

(** [initLogin], from the answer of the portal to its request for the
    login page. *)
Definition initLogin (response : Response) : InitLoginOutcome :=
  let cookieMap := extractCookies response in
  let cookies := mergeCookies [] cookieMap in
  if negb (mapHas SESSION_COOKIE cookieMap)
  then InitLoginError (str "Failed to get session cookie")
  else
    let html := body response in
    let token := match exec false setTokenRe html with
                 | Some tokenMatch => groupStr 1 tokenMatch
                 | None => []
                 end in
    if negb (truthy token)
    then InitLoginError (str "Failed to get token from login page")
    else InitLoginResult cookies token.

(** ** The answers to the template and action requests *)

Module SaveTemplateResponse.
Record t : Type := {
  isError : bool;
  sessionExpired : option bool;
  success : bool;
  errorMessage : option jsstr;
  rawResponse : option jsstr
}.
End SaveTemplateResponse.

(** The pattern of a SOAP fault, with the [i] flag: [<], an optional
    [SOAP-ENV:], [Fault], any characters other than [>], [>], group 1 =
    the shortest run of any characters, then the closing tag. *)
Definition faultRe : regex :=
  Seq (Chr "<") (Seq (Opt (Lit (str "SOAP-ENV:"))) (Seq (Lit (str "Fault"))
 (Seq (Star (NoneOf [IChr ">"])) (Seq (Chr ">")
 (Seq (Group 1 (LazyStar AnyChar))
 (Seq (Lit (str "</")) (Seq (Opt (Lit (str "SOAP-ENV:")))
 (Seq (Lit (str "Fault")) (Chr ">"))))))))).

Definition parseSaveTemplateResponse (xml : jsstr) : SaveTemplateResponse.t :=
  if isSessionExpiredResponse xml then
    {| SaveTemplateResponse.isError := true;
       SaveTemplateResponse.sessionExpired := Some true;
       SaveTemplateResponse.success := false;
       SaveTemplateResponse.errorMessage := None;
       SaveTemplateResponse.rawResponse := None |}
  else
    let isError := JsString.eqb (getTagValue (str "IsError") xml) (str "1") in
    let errorMsg := getTagValue (str "ErrMsg") xml in
    let errorMsg :=
      if negb (truthy errorMsg) then
        match exec true faultRe xml with
        | Some faultMatch =>
            let faultstring :=
              getTagValue (str "faultstring") (groupStr 1 faultMatch) in
            if truthy faultstring then faultstring else str "SOAP Fault"
        | None => errorMsg
        end
      else errorMsg in
    let insertedTplId := getTagValue (str "InsertedTplId") xml in
    let success := negb isError && truthy insertedTplId in
    let errorMsg :=
      if negb success && negb (truthy errorMsg)
      then str "Unknown error - check server logs for details"
      else errorMsg in
    {| SaveTemplateResponse.isError := isError;
       SaveTemplateResponse.sessionExpired := None;
       SaveTemplateResponse.success := success;
       SaveTemplateResponse.errorMessage := orUndefined errorMsg;
       SaveTemplateResponse.rawResponse :=
         if negb success then Some xml else None |}.

Module DeleteTemplateResponse.
Record t : Type := {
  isError : bool;
  sessionExpired : option bool;
  success : bool;
  deletedTplId : option Z;
  errorMessage : option jsstr
}.
End DeleteTemplateResponse.

Definition parseDeleteTemplateResponse (xml : jsstr) : DeleteTemplateResponse.t :=
  if isSessionExpiredResponse xml then
    {| DeleteTemplateResponse.isError := true;
       DeleteTemplateResponse.sessionExpired := Some true;
       DeleteTemplateResponse.success := false;
       DeleteTemplateResponse.deletedTplId := None;
       DeleteTemplateResponse.errorMessage := None |}
  else
    let isError := JsString.eqb (getTagValue (str "IsError") xml) (str "1") in
    let deletedTplId :=
      parseIntOrUndefined (getTagValue (str "DeletedTplId") xml) in
    let errorMsg := getTagValue (str "ErrMsg") xml in
    {| DeleteTemplateResponse.isError := isError;
       DeleteTemplateResponse.sessionExpired := None;
       DeleteTemplateResponse.success :=
         negb isError && match deletedTplId with Some _ => true | None => false end;
       DeleteTemplateResponse.deletedTplId := deletedTplId;
       DeleteTemplateResponse.errorMessage := orUndefined errorMsg |}.

Module FlightPlanActionResponse.
Record t : Type := {
  isError : bool;
  sessionExpired : option bool;
  success : bool;
  msgSent : option bool;
  errorMessage : option jsstr
}.
End FlightPlanActionResponse.

Definition parseActionResponse (xml : jsstr) : FlightPlanActionResponse.t :=
  if isSessionExpiredResponse xml then
    {| FlightPlanActionResponse.isError := true;
       FlightPlanActionResponse.sessionExpired := Some true;
       FlightPlanActionResponse.success := false;
       FlightPlanActionResponse.msgSent := None;
       FlightPlanActionResponse.errorMessage := None |}
  else
    let isError := JsString.eqb (getTagValue (str "IsError") xml) (str "1") in
    let msgSent := JsString.eqb (getTagValue (str "MsgSent") xml) (str "1") in
    let errMsg := getTagValue (str "ErrMsg") xml in
    {| FlightPlanActionResponse.isError := isError;
       FlightPlanActionResponse.sessionExpired := None;
       FlightPlanActionResponse.success := negb isError && msgSent;
       FlightPlanActionResponse.msgSent := Some msgSent;
       FlightPlanActionResponse.errorMessage := orUndefined errMsg |}.

End ClientXml.

(* ===================================================================== *)
(** * The API routes                                                      *)
(* ===================================================================== *)

Module Routes.
Import JsString Regex RegexGroups Client ClientXml SessionStore.

(** ** Requests to the portal's SOAP endpoint *)

(** What a request to [ibafProvider.php] carries: the [Cookie] and
    [X-AisWeb-Token] headers and the body.  The portal is a function
    from the request to the text of its answer; a [fetch] that throws is
    not modelled. *)
Record SoapCall : Type := {
  soapCookies : jsstr;
  soapToken : jsstr;
  soapRequest : jsstr
}.

(** An integer in a template literal (exact below 2^53, where a double
    holds every integer, and below 10^21, where it is printed without an
    exponent). *)
Definition showNumber (n : Z) : jsstr :=
  if (n <? 0)%Z then "-"%char :: showNat (Z.to_nat (- n))
  else showNat (Z.to_nat n).

Definition envelopeOpen : jsstr :=
  str "<?xml version=" ++ dquote :: str "1.0" ++ dquote
  :: str " encoding=" ++ dquote :: str "utf-8" ++ dquote
  :: str " ?><soapenv:Envelope xmlns:soapenv=" ++ dquote
  :: str "http://schemas.xmlsoap.org/soap/envelope/" ++ dquote
  :: str " xmlns:mob=" ++ dquote :: str "http://mobiltech.sk/" ++ dquote
  :: str "><soapenv:Body>".

Definition envelopeClose : jsstr := str "</soapenv:Body></soapenv:Envelope>".

Definition delaySoapRequest (userSession : jsstr) (flId : Z) (newEobt : jsstr)
  : jsstr :=
  envelopeOpen ++ str "<mob:SendDLARequest><mob:FlId>" ++ showNumber flId
  ++ str "</mob:FlId><mob:EobtVal>" ++ newEobt
  ++ str "</mob:EobtVal><mob:UserSession>" ++ userSession
  ++ str "</mob:UserSession></mob:SendDLARequest>" ++ envelopeClose.

Definition sendDelay (portal : SoapCall -> jsstr)
  (cookies token userSession : jsstr) (flId : Z) (newEobt : jsstr)
  : FlightPlanActionResponse.t :=
  let soapRequest := delaySoapRequest userSession flId newEobt in
  let xmlText := portal {| soapCookies := cookies; soapToken := token;
                           soapRequest := soapRequest |} in
  parseActionResponse xmlText.

Definition deleteTemplateSoapRequest (userSession : jsstr) (tplId : Z) : jsstr :=
  envelopeOpen ++ str "<mob:DeleteFlTplRequest><mob:UserSession>" ++ userSession
  ++ str "</mob:UserSession><mob:TplId>" ++ showNumber tplId
  ++ str "</mob:TplId></mob:DeleteFlTplRequest>" ++ envelopeClose.

Definition deleteTemplate (portal : SoapCall -> jsstr)
  (cookies token userSession : jsstr) (tplId : Z) : DeleteTemplateResponse.t :=
  let soapRequest := deleteTemplateSoapRequest userSession tplId in
  let xmlText := portal {| soapCookies := cookies; soapToken := token;
                           soapRequest := soapRequest |} in
  parseDeleteTemplateResponse xmlText.

(** ** Answers of the routes *)

(** What a route does to the [hb-session] cookie of the browser. *)
Inductive CookieChange : Type :=
| CookieKept
| CookieSet (value : jsstr) (maxAge : Z)
| CookieDeleted.

(** [NextResponse.json(body)], with status 200, or
    [NextResponse.json({ error, code }, { status })]. *)
Inductive RouteAnswer (A : Type) : Type :=
| Answer200 (body : A)
| AnswerError (status : Z) (error : jsstr) (code : option jsstr).
Arguments Answer200 {A} body.
Arguments AnswerError {A} status error code.

Definition notAuthenticated {A : Type} : RouteAnswer A :=
  AnswerError 401 (str "Not authenticated") None.
Definition sessionExpiredAnswer {A : Type} : RouteAnswer A :=
  AnswerError 401 (str "Session expired") None.
Definition portalSessionExpired {A : Type} : RouteAnswer A :=
  AnswerError 401 (str "Homebriefing session expired")
              (Some (str "SESSION_EXPIRED")).

(** [x || fallback] for an optional text. *)
Definition orElse (x : option jsstr) (fallback : jsstr) : jsstr :=
  match x with
  | Some v => if truthy v then v else fallback
  | None => fallback
  end.

(** ** auth/check, auth/logout, auth/init *)

(** [cookie] is [cookieStore.get('hb-session')?.value]; the answer is
    the field [authenticated]. *)
Definition authCheckRoute (nowCheck nowExtend : Z) (cookie : option jsstr)
  (st : Store) : bool * Store :=
  match cookie with
  | None => (false, st)
  | Some sessionId =>
      if negb (truthy sessionId) then (false, st)
      else
        match getSession nowCheck nowExtend sessionId st with
        | (None, st1) => (false, st1)
        | (Some _, st1) => (true, st1)
        end
  end.

Definition logoutRoute (cookie : option jsstr) (st : Store)
  : CookieChange * Store :=
  match cookie with
  | None => (CookieDeleted, st)
  | Some sessionId =>
      if truthy sessionId then (CookieDeleted, deleteSession sessionId st)
      else (CookieDeleted, st)
  end.

(** [loginPage] is the answer of the portal to the request of
    [initLogin], [sessionId] the id that [generateSessionId] draws.  The
    answer is the field [sessionId]. *)
Definition initRoute (loginPage : Response) (sessionId : jsstr) (now : Z)
  (st : Store) : RouteAnswer jsstr * Store :=
  match initLogin loginPage with
  | InitLoginResult cookies token =>
      let '(sessionId, st1) := createPendingLogin sessionId now cookies token st in
      (Answer200 sessionId, st1)
  | InitLoginError _ =>
      (AnswerError 500 (str "Failed to initialize login") None, st)
  end.

(** ** auth/login *)

(** The body [{ success: true, message: 'Login successful' }]. *)
Inductive LoginBody : Type := LoginSuccessful.

(** [x!], for a field that every success result of [submitLogin] holds
    (lemma [submitLogin_success_fields]). *)
Definition assertDefined (x : option jsstr) : jsstr := default [] x.

(** The four fields of the JSON body are texts or absent.  [nowPending]
    and [nowActivate] are the clock when the pending login is read and
    when the session is activated. *)
Definition loginRoute (fetch : nat -> Request -> Response)
  (nowPending nowActivate : Z)
  (sessionId username password captcha : option jsstr) (st : Store)
  : RouteAnswer LoginBody * CookieChange * Store :=
  match sessionId, username, password, captcha with
  | Some sessionId, Some username, Some password, Some captcha =>
      if negb (truthy sessionId) || negb (truthy username)
         || negb (truthy password) || negb (truthy captcha)
      then (AnswerError 400 (str "Missing required fields") None, CookieKept, st)
      else
        match getPendingLogin nowPending sessionId st with
        | (None, st1) =>
            (AnswerError 401
               (str "Invalid or expired session. Please refresh and try again.")
               None, CookieKept, st1)
        | (Some pending, st1) =>
            let result :=
              submitLogin fetch (pendingCookies pending) (pendingToken pending)
                          username password captcha in
            if negb (Client.success result)
            then (AnswerError 401 (orElse (Client.error result) (str "Login failed"))
                              None, CookieKept, st1)
            else
              let '(_, st2) :=
                activateSession nowActivate sessionId
                  (assertDefined (Client.cookies result))
                  (assertDefined (Client.token result))
                  (assertDefined (Client.userSession result)) st1 in
              (Answer200 LoginSuccessful, CookieSet sessionId (30 * 60), st2)
        end
  | _, _, _, _ =>
      (AnswerError 400 (str "Missing required fields") None, CookieKept, st)
  end.

(** ** flight-plans/[flId]/delay *)

(** The pattern of a new EOBT: start, four digits, end. *)
Definition eobtRe : regex := Seq Bol (Seq (Repeat 4 (OneOf [IDigit])) Eol).

(** The test that both the route and the delay dialog of the dashboard
    make before they send: [!(!newEobt || !re.test(newEobt))]. *)
Definition validEobt (newEobt : jsstr) : bool :=
  negb (negb (truthy newEobt) || negb (test false eobtRe newEobt)).

(** [flId] is the path parameter, [newEobt] the field of the JSON body
    (a text or absent). *)
Definition delayRoute (portal : SoapCall -> jsstr) (nowCheck nowExtend : Z)
  (cookie : option jsstr) (flId : jsstr) (newEobt : option jsstr) (st : Store)
  : RouteAnswer FlightPlanActionResponse.t * CookieChange * Store :=
  match cookie with
  | None => (notAuthenticated, CookieKept, st)
  | Some sessionId =>
      if negb (truthy sessionId) then (notAuthenticated, CookieKept, st)
      else
        match getSession nowCheck nowExtend sessionId st with
        | (None, st1) => (sessionExpiredAnswer, CookieKept, st1)
        | (Some session, st1) =>
            match parseInt flId with
            | None =>
                (AnswerError 400 (str "Invalid flight plan ID") None,
                 CookieKept, st1)
            | Some flightPlanId =>
                if negb (validEobt (default [] newEobt))
                then (AnswerError 400
                        (str "Invalid EOBT format. Expected HHMM (e.g., 1200)")
                        None, CookieKept, st1)
                else
                  let result :=
                    sendDelay portal (SessionStore.cookies session)
                      (SessionStore.token session)
                      (SessionStore.userSession session)
                      flightPlanId (default [] newEobt) in
                  if bool_decide
                       (FlightPlanActionResponse.sessionExpired result = Some true)
                  then (portalSessionExpired, CookieDeleted,
                        deleteSession sessionId st1)
                  else (Answer200 result, CookieKept, st1)
            end
        end
  end.

(** What the route asks the portal, for a session and a delay. *)
Definition delayCall (session : HomebriefingSession) (flId : Z) (eobt : jsstr)
  : SoapCall :=
  {| soapCookies := SessionStore.cookies session;
     soapToken := SessionStore.token session;
     soapRequest := delaySoapRequest (SessionStore.userSession session) flId eobt |}.

(** ** flight-plans/templates/[tplId], DELETE *)

(** The body [{ success: true, deletedTplId }]; an undefined
    [deletedTplId] is left out of the JSON text. *)
Record DeletedBody : Type := { deletedTplId : option Z }.

Definition deleteTemplateRoute (portal : SoapCall -> jsstr)
  (nowCheck nowExtend : Z) (cookie : option jsstr) (tplId : jsstr) (st : Store)
  : RouteAnswer DeletedBody * CookieChange * Store :=
  match cookie with
  | None => (notAuthenticated, CookieKept, st)
  | Some sessionId =>
      if negb (truthy sessionId) then (notAuthenticated, CookieKept, st)
      else
        match getSession nowCheck nowExtend sessionId st with
        | (None, st1) => (sessionExpiredAnswer, CookieKept, st1)
        | (Some session, st1) =>
            match parseInt tplId with
            | None =>
                (AnswerError 400 (str "Invalid template ID") None,
                 CookieKept, st1)
            | Some tplIdNum =>
                let result :=
                  deleteTemplate portal (SessionStore.cookies session)
                    (SessionStore.token session)
                    (SessionStore.userSession session) tplIdNum in
                if bool_decide
                     (DeleteTemplateResponse.sessionExpired result = Some true)
                then (portalSessionExpired, CookieDeleted,
                      deleteSession sessionId st1)
                else if DeleteTemplateResponse.isError result
                        || negb (DeleteTemplateResponse.success result)
                then (AnswerError 500
                        (orElse (DeleteTemplateResponse.errorMessage result)
                                (str "Failed to delete template")) None,
                      CookieKept, st1)
                else (Answer200
                        {| deletedTplId :=
                             DeleteTemplateResponse.deletedTplId result |},
                      CookieKept, st1)
            end
        end
  end.

(** What the route asks the portal, for a session and a template. *)
Definition deleteTemplateCall (session : HomebriefingSession) (tplId : Z)
  : SoapCall :=
  {| soapCookies := SessionStore.cookies session;
     soapToken := SessionStore.token session;
     soapRequest :=
       deleteTemplateSoapRequest (SessionStore.userSession session) tplId |}.

End Routes.

(** Example data for the routes. *)
Module RouteExamples.
Import JsString Client ClientXml SessionStore Routes LoginExamples.

Definition pilotSession : HomebriefingSession :=
  {| SessionStore.cookies := str "auth=1";
     SessionStore.token := str "T0K3N";
     SessionStore.userSession := str "S3SS10N";
     expiresAt := 1800000 |}.

Definition pilotStore : Store :=
  {| sessions := {[ str "a1" := pilotSession ]}; pendingLogins := ∅ |}.

Definition portalSent (_ : SoapCall) : jsstr :=
  str "<ns1:IsError>0</ns1:IsError><ns1:MsgSent>1</ns1:MsgSent>".

Definition portalExpired (_ : SoapCall) : jsstr :=
  str "<Fault><faultstring>Session expired</faultstring></Fault>".

Definition portalDeleted (_ : SoapCall) : jsstr :=
  str "<ns1:IsError>0</ns1:IsError><ns1:DeletedTplId>7</ns1:DeletedTplId>".

(** The login page of the portal, with its session cookie and token. *)
Definition loginPage : Response :=
  {| status := 200;
     setCookie := Some (str "__Host-IxoWeb-NL=abc; Path=/; Secure");
     location := None;
     body := str "AWLoginDataHandler.setToken(" ++ [dquote] ++ str "T0K"
             ++ [dquote] ++ str ");" |}.

End RouteExamples.

(* ===================================================================== *)
(** * Field 19: all tokens of the encoder                                 *)
(* ===================================================================== *)

Module Field19RoundTrip.
Import JsString Regex Field19 Field19Parts.

(** A text without space and without backslash. *)
Definition plainText (t : jsstr) : Prop :=
  ~ In " "%char t /\ ~ In "\"%char t.

(** The dinghy token, when the encoder writes one. *)
Definition dinghyParts (data : Field19Data) : list (ascii * jsstr) :=
  if dinghiesEnabled data && truthy (dinghiesNumber data)
  then [("D"%char, dinghyPayload data)] else [].

(** The tokens of the encoder, in the order it writes them. *)
Definition allParts (data : Field19Data) : list (ascii * jsstr) :=
  partsBefore data ++ dinghyParts data ++ partsAfter data.

(** One round of the decoder's loop that runs only when the encoder
    wrote the token. *)
Definition optionalToken (s : jsstr) (b : bool) (code value : jsstr)
  (d : Field19Data) : Field19Data :=
  if b then field19Switch s d code value else d.

End Field19RoundTrip.

(* ===================================================================== *)
(** * Facts about the string primitives                                   *)
(* ===================================================================== *)

Section StringFacts.
Import JsString.

Lemma startsWith_app (p b : jsstr) : startsWith (p ++ b) p = true.
Proof.
  induction p as [|x p IH]; simpl; [reflexivity|].
  rewrite Ascii.eqb_refl. exact IH.
Qed.

Lemma startsWith_inv (p s : jsstr) :
  startsWith s p = true -> exists b, s = p ++ b.
Proof.
  revert s. induction p as [|x p IH]; intros s H.
  - exists s. reflexivity.
  - destruct s as [|y s]; simpl in H; [discriminate|].
    apply andb_prop in H as [Hxy Hs].
    apply Ascii.eqb_eq in Hxy. subst y.
    destruct (IH _ Hs) as [b ->]. exists b. reflexivity.
Qed.

Lemma indexOfFrom_app (a sub b : jsstr) (pos : nat) :
  is_Some (indexOfFrom (a ++ sub ++ b) sub pos).
Proof.
  revert pos. induction a as [|x a IH]; intros pos.
  - simpl app. destruct sub as [|y sub]; simpl.
    + destruct b; simpl; eauto.
    + rewrite Ascii.eqb_refl, startsWith_app. simpl. eauto.
  - change ((x :: a) ++ sub ++ b) with (x :: (a ++ sub ++ b)).
    cbn [indexOfFrom].
    destruct (startsWith (x :: a ++ sub ++ b) sub); [eauto|apply IH].
Qed.

(** [includes] finds every substring. *)
Lemma includes_app (a sub b : jsstr) : includes (a ++ sub ++ b) sub = true.
Proof.
  unfold includes.
  destruct (indexOfFrom_app a sub b 0) as [i ->]. reflexivity.
Qed.

Lemma toUpper_toLower (x : ascii) : toUpper (toLower x) = toUpper x.
Proof. destruct x as [[] [] [] [] [] [] [] []]; reflexivity. Qed.

Lemma toLower_space (x : ascii) :
  toLower x = " "%char -> x = " "%char.
Proof. destruct x as [[] [] [] [] [] [] [] []]; vm_compute; congruence. Qed.

End StringFacts.

(* ===================================================================== *)
(** * Facts about the matcher                                             *)
(* ===================================================================== *)

Section RegexFacts.
Import JsString Regex.

Lemma iterate_ext (lazy : bool) (body : matcher) (A : Type) (k1 k2 : cont A) :
  matcherExt body ->
  (forall pos' s' cs', k1 pos' s' cs' = k2 pos' s' cs') ->
  forall (fuel pos : nat) (s : jsstr) (cs : caps),
    iterate lazy body A k1 fuel pos s cs = iterate lazy body A k2 fuel pos s cs.
Proof.
  intros Hb Hk fuel. induction fuel as [|fuel IH]; intros pos s cs;
    cbn [iterate]; [reflexivity|].
  rewrite (Hb A pos s cs _
             (fun pos' s' cs' =>
                if length s' <? length s
                then iterate lazy body A k2 fuel pos' s' cs' else None)).
  - rewrite (Hk pos s cs). reflexivity.
  - intros pos' s' cs'. destruct (length s' <? length s); [apply IH|reflexivity].
Qed.

Lemma run_ext (ci : bool) (r : regex) : matcherExt (run ci r).
Proof.
  induction r as [ | c | | items | items | r1 IH1 r2 IH2 | r1 IH1 r2 IH2
                 | r1 IH1 | r1 IH1 | n r1 IH1 | r1 IH1 | | ];
    intros A pos s cs k1 k2 Hk; cbn [run].
  - apply Hk.
  - destruct s as [|x s']; [reflexivity|]. rewrite Hk. reflexivity.
  - destruct s as [|x s']; [reflexivity|]. rewrite Hk. reflexivity.
  - destruct s as [|x s']; [reflexivity|]. rewrite Hk. reflexivity.
  - destruct s as [|x s']; [reflexivity|]. rewrite Hk. reflexivity.
  - apply IH1. intros pos' s' cs'. apply IH2. exact Hk.
  - rewrite (IH1 A pos s cs k1 k2 Hk), (IH2 A pos s cs k1 k2 Hk). reflexivity.
  - apply iterate_ext; assumption.
  - apply iterate_ext; assumption.
  - apply IH1. intros pos' s' cs'. apply Hk.
  - destruct (run ci r1 caps pos s cs _); [apply Hk|reflexivity].
  - destruct (pos =? 0); [apply Hk|reflexivity].
  - destruct s; [apply Hk|reflexivity].
Qed.

(** The fuel of a quantifier loop never runs out: any two amounts above
    the length of the input give the same result. *)
Lemma iterate_fuel (lazy : bool) (body : matcher) (A : Type) (k : cont A) :
  matcherExt body ->
  forall (fuel1 fuel2 pos : nat) (s : jsstr) (cs : caps),
    length s < fuel1 -> length s < fuel2 ->
    iterate lazy body A k fuel1 pos s cs = iterate lazy body A k fuel2 pos s cs.
Proof.
  intros Hb fuel1. induction fuel1 as [|fuel1 IH];
    intros fuel2 pos s cs H1 H2; [lia|].
  destruct fuel2 as [|fuel2]; [lia|]. cbn [iterate].
  rewrite (Hb A pos s cs _
             (fun pos' s' cs' =>
                if length s' <? length s
                then iterate lazy body A k fuel2 pos' s' cs' else None)).
  - reflexivity.
  - intros pos' s' cs'. destruct (Nat.ltb_spec (length s') (length s));
      [apply IH; lia|reflexivity].
Qed.

(** Hence a starred pattern unfolds as ECMAScript's RepeatMatcher does:
    one iteration that consumes something and the star again, or else
    the continuation. *)
Lemma run_Star_unfold (ci : bool) (r : regex) (A : Type) (pos : nat)
  (s : jsstr) (cs : caps) (k : cont A) :
  run ci (Star r) A pos s cs k
  = match run ci r A pos s cs
            (fun pos' s' cs' =>
               if length s' <? length s
               then run ci (Star r) A pos' s' cs' k else None) with
    | Some a => Some a
    | None => k pos s cs
    end.
Proof.
  change (run ci (Star r) A pos s cs k)
    with (iterate false (run ci r) A k (S (length s)) pos s cs).
  cbn [iterate].
  rewrite (run_ext ci r A pos s cs _
             (fun pos' s' cs' =>
                if length s' <? length s
                then run ci (Star r) A pos' s' cs' k else None)).
  - reflexivity.
  - intros pos' s' cs'. destruct (Nat.ltb_spec (length s') (length s));
      [|reflexivity].
    change (run ci (Star r) A pos' s' cs' k)
      with (iterate false (run ci r) A k (S (length s')) pos' s' cs').
    apply iterate_fuel; [apply run_ext|lia|lia].
Qed.

Lemma run_LazyStar_unfold (ci : bool) (r : regex) (A : Type) (pos : nat)
  (s : jsstr) (cs : caps) (k : cont A) :
  run ci (LazyStar r) A pos s cs k
  = match k pos s cs with
    | Some a => Some a
    | None =>
        run ci r A pos s cs
          (fun pos' s' cs' =>
             if length s' <? length s
             then run ci (LazyStar r) A pos' s' cs' k else None)
    end.
Proof.
  change (run ci (LazyStar r) A pos s cs k)
    with (iterate true (run ci r) A k (S (length s)) pos s cs).
  cbn [iterate]. destruct (k pos s cs); [reflexivity|].
  apply run_ext. intros pos' s' cs'.
  destruct (Nat.ltb_spec (length s') (length s)); [|reflexivity].
  change (run ci (LazyStar r) A pos' s' cs' k)
    with (iterate true (run ci r) A k (S (length s')) pos' s' cs').
  apply iterate_fuel; [apply run_ext|lia|lia].
Qed.

(** Whatever the matcher returns was returned by its continuation, on
    a suffix of the input, after a text of the pattern's language. *)
Lemma run_sound (ci : bool) (r : regex) :
  forall (A : Type) (pos : nat) (s : jsstr) (cs : caps) (k : cont A) (a : A),
    run ci r A pos s cs k = Some a ->
    exists w s' cs',
      s = w ++ s' /\ lang ci r w /\ k (pos + length w) s' cs' = Some a.
Proof.
  induction r as [ | c | | items | items | r1 IH1 r2 IH2 | r1 IH1 r2 IH2
                 | r1 IH1 | r1 IH1 | n r1 IH1 | r1 IH1 | | ];
    intros A pos s cs k a H; cbn [run] in H.
  - exists [], s, cs. rewrite Nat.add_0_r. repeat split; [constructor|exact H].
  - destruct s as [|x s']; [discriminate|].
    destruct (chrMatches ci c x) eqn:E; [|discriminate].
    exists [x], s', cs. rewrite Nat.add_1_r.
    repeat split; [constructor; exact E|exact H].
  - destruct s as [|x s']; [discriminate|].
    destruct (isLineTerminator x) eqn:E; [discriminate|].
    exists [x], s', cs. rewrite Nat.add_1_r.
    repeat split; [constructor; exact E|exact H].
  - destruct s as [|x s']; [discriminate|].
    destruct (setMatches ci items x) eqn:E; [|discriminate].
    exists [x], s', cs. rewrite Nat.add_1_r.
    repeat split; [constructor; exact E|exact H].
  - destruct s as [|x s']; [discriminate|].
    destruct (setMatches ci items x) eqn:E; [discriminate|].
    exists [x], s', cs. rewrite Nat.add_1_r.
    repeat split; [constructor; exact E|exact H].
  - apply IH1 in H as (w1 & s1 & cs1 & -> & L1 & H).
    apply IH2 in H as (w2 & s2 & cs2 & -> & L2 & H).
    exists (w1 ++ w2), s2, cs2.
    rewrite length_app, Nat.add_assoc, <- app_assoc.
    repeat split; [constructor; assumption|exact H].
  - destruct (run ci r1 A pos s cs k) eqn:E.
    + injection H as ->. apply IH1 in E as (w & s' & cs' & -> & L & E').
      exists w, s', cs'. repeat split; [apply L_AltL; exact L|exact E'].
    + apply IH2 in H as (w & s' & cs' & -> & L & E').
      exists w, s', cs'. repeat split; [apply L_AltR; exact L|exact E'].
  - revert H. generalize (S (length s)) as fuel. intros fuel.
    revert pos s cs. induction fuel as [|fuel IHf]; intros pos s cs H;
      cbn [iterate] in H; [discriminate|].
    match type of H with
    | match ?b with _ => _ end = _ => destruct b eqn:E
    end.
    + injection H as ->.
      apply IH1 in E as (w1 & s1 & cs1 & -> & L1 & E1).
      destruct (length s1 <? length (w1 ++ s1)); [|discriminate].
      apply IHf in E1 as (w2 & s2 & cs2 & -> & L2 & E2).
      exists (w1 ++ w2), s2, cs2.
      rewrite length_app, Nat.add_assoc, <- app_assoc.
      repeat split; [apply L_StarCons; assumption|exact E2].
    + exists [], s, cs. rewrite Nat.add_0_r.
      repeat split; [apply L_StarNil|exact H].
  - revert H. generalize (S (length s)) as fuel. intros fuel.
    revert pos s cs. induction fuel as [|fuel IHf]; intros pos s cs H;
      cbn [iterate] in H; [discriminate|].
    destruct (k pos s cs) eqn:Ek.
    + injection H as ->. exists [], s, cs. rewrite Nat.add_0_r.
      repeat split; [apply L_LazyNil|exact Ek].
    + apply IH1 in H as (w1 & s1 & cs1 & -> & L1 & E1).
      destruct (length s1 <? length (w1 ++ s1)); [|discriminate].
      apply IHf in E1 as (w2 & s2 & cs2 & -> & L2 & E2).
      exists (w1 ++ w2), s2, cs2.
      rewrite length_app, Nat.add_assoc, <- app_assoc.
      repeat split; [apply L_LazyCons; assumption|exact E2].
  - apply IH1 in H as (w & s' & cs' & -> & L & H).
    eexists w, s', _. repeat split; [constructor; exact L|exact H].
  - destruct (run ci r1 caps pos s cs (fun _ _ cs' => Some cs')) as [cs'|];
      [|discriminate].
    exists [], s, cs'. rewrite Nat.add_0_r.
    repeat split; [constructor|exact H].
  - destruct (pos =? 0); [|discriminate].
    exists [], s, cs. rewrite Nat.add_0_r. repeat split; [constructor|exact H].
  - destruct s; [|discriminate].
    exists [], [], cs. rewrite Nat.add_0_r. repeat split; [constructor|exact H].
Qed.

(** A match at [pos] covers a text of the language. *)
Lemma matchAt_sound (ci : bool) (r : regex) (pos : nat) (s : jsstr) (m : mres) :
  matchAt ci r pos s = Some m ->
  exists w s',
    s = w ++ s' /\ lang ci r w /\
    m_index m = pos /\ m_end m = pos + length w /\ m_text m = w.
Proof.
  unfold matchAt. intros H.
  apply run_sound in H as (w & s' & cs' & -> & L & H).
  injection H as <-. exists w, s'. simpl.
  replace (pos + length w - pos) with (length w) by lia.
  rewrite firstn_app, Nat.sub_diag, firstn_all. simpl. rewrite app_nil_r.
  repeat split. exact L.
Qed.

(** A found match is a match at some position of the input. *)
Lemma search_sound (ci : bool) (r : regex) (s : jsstr) :
  forall (pos : nat) (m : mres),
    search ci r pos s = Some m ->
    exists pre t, s = pre ++ t /\ matchAt ci r (pos + length pre) t = Some m.
Proof.
  induction s as [|x s IH]; intros pos m H; simpl in H.
  - destruct (matchAt ci r pos []) eqn:E; [|discriminate].
    injection H as ->. exists [], []. rewrite Nat.add_0_r. split; easy.
  - destruct (matchAt ci r pos (x :: s)) eqn:E.
    + injection H as ->. exists [], (x :: s). rewrite Nat.add_0_r. split; easy.
    + apply IH in H as (pre & t & -> & H).
      exists (x :: pre), t. simpl. rewrite Nat.add_succ_r. split; easy.
Qed.

(** A position where the pattern matches makes the search succeed. *)
Lemma search_complete (ci : bool) (r : regex) (pre t : jsstr) :
  forall pos : nat,
    is_Some (matchAt ci r (pos + length pre) t) ->
    is_Some (search ci r pos (pre ++ t)).
Proof.
  induction pre as [|x pre IH]; intros pos H.
  - simpl in *. rewrite Nat.add_0_r in H.
    destruct t; simpl; destruct H as [m ->]; eauto.
  - simpl. destruct (matchAt ci r pos (x :: pre ++ t)); [eauto|].
    apply IH. simpl in H. rewrite Nat.add_succ_r in H. exact H.
Qed.

(** A literal under the [i] flag consumes any text that is equal to it
    up to the case of its letters. *)
Lemma run_Lit_ci (l : jsstr) :
  forall (w t : jsstr) (A : Type) (pos : nat) (cs : caps) (k : cont A),
    map toLower w = l ->
    run true (Lit l) A pos (w ++ t) cs k = k (pos + length w) t cs.
Proof.
  induction l as [|c l IH]; intros w t A pos cs k H.
  - destruct w; [|discriminate]. simpl. rewrite Nat.add_0_r. reflexivity.
  - destruct w as [|x w]; [discriminate|]. injection H as Hx Hw.
    cbn [Lit fold_right run app]. fold (Lit l).
    unfold chrMatches. rewrite <- Hx, toUpper_toLower, Ascii.eqb_refl.
    rewrite (IH w t A (S pos) cs k Hw). simpl. f_equal. lia.
Qed.

Lemma run_Seq (ci : bool) (r1 r2 : regex) (A : Type) (pos : nat) (s : jsstr)
  (cs : caps) (k : cont A) :
  run ci (Seq r1 r2) A pos s cs k
  = run ci r1 A pos s cs (fun pos' s' cs' => run ci r2 A pos' s' cs' k).
Proof. reflexivity. Qed.

Lemma run_Any_cons (ci : bool) (A : Type) (pos : nat) (x : ascii) (s : jsstr)
  (cs : caps) (k : cont A) :
  run ci Any A pos (x :: s) cs k
  = if negb (isLineTerminator x) then k (S pos) s cs else None.
Proof. reflexivity. Qed.

(** [.*] gives back as much as the rest of the pattern needs. *)
Lemma iterate_Any_some (ci : bool) (A : Type) (k : cont A) (u t : jsstr) :
  forall (fuel pos : nat) (cs : caps),
    Forall (fun x => isLineTerminator x = false) u ->
    length (u ++ t) < fuel ->
    is_Some (k (pos + length u) t cs) ->
    is_Some (iterate false (run ci Any) A k fuel pos (u ++ t) cs).
Proof.
  induction u as [|x u IH]; intros fuel pos cs Hu Hf Hk.
  - destruct fuel as [|fuel]; [lia|]. simpl in *. rewrite Nat.add_0_r in Hk.
    match goal with |- is_Some (match ?b with _ => _ end) => destruct b end;
      [eauto|exact Hk].
  - destruct fuel as [|fuel]; [simpl in Hf; lia|].
    inversion Hu as [|? ? Hx Hu']; subst.
    assert (Hlt : (length (u ++ t) <? length (x :: u ++ t)) = true)
      by (apply Nat.ltb_lt; simpl; lia).
    assert (Hs : is_Some (iterate false (run ci Any) A k fuel (S pos) (u ++ t) cs)).
    { apply IH; [exact Hu'|simpl in Hf; lia|].
      simpl in Hk. rewrite Nat.add_succ_r in Hk. exact Hk. }
    destruct Hs as [a Ha].
    cbn [iterate app]. rewrite run_Any_cons, Hx. cbn [negb].
    rewrite Hlt, Ha. eauto.
Qed.

Lemma run_dotStar_some (ci : bool) (A : Type) (k : cont A) (u t : jsstr)
  (pos : nat) (cs : caps) :
  Forall (fun x => isLineTerminator x = false) u ->
  is_Some (k (pos + length u) t cs) ->
  is_Some (run ci (Star Any) A pos (u ++ t) cs k).
Proof.
  intros Hu Hk. cbn [run].
  apply (iterate_Any_some ci); [exact Hu|lia|exact Hk].
Qed.

End RegexFacts.

(* ===================================================================== *)
(** * Session-expiry detection                                            *)
(* ===================================================================== *)

Section SessionExpiry.
Import JsString Regex Client.

(** The first expiry pattern finds [session expired], in any case of
    its letters, wherever it stands. *)
Lemma session_expired_pattern (a w b : jsstr) :
  map toLower w = str "session expired" ->
  test true (Seq (Lit (str "session")) (Seq dotStar (Lit (str "expired"))))
       (a ++ w ++ b) = true.
Proof.
  intros Hw.
  change (str "session expired")
    with (str "session" ++ [" "%char] ++ str "expired") in Hw.
  apply map_eq_app in Hw as (w1 & w' & -> & Hw1 & Hw').
  apply map_eq_app in Hw' as (sp & w2 & -> & Hsp & Hw2).
  destruct sp as [|x [|? ?]]; try discriminate.
  injection Hsp as Hx. apply toLower_space in Hx. subst x.
  unfold test, exec.
  assert (H : is_Some
    (search true (Seq (Lit (str "session")) (Seq dotStar (Lit (str "expired"))))
            0 (a ++ (w1 ++ [" "%char] ++ w2) ++ b))).
  { apply search_complete. unfold matchAt, dotStar.
    rewrite <- !app_assoc, run_Seq, (run_Lit_ci _ w1 _ _ _ _ _ Hw1), run_Seq.
    apply (run_dotStar_some true _ _ [" "%char]).
    - repeat constructor.
    - rewrite (run_Lit_ci _ w2 _ _ _ _ _ Hw2). eauto. }
  destruct H as [m ->]. reflexivity.
Qed.

(** C1. Every response body that contains the literal text
    [<!DOCTYPE html], whatever else it holds, is classified as an
    expired session, and so is every body that contains
    [Session Expired] in any case of its letters. *)
Theorem isSessionExpiredResponse_markers (xml : jsstr) :
  (exists a b, xml = a ++ str "<!DOCTYPE html" ++ b) \/
  (exists a w b, xml = a ++ w ++ b /\ map toLower w = str "session expired") ->
  isSessionExpiredResponse xml = true.
Proof.
  intros [(a & b & ->) | (a & w & b & -> & Hw)]; unfold isSessionExpiredResponse.
  - rewrite includes_app. cbn [orb].
    destruct (existsb _ _); reflexivity.
  - unfold SESSION_EXPIRY_PATTERNS. cbn [existsb].
    rewrite (session_expired_pattern a w b Hw). reflexivity.
Qed.

Lemma isSessionExpiredResponse_markers_witness :
  (exists a w b,
      str "<Fault>Your SESSION Expired</Fault>" = a ++ w ++ b
      /\ map toLower w = str "session expired")
  /\ isSessionExpiredResponse (str "<Fault>Your SESSION Expired</Fault>") = true.
Proof.
  assert (H : exists a w b,
             str "<Fault>Your SESSION Expired</Fault>" = a ++ w ++ b
             /\ map toLower w = str "session expired").
  { exists (str "<Fault>Your "), (str "SESSION Expired"), (str "</Fault>").
    split; reflexivity. }
  split; [exact H|].
  apply isSessionExpiredResponse_markers. right. exact H.
Defined.

End SessionExpiry.

(* ===================================================================== *)
(** * Validation errors                                                   *)
(* ===================================================================== *)

Section ValidationErrors.
Import JsString Regex Client.

Lemma lang_Seq_Chr (ci : bool) (c : ascii) (r : regex) (w : jsstr) :
  lang ci (Seq (Chr c) r) w ->
  exists x w', w = x :: w' /\ chrMatches ci c x = true /\ lang ci r w'.
Proof.
  intros H. inversion H as [ | | | | | ? ? w1 w2 H1 H2 | | | | | | | | | | ]; subst.
  inversion H1; subst. eexists _, _. repeat split; eassumption.
Qed.

(** Every field code starts with the letter F, in either case. *)
Lemma fieldCode_starts_with_F (w : jsstr) :
  lang true fieldCodeRe w ->
  exists x w', w = x :: w' /\ toUpper x = "F"%char.
Proof.
  unfold fieldCodeRe. intros H.
  inversion H as [ | | | | | | ? ? ? HL | ? ? ? HR | | | | | | | | ]; subst.
  - apply lang_Seq_Chr in HL as (x & w' & -> & Hx & _).
    exists x, w'. split; [reflexivity|].
    unfold chrMatches in Hx. apply Ascii.eqb_eq in Hx. symmetry. exact Hx.
  - cbn [Lit str list_ascii_of_string fold_right] in HR.
    inversion HR as [ | | | | | ? ? w1 w2 H1 H2 | | | | | | | | | | ]; subst.
    apply lang_Seq_Chr in H1 as (x & w' & -> & Hx & _).
    exists x, (w' ++ w2). split; [reflexivity|].
    unfold chrMatches in Hx. apply Ascii.eqb_eq in Hx. symmetry. exact Hx.
Qed.

Lemma no_code_without_F (x : ascii) (s : jsstr) :
  toUpper x <> "F"%char -> ~ hasLeadingFieldCode (x :: s).
Proof.
  intros Hx (w & rest & Heq & L).
  apply fieldCode_starts_with_F in L as (y & w' & -> & Hy).
  injection Heq as -> _. contradiction.
Qed.

Lemma no_code_in_empty : ~ hasLeadingFieldCode [].
Proof.
  intros (w & rest & Heq & L).
  apply fieldCode_starts_with_F in L as (y & w' & -> & _). discriminate.
Qed.

(** The entry pattern can only match a text that starts with a field
    code. *)
Lemma fieldErrorRe_needs_code (errorText : jsstr) (m : mres) :
  exec true fieldErrorRe errorText = Some m -> hasLeadingFieldCode errorText.
Proof.
  unfold exec. intros H.
  apply search_sound in H as (pre & t & -> & H).
  unfold matchAt, fieldErrorRe in H. cbn [run] in H.
  destruct (0 + length pre =? 0) eqn:E; [|discriminate].
  apply Nat.eqb_eq in E. destruct pre; [|discriminate].
  apply run_sound in H as (w & s' & cs' & -> & L & _).
  exists w, s'. split; [reflexivity|exact L].
Qed.

(** C7 (as amended). The entry [F7 Invalid Aircraft Identification]
    becomes the field error with field [F7] and message
    [Invalid Aircraft Identification], also when it arrives inside an
    [FplErrors] element of a response; and every non-empty entry that
    has no leading field code becomes a field error under [General]
    whose message is the whole entry; for the empty entry no field error
    is filed. *)
Theorem fplErrorEntry_spec :
  fplErrorEntry (str "F7 Invalid Aircraft Identification")
  = Some {| field := str "F7";
            message := str "Invalid Aircraft Identification" |}
  /\ fieldErrors (parseValidationResponse
       (str "<ns1:FplErrors>F7 Invalid Aircraft Identification</ns1:FplErrors>"))
     = Some [ {| field := str "F7";
                 message := str "Invalid Aircraft Identification" |} ]
  /\ (forall errorText : jsstr,
        errorText <> [] ->
        ~ hasLeadingFieldCode errorText ->
        fplErrorEntry errorText
        = Some {| field := str "General"; message := errorText |})
  /\ fplErrorEntry [] = None.
Proof.
  split; [vm_compute; reflexivity|].
  split; [vm_compute; reflexivity|].
  split; [|reflexivity].
  intros errorText Hne Hcode. unfold fplErrorEntry.
  destruct errorText as [|x s]; [contradiction|]. cbn [truthy].
  destruct (exec true fieldErrorRe (x :: s)) as [m|] eqn:E; [|reflexivity].
  exfalso. apply Hcode. exact (fieldErrorRe_needs_code _ _ E).
Qed.

Lemma fplErrorEntry_spec_witness :
  str "Something went wrong" <> []
  /\ ~ hasLeadingFieldCode (str "Something went wrong")
  /\ fplErrorEntry (str "Something went wrong")
     = Some {| field := str "General";
               message := str "Something went wrong" |}.
Proof.
  assert (H1 : str "Something went wrong" <> []) by discriminate.
  assert (H2 : ~ hasLeadingFieldCode (str "Something went wrong"))
    by (apply no_code_without_F; discriminate).
  split; [exact H1|]. split; [exact H2|].
  exact (proj1 (proj2 (proj2 fplErrorEntry_spec)) _ H1 H2).
Defined.

(** The empty entry has no leading field code, and no field error is
    filed for it. *)
Lemma fplErrorEntry_empty_counterexample :
  ~ hasLeadingFieldCode (str "")
  /\ fplErrorEntry (str "") = None
  /\ fieldErrors (parseValidationResponse (str "<FplErrors></FplErrors>")) = None.
Proof.
  split; [exact no_code_in_empty|]. split; vm_compute; reflexivity.
Qed.

End ValidationErrors.

(* ===================================================================== *)
(** * The session store                                                   *)
(* ===================================================================== *)

Section SessionStoreFacts.
Import SessionStore.

Lemma getSession_expired (nowCheck nowExtend : Z) (sessionId : jsstr)
  (st : Store) (session : HomebriefingSession) :
  sessions st !! sessionId = Some session ->
  (nowCheck > expiresAt session)%Z ->
  fst (getSession nowCheck nowExtend sessionId st) = None
  /\ sessions (snd (getSession nowCheck nowExtend sessionId st)) !! sessionId = None
  /\ pendingLogins (snd (getSession nowCheck nowExtend sessionId st))
     = pendingLogins st.
Proof.
  intros Hs Hgt. unfold getSession. rewrite Hs.
  destruct (Z.gtb_spec nowCheck (expiresAt session)) as [_|Hle]; [|lia].
  cbn. split; [reflexivity|]. split; [apply lookup_delete_eq|reflexivity].
Qed.

Lemma getSession_live (nowCheck nowExtend : Z) (sessionId : jsstr)
  (st : Store) (session : HomebriefingSession) :
  sessions st !! sessionId = Some session ->
  (nowCheck <= expiresAt session)%Z ->
  getSession nowCheck nowExtend sessionId st
  = (Some (setExpiresAt (nowExtend + SESSION_TIMEOUT) session),
     {| sessions :=
          <[sessionId := setExpiresAt (nowExtend + SESSION_TIMEOUT) session]>
            (sessions st);
        pendingLogins := pendingLogins st |}).
Proof.
  intros Hs Hle. unfold getSession. rewrite Hs.
  destruct (Z.gtb_spec nowCheck (expiresAt session)) as [Hgt|_]; [lia|].
  reflexivity.
Qed.

Lemma cleanup_keeps (now : Z) (sessionId : jsstr) (st : Store)
  (session : HomebriefingSession) :
  sessions st !! sessionId = Some session ->
  (now <= expiresAt session)%Z ->
  sessions (cleanup now st) !! sessionId = Some session.
Proof.
  intros Hs Hle. unfold cleanup. cbn.
  apply map_lookup_filter_Some. split; [exact Hs|]. cbn. lia.
Qed.

Lemma cleanup_drops (now : Z) (sessionId : jsstr) (st : Store)
  (session : HomebriefingSession) :
  sessions st !! sessionId = Some session ->
  (now > expiresAt session)%Z ->
  sessions (cleanup now st) !! sessionId = None.
Proof.
  intros Hs Hgt. unfold cleanup. cbn.
  apply map_lookup_filter_None. right. intros x Hx.
  rewrite Hs in Hx. injection Hx as <-. cbn. lia.
Qed.

(** A session that every event finds at most twenty minutes after its
    last extension answers every read, each time with its expiry moved to
    thirty minutes after the read's clock value. *)
Lemma runTrace_alive (sessionId : jsstr) (es : list event) :
  forall (st : Store) (session : HomebriefingSession) (last : Z),
    sessions st !! sessionId = Some session ->
    expiresAt session = (last + SESSION_TIMEOUT)%Z ->
    withinTwentyMinutes last es ->
    fst (runTrace sessionId es st)
    = map (fun now => Some (setExpiresAt (now + SESSION_TIMEOUT) session))
          (extensions es)
    /\ is_Some (sessions (snd (runTrace sessionId es st)) !! sessionId).
Proof.
  induction es as [|e es IH]; intros st session last Hs He Hw.
  - cbn. split; [reflexivity|eauto].
  - destruct e as [nowCheck nowExtend|now]; cbn [withinTwentyMinutes] in Hw;
      destruct Hw as [Ht Hw]; cbn [runTrace step].
    + rewrite (getSession_live nowCheck nowExtend sessionId st session Hs)
        by (rewrite He; unfold SESSION_TIMEOUT, minutes in *; lia).
      set (session' := setExpiresAt (nowExtend + SESSION_TIMEOUT) session).
      set (st' := {| sessions := <[sessionId := session']> (sessions st);
                     pendingLogins := pendingLogins st |}).
      destruct (IH st' session' nowExtend) as [IH1 IH2];
        [apply lookup_insert_eq|reflexivity|exact Hw|].
      destruct (runTrace sessionId es st') as [rs st''] eqn:E.
      cbn in *. split; [|exact IH2]. rewrite IH1. reflexivity.
    + destruct (IH (cleanup now st) session last) as [IH1 IH2];
        [|exact He|exact Hw|].
      { apply cleanup_keeps; [exact Hs|].
        rewrite He. unfold SESSION_TIMEOUT, minutes in *. lia. }
      destruct (runTrace sessionId es (cleanup now st)) as [rs st''] eqn:E.
      cbn in *. split; [exact IH1|exact IH2].
Qed.

(** C3. For a session held by the store: a [getSession] after the
    stored expiry returns not-found and deletes the entry; any other
    [getSession] succeeds and resets the expiry to thirty minutes after
    its clock value; a session that is read (and swept) at most twenty
    minutes after each extension answers every read; and thirty-one
    minutes after its last extension the session is gone: the next read
    returns not-found and removes it, and so does the sweep. *)
Theorem getSession_sliding_expiry (sessionId : jsstr) (st : Store)
  (session : HomebriefingSession) :
  sessions st !! sessionId = Some session ->
  (forall nowCheck nowExtend : Z,
      (nowCheck > expiresAt session)%Z ->
      fst (getSession nowCheck nowExtend sessionId st) = None
      /\ sessions (snd (getSession nowCheck nowExtend sessionId st)) !! sessionId
         = None)
  /\ (forall nowCheck nowExtend : Z,
         (nowCheck <= expiresAt session)%Z ->
         fst (getSession nowCheck nowExtend sessionId st)
         = Some (setExpiresAt (nowExtend + minutes 30) session)
         /\ sessions (snd (getSession nowCheck nowExtend sessionId st)) !! sessionId
            = Some (setExpiresAt (nowExtend + minutes 30) session))
  /\ (forall (last : Z) (es : list event),
         expiresAt session = (last + minutes 30)%Z ->
         withinTwentyMinutes last es ->
         fst (runTrace sessionId es st)
         = map (fun now => Some (setExpiresAt (now + minutes 30) session))
               (extensions es)
         /\ is_Some (sessions (snd (runTrace sessionId es st)) !! sessionId))
  /\ (forall last now nowExtend : Z,
         expiresAt session = (last + minutes 30)%Z ->
         (last + minutes 31 <= now)%Z ->
         fst (getSession now nowExtend sessionId st) = None
         /\ sessions (snd (getSession now nowExtend sessionId st)) !! sessionId
            = None
         /\ sessions (cleanup now st) !! sessionId = None).
Proof.
  intros Hs. change (minutes 30) with SESSION_TIMEOUT.
  split; [|split; [|split]].
  - intros nowCheck nowExtend Hgt.
    destruct (getSession_expired nowCheck nowExtend _ _ _ Hs Hgt) as (A & B & _).
    split; assumption.
  - intros nowCheck nowExtend Hle.
    rewrite (getSession_live nowCheck nowExtend _ _ _ Hs Hle).
    split; [reflexivity|]. cbn. apply lookup_insert_eq.
  - intros last es He Hw.
    exact (runTrace_alive sessionId es st session last Hs He Hw).
  - intros last now nowExtend He Hn.
    assert (Hgt : (now > expiresAt session)%Z)
      by (rewrite He; unfold SESSION_TIMEOUT, minutes in *; lia).
    destruct (getSession_expired now nowExtend _ _ _ Hs Hgt) as (A & B & _).
    split; [exact A|]. split; [exact B|].
    exact (cleanup_drops _ _ _ _ Hs Hgt).
Qed.

Lemma getSession_sliding_expiry_witness :
  let st := snd (activateSession 0 (str "id") (str "a=1") (str "tok")
                                 (str "sess") emptyStore) in
  let session := {| cookies := str "a=1"; token := str "tok";
                    userSession := str "sess"; expiresAt := minutes 30 |} in
  sessions st !! str "id" = Some session
  /\ fst (runTrace (str "id")
            [ Access (minutes 20) (minutes 20); Sweep (minutes 25);
              Access (minutes 40) (minutes 40) ] st)
     = [ Some (setExpiresAt (minutes 50) session);
         Some (setExpiresAt (minutes 70) session) ]
  /\ fst (getSession (minutes 31) (minutes 31) (str "id") st) = None.
Proof.
  intros st session.
  assert (Hs : sessions st !! str "id" = Some session)
    by (apply lookup_insert_eq).
  split; [exact Hs|].
  destruct (getSession_sliding_expiry (str "id") st session Hs)
    as (_ & _ & Htrace & Hgone).
  split.
  - apply (Htrace 0%Z); [reflexivity|].
    cbn. unfold minutes. repeat split; lia.
  - apply (Hgone 0%Z (minutes 31) (minutes 31)); [reflexivity|].
    unfold minutes. lia.
Defined.

End SessionStoreFacts.

(* ===================================================================== *)
(** * Action permissions                                                  *)
(* ===================================================================== *)

Section ActionPermissions.
Import Dashboard.

Lemma canPerformActions_not_accepted (statusCode flCanDo : Z) :
  statusCode <> 48%Z -> statusCode <> 53%Z ->
  canPerformActions statusCode flCanDo = false.
Proof.
  intros H48 H53. unfold canPerformActions.
  apply Z.eqb_neq in H48, H53. rewrite H48, H53. reflexivity.
Qed.

Lemma canPerformActions_accepted (statusCode flCanDo : Z) :
  statusCode = 48%Z \/ statusCode = 53%Z ->
  canPerformActions statusCode flCanDo = canPerformActions 48 flCanDo.
Proof. intros [-> | ->]; reflexivity. Qed.

(** C8 (as amended). Whatever the status code, the masks 7, 4 and 16
    permit no action; with an accepted status code (48 or 53) the masks 3
    and 1 permit delay and cancel; with any other status code no mask
    permits anything; and the page offers delay and cancel only: no mask
    and no status make it offer an arrival report. *)
Theorem canPerformActions_spec (statusCode : Z) :
  canPerformActions statusCode 7 = false
  /\ canPerformActions statusCode 4 = false
  /\ canPerformActions statusCode 16 = false
  /\ (statusCode = 48%Z \/ statusCode = 53%Z ->
      canPerformActions statusCode 3 = true
      /\ canPerformActions statusCode 1 = true
      /\ actionButtons false statusCode 3 = [DLA; CNL]
      /\ actionButtons false statusCode 1 = [DLA; CNL])
  /\ (statusCode <> 48%Z -> statusCode <> 53%Z ->
      forall flCanDo : Z,
        canPerformActions statusCode flCanDo = false
        /\ forall isArchive : bool,
             actionButtons isArchive statusCode flCanDo = [])
  /\ (forall (isArchive : bool) (flCanDo : Z),
        ~ In ARR (actionButtons isArchive statusCode flCanDo))
  /\ (forall isArchive : bool,
        actionButtons isArchive statusCode 7 = []
        /\ actionButtons isArchive statusCode 4 = []
        /\ actionButtons isArchive statusCode 16 = []).
Proof.
  assert (H7 : canPerformActions statusCode 7 = false).
  { unfold canPerformActions.
    destruct (statusCode =? 48)%Z, (statusCode =? 53)%Z; reflexivity. }
  assert (H4 : canPerformActions statusCode 4 = false).
  { unfold canPerformActions.
    destruct (statusCode =? 48)%Z, (statusCode =? 53)%Z; reflexivity. }
  assert (H16 : canPerformActions statusCode 16 = false).
  { unfold canPerformActions.
    destruct (statusCode =? 48)%Z, (statusCode =? 53)%Z; reflexivity. }
  repeat split; try assumption.
  - rewrite canPerformActions_accepted by assumption. reflexivity.
  - rewrite canPerformActions_accepted by assumption. reflexivity.
  - unfold actionButtons. rewrite canPerformActions_accepted by assumption.
    reflexivity.
  - unfold actionButtons. rewrite canPerformActions_accepted by assumption.
    reflexivity.
  - apply canPerformActions_not_accepted; assumption.
  - intros isArchive. unfold actionButtons.
    rewrite canPerformActions_not_accepted by assumption.
    rewrite andb_false_r. reflexivity.
  - intros isArchive flCanDo. unfold actionButtons.
    destruct (negb isArchive && canPerformActions statusCode flCanDo);
      cbn; intuition discriminate.
  - unfold actionButtons. rewrite H7, andb_false_r. reflexivity.
  - unfold actionButtons. rewrite H4, andb_false_r. reflexivity.
  - unfold actionButtons. rewrite H16, andb_false_r. reflexivity.
Qed.

Lemma canPerformActions_spec_witness :
  (48 = 48 \/ 48 = 53)%Z
  /\ canPerformActions 48 3 = true
  /\ actionButtons false 48 1 = [DLA; CNL]
  /\ canPerformActions 48 7 = false.
Proof.
  assert (H : (48 = 48 \/ 48 = 53)%Z) by (left; reflexivity).
  destruct (canPerformActions_spec 48) as (H7 & _ & _ & Hacc & _).
  destruct (Hacc H) as (H3 & _ & _ & H1).
  repeat split; assumption.
Defined.

(** With an accepted status and the mask 16 the page offers no action at
    all, so no arrival report either. *)
Lemma canPerformActions_mask16_counterexample :
  canPerformActions 48 16 = false
  /\ actionButtons false 48 16 = []
  /\ ~ In ARR (actionButtons false 48 16).
Proof. repeat split. cbn. intuition. Qed.

End ActionPermissions.

(* ===================================================================== *)
(** * Captures                                                            *)
(* ===================================================================== *)

Section CaptureFacts.
Import JsString Regex.

Lemma capture_is_Some (n : nat) (cs : caps) :
  In n (map fst cs) -> is_Some (capture n cs).
Proof.
  induction cs as [|[m v] cs IH]; intros H; cbn in *; [contradiction|].
  destruct (Nat.eqb_spec n m) as [->|Hne]; [eauto|].
  apply IH. destruct H as [H|H]; [congruence|exact H].
Qed.

(** Bindings are only added, and the groups outside alternatives and
    quantifiers are bound when the pattern has matched. *)
Lemma run_captures (ci : bool) (r : regex) :
  forall (A : Type) (pos : nat) (s : jsstr) (cs : caps) (k : cont A) (a : A),
    run ci r A pos s cs k = Some a ->
    exists pos' s' cs',
      k pos' s' cs' = Some a
      /\ forall n, In n (map fst cs) \/ In n (mandatoryGroups r) ->
                   In n (map fst cs').
Proof.
  induction r as [ | c | | items | items | r1 IH1 r2 IH2 | r1 IH1 r2 IH2
                 | r1 IH1 | r1 IH1 | n r1 IH1 | r1 IH1 | | ];
    intros A pos s cs k a H; cbn [run] in H; cbn [mandatoryGroups].
  - exists pos, s, cs. split; [exact H|]. intros n [Hn|[]]. exact Hn.
  - destruct s as [|x s']; [discriminate|].
    destruct (chrMatches ci c x); [|discriminate].
    exists (S pos), s', cs. split; [exact H|]. intros n [Hn|[]]. exact Hn.
  - destruct s as [|x s']; [discriminate|].
    destruct (negb (isLineTerminator x)); [|discriminate].
    exists (S pos), s', cs. split; [exact H|]. intros n [Hn|[]]. exact Hn.
  - destruct s as [|x s']; [discriminate|].
    destruct (setMatches ci items x); [|discriminate].
    exists (S pos), s', cs. split; [exact H|]. intros n [Hn|[]]. exact Hn.
  - destruct s as [|x s']; [discriminate|].
    destruct (negb (setMatches ci items x)); [|discriminate].
    exists (S pos), s', cs. split; [exact H|]. intros n [Hn|[]]. exact Hn.
  - apply IH1 in H as (p1 & s1 & cs1 & H & K1).
    apply IH2 in H as (p2 & s2 & cs2 & H & K2).
    exists p2, s2, cs2. split; [exact H|].
    intros n [Hn|Hn]; [apply K2; left; apply K1; left; exact Hn|].
    apply in_app_or in Hn as [Hn|Hn].
    + apply K2. left. apply K1. right. exact Hn.
    + apply K2. right. exact Hn.
  - destruct (run ci r1 A pos s cs k) eqn:E.
    + injection H as ->. apply IH1 in E as (p1 & s1 & cs1 & E' & K1).
      exists p1, s1, cs1. split; [exact E'|].
      intros n [Hn|[]]. apply K1. left. exact Hn.
    + apply IH2 in H as (p1 & s1 & cs1 & E' & K1).
      exists p1, s1, cs1. split; [exact E'|].
      intros n [Hn|[]]. apply K1. left. exact Hn.
  - revert H. generalize (S (length s)) as fuel. intros fuel.
    revert pos s cs. induction fuel as [|fuel IHf]; intros pos s cs H;
      cbn [iterate] in H; [discriminate|].
    match type of H with
    | match ?b with _ => _ end = _ => destruct b eqn:E
    end.
    + injection H as ->.
      apply IH1 in E as (p1 & s1 & cs1 & E1 & K1).
      destruct (length s1 <? length s); [|discriminate].
      apply IHf in E1 as (p2 & s2 & cs2 & E2 & K2).
      exists p2, s2, cs2. split; [exact E2|].
      intros n [Hn|[]]. apply K2. left. apply K1. left. exact Hn.
    + exists pos, s, cs. split; [exact H|]. intros n [Hn|[]]. exact Hn.
  - revert H. generalize (S (length s)) as fuel. intros fuel.
    revert pos s cs. induction fuel as [|fuel IHf]; intros pos s cs H;
      cbn [iterate] in H; [discriminate|].
    destruct (k pos s cs) eqn:Ek.
    + injection H as ->. exists pos, s, cs. split; [exact Ek|].
      intros n [Hn|[]]. exact Hn.
    + apply IH1 in H as (p1 & s1 & cs1 & E1 & K1).
      destruct (length s1 <? length s); [|discriminate].
      apply IHf in E1 as (p2 & s2 & cs2 & E2 & K2).
      exists p2, s2, cs2. split; [exact E2|].
      intros n [Hn|[]]. apply K2. left. apply K1. left. exact Hn.
  - apply IH1 in H as (p1 & s1 & cs1 & H & K1).
    eexists p1, s1, _. split; [exact H|].
    intros m [Hm|[->|Hm]]; cbn.
    + right. apply K1. left. exact Hm.
    + left. reflexivity.
    + right. apply K1. right. exact Hm.
  - destruct (run ci r1 caps pos s cs (fun _ _ cs' => Some cs')) as [cs1|] eqn:E;
      [|discriminate].
    apply IH1 in E as (p1 & s1 & cs1' & E' & K1). injection E' as ->.
    exists pos, s, cs1. split; [exact H|exact K1].
  - destruct (pos =? 0); [|discriminate].
    exists pos, s, cs. split; [exact H|]. intros n [Hn|[]]. exact Hn.
  - destruct s; [|discriminate].
    exists pos, [], cs. split; [exact H|]. intros n [Hn|[]]. exact Hn.
Qed.

(** The groups outside alternatives and quantifiers are defined in every
    match that [exec] returns. *)
Lemma exec_mandatory_groups (ci : bool) (r : regex) (s : jsstr) (m : mres) (n : nat) :
  exec ci r s = Some m -> In n (mandatoryGroups r) -> is_Some (group n m).
Proof.
  unfold exec. intros H Hn.
  apply search_sound in H as (pre & t & _ & H). unfold matchAt in H.
  apply run_captures in H as (p' & s' & cs' & H & K).
  injection H as <-. unfold group. cbn. apply capture_is_Some.
  apply K. right. exact Hn.
Qed.

End CaptureFacts.

(* ===================================================================== *)
(** * Field 18 and Field 19 on the examples of the specification          *)
(* ===================================================================== *)

Section CodecExamples.
Import JsString Regex Field18 Field19.

Lemma stayInfoParts_absent (n index : nat) :
  stayInfoParts index (replicate n []) = [].
Proof.
  revert index. induction n as [|n IH]; intros index; cbn; [reflexivity|].
  apply IH.
Qed.

(** C4. The Field 18 data with [sts = SAR], [pbn = B2, D2], [per = C]
    and nothing else (whatever the number of empty stay reasons) encodes
    to [STS/SAR PBN/B2D2 PER/C]; decoding that text gives [sts = SAR],
    [pbn = B2, D2] in that order and [per = C], and nothing else: it is
    the data the form starts from with these three sub-fields set. *)
Theorem field18_roundtrip_example :
  (forall n : nat,
      buildField18String
        {| sts := [str "SAR"]; pbn := [str "B2"; str "D2"]; per := str "C";
           eurProtected := false; rfp := []; stayInfo := replicate n [];
           textFields := [] |}
      = str "STS/SAR PBN/B2D2 PER/C")
  /\ sts (parseField18String (str "STS/SAR PBN/B2D2 PER/C")) = [str "SAR"]
  /\ pbn (parseField18String (str "STS/SAR PBN/B2D2 PER/C"))
     = [str "B2"; str "D2"]
  /\ per (parseField18String (str "STS/SAR PBN/B2D2 PER/C")) = str "C"
  /\ parseField18String (str "STS/SAR PBN/B2D2 PER/C")
     = {| sts := [str "SAR"]; pbn := [str "B2"; str "D2"]; per := str "C";
          eurProtected := false; rfp := []; stayInfo := replicate 9 [];
          textFields := [] |}.
Proof.
  split.
  - intros n. unfold buildField18String. cbn [sts pbn per eurProtected rfp
      stayInfo textFields]. rewrite stayInfoParts_absent. reflexivity.
  - repeat split; vm_compute; reflexivity.
Qed.

(** C5. The Field 19 data with endurance [0500], persons [002], VHF and
    ELBA radio and nothing else encodes to a text that holds the tokens
    [E\0500], [P\002] and [R\VE] (V before E, the order in which the
    encoder tests the radio flags); decoding that text gives the same
    endurance, persons and radio flags, and the same data altogether. *)
Theorem field19_roundtrip_example :
  let data :=
    {| endurance := str "0500"; persons := str "002";
       radioUhf := false; radioVhf := true; radioElba := true;
       survivalPolar := false; survivalDesert := false;
       survivalMaritime := false; survivalJungle := false;
       jacketsLight := false; jacketsFluores := false;
       jacketsUhf := false; jacketsVhf := false;
       dinghiesEnabled := false; dinghiesNumber := [];
       dinghiesCapacity := []; dinghiesCover := false; dinghiesColour := [];
       aircraftColour := []; remarks := []; pilotInCommand := [] |} in
  let text := buildField19String data in
  text = str "E\0500 P\002 R\VE"
  /\ In (str "E\0500") (split text (str " "))
  /\ In (str "P\002") (split text (str " "))
  /\ In (str "R\VE") (split text (str " "))
  /\ endurance (parseField19String text) = str "0500"
  /\ persons (parseField19String text) = str "002"
  /\ radioUhf (parseField19String text) = false
  /\ radioVhf (parseField19String text) = true
  /\ radioElba (parseField19String text) = true
  /\ parseField19String text = data.
Proof.
  cbv zeta. repeat split; vm_compute; auto.
Qed.

End CodecExamples.

(* ===================================================================== *)
(** * The login submit step                                               *)
(* ===================================================================== *)

Section SubmitLogin.
Import JsString Regex Client.

Variable fetch : nat -> Request -> Response.
Variables cookies0 token0 username password captcha : jsstr.

Local Abbreviation loginResponse :=
  (loginResponse fetch cookies0 token0 username password captcha).
Local Abbreviation cookies1 :=
  (cookies1 fetch cookies0 token0 username password captcha).
Local Abbreviation indexResponse :=
  (indexResponse fetch cookies0 token0 username password captcha).
Local Abbreviation cookies2 :=
  (cookies2 fetch cookies0 token0 username password captcha).
Local Abbreviation redirectResponse :=
  (redirectResponse fetch cookies0 token0 username password captcha).
Local Abbreviation cookies3 :=
  (cookies3 fetch cookies0 token0 username password captcha).
Local Abbreviation requestFailed :=
  (requestFailed fetch cookies0 token0 username password captcha).
Local Abbreviation errorMarker :=
  (errorMarker fetch cookies0 token0 username password captcha).
Local Abbreviation redirected :=
  (redirected fetch cookies0 token0 username password captcha).
Local Abbreviation backToLogin :=
  (backToLogin fetch cookies0 token0 username password captcha).
Local Abbreviation finalPage :=
  (finalPage fetch cookies0 token0 username password captcha).
Local Abbreviation finalCookies :=
  (finalCookies fetch cookies0 token0 username password captcha).

Lemma submitLogin_cases :
  submitLogin fetch cookies0 token0 username password captcha
  = if requestFailed then loginFailure (str "Login request failed")
    else if errorMarker then loginFailure (str "Invalid credentials or captcha")
    else if backToLogin
         then loginFailure (str "Login failed - redirected back to login")
    else match exec false appCtrlRe finalPage with
         | None => loginFailure (str "Failed to extract session data after login")
         | Some m => {| success := true; cookies := Some finalCookies;
                        token := group 1 m; userSession := group 2 m;
                        error := None |}
         end.
Proof.
  unfold submitLogin, requestFailed, errorMarker, backToLogin, finalPage,
    finalCookies, redirected, cookies3, redirectResponse, cookies2,
    indexResponse, cookies1, loginResponse.
  destruct (negb (ok _)); [reflexivity|].
  destruct (includes _ _ || includes _ _); [reflexivity|].
  destruct ((status _ =? 302)%Z); cbn [andb].
  - destruct (location _) as [loc|]; [destruct (includes loc _)|]; reflexivity.
  - reflexivity.
Qed.

(** C9 (as amended). The submit step returns a failure, and never a
    success, in exactly four cases, told apart by the error text: the
    login request itself was not answered with an OK status; the answer
    holds an error marker; the landing-page request is redirected back to
    the login page; the constructor-call pattern is absent from the final
    page.  In every other case it returns a success that carries the
    merged cookies and, both defined, the token and the session handle
    that the pattern captured. *)
Theorem submitLogin_outcomes :
  let result := submitLogin fetch cookies0 token0 username password captcha in
  (success result = false <->
   requestFailed = true \/ errorMarker = true \/ backToLogin = true
   \/ exec false appCtrlRe finalPage = None)
  /\ (requestFailed = true ->
      result = loginFailure (str "Login request failed"))
  /\ (requestFailed = false -> errorMarker = true ->
      result = loginFailure (str "Invalid credentials or captcha"))
  /\ (requestFailed = false -> errorMarker = false -> backToLogin = true ->
      result = loginFailure (str "Login failed - redirected back to login"))
  /\ (requestFailed = false -> errorMarker = false -> backToLogin = false ->
      exec false appCtrlRe finalPage = None ->
      result = loginFailure (str "Failed to extract session data after login"))
  /\ (success result = true ->
      exists (m : mres) (newToken session : jsstr),
        exec false appCtrlRe finalPage = Some m
        /\ group 1 m = Some newToken /\ group 2 m = Some session
        /\ result = {| success := true; cookies := Some finalCookies;
                       token := Some newToken; userSession := Some session;
                       error := None |}).
Proof.
  cbv zeta. rewrite submitLogin_cases.
  destruct requestFailed, errorMarker, backToLogin;
    try (cbn; repeat split; intros; try discriminate; auto; fail).
  destruct (exec false appCtrlRe finalPage) as [m|] eqn:E.
  - destruct (exec_mandatory_groups false appCtrlRe finalPage m 1 E)
      as [newToken H1]; [vm_compute; auto|].
    destruct (exec_mandatory_groups false appCtrlRe finalPage m 2 E)
      as [session H2]; [vm_compute; auto|].
    rewrite H1, H2. cbn. repeat split; intros; try discriminate.
    + intuition discriminate.
    + exists m, newToken, session. repeat split; assumption.
  - cbn. repeat split; intros; try discriminate; auto.
Qed.

End SubmitLogin.

Section SubmitLoginExamples.
Import JsString Regex Client LoginExamples.

Lemma submitLogin_outcomes_witness :
  success (submitLogin portalUp (str "h=1") (str "t") (str "u") (str "p")
                       (str "c")) = true
  /\ exists (m : mres) (newToken session : jsstr),
       group 1 m = Some newToken /\ group 2 m = Some session
       /\ submitLogin portalUp (str "h=1") (str "t") (str "u") (str "p") (str "c")
          = {| success := true; cookies := Some (str "h=1; auth=1");
               token := Some newToken; userSession := Some session;
               error := None |}.
Proof.
  assert (H : success (submitLogin portalUp (str "h=1") (str "t") (str "u")
                                   (str "p") (str "c")) = true)
    by (vm_compute; reflexivity).
  split; [exact H|].
  destruct (proj2 (proj2 (proj2 (proj2 (proj2
              (submitLogin_outcomes portalUp (str "h=1") (str "t") (str "u")
                                    (str "p") (str "c")))))) H)
    as (m & newToken & session & _ & H1 & H2 & Hr).
  exists m, newToken, session. repeat split; assumption.
Defined.

(** The login request fails although the answer holds no error marker,
    the landing page does not redirect and the pattern is on it. *)
Lemma submitLogin_request_failed_counterexample :
  let loginResponse :=
    portalLoginDown 0 (loginRequest (str "h=1") (str "t") (str "u") (str "p")
                                    (str "c")) in
  let indexResponse := portalLoginDown 1 (indexRequest (str "h=1") true) in
  submitLogin portalLoginDown (str "h=1") (str "t") (str "u") (str "p") (str "c")
  = loginFailure (str "Login request failed")
  /\ includes (body loginResponse) (str "<IsError>1</IsError>") = false
  /\ includes (body loginResponse) (str "<LoginOK>0</LoginOK>") = false
  /\ status indexResponse = 200%Z
  /\ is_Some (exec false appCtrlRe (body indexResponse)).
Proof.
  cbv zeta. repeat split; try (vm_compute; reflexivity).
  vm_compute. eauto.
Qed.

End SubmitLoginExamples.

(* ===================================================================== *)
(** * Merging cookies                                                     *)
(* ===================================================================== *)

Section CookieFacts.
Import JsString Regex Client.

Lemma eqb_true (a b : jsstr) : JsString.eqb a b = true <-> a = b.
Proof. unfold JsString.eqb. apply bool_decide_eq_true. Qed.

Lemma eqb_false (a b : jsstr) : JsString.eqb a b = false <-> a <> b.
Proof. unfold JsString.eqb. apply bool_decide_eq_false. Qed.

Lemma eqb_refl (a : jsstr) : JsString.eqb a a = true.
Proof. apply eqb_true. reflexivity. Qed.

Lemma mapGet_mapSet_eq (k v : jsstr) (m : JsMap) :
  mapGet k (mapSet k v m) = Some v.
Proof.
  induction m as [|[k' v'] m IH]; cbn.
  - rewrite eqb_refl. reflexivity.
  - destruct (JsString.eqb k k') eqn:E; cbn.
    + apply eqb_true in E. subst k'. rewrite eqb_refl. reflexivity.
    + rewrite E. exact IH.
Qed.

Lemma mapGet_mapSet_ne (k k' v : jsstr) (m : JsMap) :
  k <> k' -> mapGet k' (mapSet k v m) = mapGet k' m.
Proof.
  intros Hne. induction m as [|[k0 v0] m IH]; cbn.
  - assert (E : JsString.eqb k' k = false) by (apply eqb_false; congruence).
    rewrite E. reflexivity.
  - destruct (JsString.eqb k k0) eqn:E; cbn.
    + apply eqb_true in E. subst k0.
      assert (E' : JsString.eqb k' k = false) by (apply eqb_false; congruence).
      rewrite E'. reflexivity.
    + destruct (JsString.eqb k' k0); [reflexivity|exact IH].
Qed.

Lemma mapSet_keys (k v : jsstr) (m : JsMap) (k' : jsstr) :
  In k' (map fst (mapSet k v m)) <-> k' = k \/ In k' (map fst m).
Proof.
  induction m as [|[k0 v0] m IH]; cbn.
  - intuition.
  - destruct (JsString.eqb k k0) eqn:E; cbn.
    + apply eqb_true in E. subst k0. intuition.
    + rewrite IH. intuition.
Qed.

Lemma mapSet_NoDup (k v : jsstr) (m : JsMap) :
  NoDup (map fst m) -> NoDup (map fst (mapSet k v m)).
Proof.
  induction m as [|[k0 v0] m IH]; cbn; intros H.
  - apply NoDup_singleton.
  - apply NoDup_cons in H as [Hnin Hnd].
    destruct (JsString.eqb k k0) eqn:E; cbn.
    + apply NoDup_cons. split; assumption.
    + apply NoDup_cons. split; [|apply IH; exact Hnd].
      rewrite list_elem_of_In, mapSet_keys. rewrite list_elem_of_In in Hnin.
      apply eqb_false in E. intros [->|Hin]; [congruence|contradiction].
Qed.

Lemma mapGet_In (k v : jsstr) (m : JsMap) :
  mapGet k m = Some v -> In (k, v) m.
Proof.
  induction m as [|[k0 v0] m IH]; cbn; [discriminate|].
  destruct (JsString.eqb k k0) eqn:E.
  - apply eqb_true in E. subst k0. intros [= ->]. left. reflexivity.
  - intros H. right. exact (IH H).
Qed.

Lemma mapGet_keys (k : jsstr) (m : JsMap) :
  is_Some (mapGet k m) <-> In k (map fst m).
Proof.
  induction m as [|[k0 v0] m IH]; cbn.
  - split; [intros [? [=]]|intros []].
  - destruct (JsString.eqb k k0) eqn:E.
    + apply eqb_true in E. subst k0. split; [auto|eauto].
    + apply eqb_false in E. rewrite IH. intuition congruence.
Qed.

Lemma setAll_keys (newCookies m : JsMap) (k : jsstr) :
  In k (map fst (setAll newCookies m))
  <-> In k (map fst newCookies) \/ In k (map fst m).
Proof.
  revert m. induction newCookies as [|[k0 v0] rest IH]; intros m; cbn.
  - intuition.
  - unfold setAll in IH. rewrite IH, mapSet_keys. cbn. intuition.
Qed.

Lemma setAll_NoDup (newCookies m : JsMap) :
  NoDup (map fst m) -> NoDup (map fst (setAll newCookies m)).
Proof.
  revert m. induction newCookies as [|[k0 v0] rest IH]; intros m H; cbn.
  - exact H.
  - apply IH. apply mapSet_NoDup. exact H.
Qed.

Lemma setAll_other (newCookies m : JsMap) (k : jsstr) :
  ~ In k (map fst newCookies) ->
  mapGet k (setAll newCookies m) = mapGet k m.
Proof.
  revert m. induction newCookies as [|[k0 v0] rest IH]; intros m H; cbn.
  - reflexivity.
  - cbn in H. unfold setAll in IH. rewrite IH by tauto.
    apply mapGet_mapSet_ne. cbn. tauto.
Qed.

Lemma setAll_new (newCookies m : JsMap) (k v : jsstr) :
  NoDup (map fst newCookies) -> In (k, v) newCookies ->
  mapGet k (setAll newCookies m) = Some v.
Proof.
  revert m. induction newCookies as [|[k0 v0] rest IH]; intros m Hnd Hin;
    cbn in *; [contradiction|].
  inversion Hnd as [|? ? Hnin Hnd']; subst.
  destruct Hin as [[= -> ->]|Hin].
  - change (fold_left _ rest (mapSet k v m)) with (setAll rest (mapSet k v m)).
    rewrite setAll_other by (rewrite <- list_elem_of_In; exact Hnin).
    apply mapGet_mapSet_eq.
  - apply IH; assumption.
Qed.

(** ** Cutting a part at its [=] signs *)

Lemma splitAux_single (c : ascii) (s : jsstr) :
  forall cur : jsstr,
    splitAux [c] s cur 0
    = match cutAt c s with
      | None => [rev cur ++ s]
      | Some (a, b) => (rev cur ++ a) :: splitAux [c] b [] 0
      end.
Proof.
  induction s as [|x s IH]; intros cur; cbn [splitAux cutAt].
  - rewrite app_nil_r. reflexivity.
  - cbn [startsWith length Nat.sub]. rewrite andb_true_r.
    rewrite (Ascii.eqb_sym c x).
    destruct (Ascii.eqb x c) eqn:E.
    + rewrite app_nil_r. reflexivity.
    + rewrite IH. cbn [rev]. destruct (cutAt c s) as [[a b]|].
      * rewrite <- app_assoc. reflexivity.
      * rewrite <- app_assoc. reflexivity.
Qed.

Lemma split_single (c : ascii) (s : jsstr) :
  split s [c]
  = match cutAt c s with
    | None => [s]
    | Some (a, b) => a :: split b [c]
    end.
Proof. unfold split. rewrite splitAux_single. reflexivity. Qed.

Lemma cutAt_None (c : ascii) (s : jsstr) :
  ~ In c s -> cutAt c s = None.
Proof.
  induction s as [|x s IH]; intros H; cbn; [reflexivity|].
  destruct (Ascii.eqb x c) eqn:E.
  - apply Ascii.eqb_eq in E. subst. exfalso. apply H. left. reflexivity.
  - rewrite IH; [reflexivity|]. intros Hin. apply H. right. exact Hin.
Qed.

(** What [mergeCookies] stores for a part, against how the part reads. *)
Lemma existingPair_name (part key value : jsstr) :
  existingPair part = Some (key, value) ->
  exists v, cutAt "=" part = Some (key, v).
Proof.
  unfold existingPair. change (str "=") with ["="%char].
  rewrite split_single. destruct (cutAt "=" part) as [[a b]|]; [|discriminate].
  rewrite split_single. destruct (cutAt "=" b) as [[a' b']|];
    destruct (truthy a && truthy _); intros [= <- <-]; eauto.
Qed.

Lemma existingPair_plain (part key value : jsstr) :
  cutAt "=" part = Some (key, value) ->
  key <> [] -> value <> [] -> ~ In "="%char value ->
  existingPair part = Some (key, value).
Proof.
  intros Hcut Hk Hv Hin. unfold existingPair. change (str "=") with ["="%char].
  rewrite split_single, Hcut, split_single, (cutAt_None _ _ Hin).
  destruct key; [contradiction|]. destruct value; [contradiction|]. reflexivity.
Qed.

Lemma existingPair_no_equals (part : jsstr) :
  cutAt "=" part = None -> existingPair part = None.
Proof.
  intros Hcut. unfold existingPair. change (str "=") with ["="%char].
  rewrite split_single, Hcut. reflexivity.
Qed.

Lemma setExisting_snoc (parts : list jsstr) (part : jsstr) (m : JsMap) :
  setExisting (parts ++ [part]) m
  = match existingPair part with
    | Some (key, value) => mapSet key value (setExisting parts m)
    | None => setExisting parts m
    end.
Proof. unfold setExisting. rewrite fold_left_app. reflexivity. Qed.

Lemma omap_snoc {A B : Type} (f : A -> option B) (l : list A) (x : A) :
  omap f (l ++ [x]) = omap f l ++ match f x with Some y => [y] | None => [] end.
Proof.
  induction l as [|a l IH]; cbn.
  - destruct (f x); reflexivity.
  - rewrite IH. destruct (f a); reflexivity.
Qed.

Lemma setExisting_NoDup (parts : list jsstr) :
  NoDup (map fst (setExisting parts [])).
Proof.
  induction parts as [|part parts IH] using rev_ind; [constructor|].
  rewrite setExisting_snoc. destruct (existingPair part) as [[k v]|];
    [apply mapSet_NoDup|]; exact IH.
Qed.

Lemma setExisting_keys (parts : list jsstr) (k : jsstr) :
  In k (map fst (setExisting parts [])) ->
  In k (map fst (omap (cutAt "=") parts)).
Proof.
  induction parts as [|part parts IH] using rev_ind; [intros []|].
  rewrite setExisting_snoc, omap_snoc, map_app, in_app_iff.
  destruct (existingPair part) as [[k0 v0]|] eqn:E.
  - rewrite mapSet_keys. intros [->|H]; [|left; exact (IH H)].
    apply existingPair_name in E as [v ->]. right. left. reflexivity.
  - intros H. left. exact (IH H).
Qed.

(** A name whose most recent part has a plain value (not empty, without
    [=]) is stored with that value. *)
Lemma setExisting_last (parts : list jsstr) (k v : jsstr) :
  lastValue k (omap (cutAt "=") parts) = Some v ->
  k <> [] -> v <> [] -> ~ In "="%char v ->
  mapGet k (setExisting parts []) = Some v.
Proof.
  intros H Hk Hv Hin. revert H.
  induction parts as [|part parts IH] using rev_ind; [discriminate|].
  unfold lastValue in *. rewrite omap_snoc, rev_app_distr, setExisting_snoc.
  destruct (cutAt "=" part) as [[k0 v0]|] eqn:Hcut; cbn [rev app mapGet].
  - destruct (JsString.eqb k k0) eqn:E.
    + apply eqb_true in E. subst k0. intros [= ->].
      rewrite (existingPair_plain _ _ _ Hcut Hk Hv Hin).
      apply mapGet_mapSet_eq.
    + apply eqb_false in E. intros H.
      destruct (existingPair part) as [[k1 v1]|] eqn:Hp; [|exact (IH H)].
      apply existingPair_name in Hp as [v' Hp]. rewrite Hcut in Hp.
      injection Hp as <- _. rewrite mapGet_mapSet_ne by congruence. exact (IH H).
  - rewrite (existingPair_no_equals _ Hcut). exact IH.
Qed.

Lemma mergeCookiesMap_unfold (existing : jsstr) (newCookies : JsMap) :
  mergeCookiesMap existing newCookies
  = setAll newCookies (setExisting (split existing (str "; ")) []).
Proof.
  unfold mergeCookiesMap. destruct existing; reflexivity.
Qed.

(** C2 (as amended). The merged cookies hold every name once.  A name
    of the new map is paired with the new map's value.  A name that only
    the existing header holds is paired with the value of its most recent
    part, provided name and value are not empty and the value holds no
    [=].  Every name of the result comes from one of the two inputs, and
    the returned header lists the pairs as [name=value], separated by
    [; ]. *)
Theorem mergeCookies_spec (existing : jsstr) (newCookies : JsMap) :
  NoDup (map fst newCookies) ->
  mergeCookies existing newCookies
  = join (str "; ")
         (map (fun kv => fst kv ++ str "=" ++ snd kv)
              (mergeCookiesMap existing newCookies))
  /\ NoDup (map fst (mergeCookiesMap existing newCookies))
  /\ (forall k v : jsstr,
        In (k, v) newCookies ->
        mapGet k (mergeCookiesMap existing newCookies) = Some v)
  /\ (forall k v : jsstr,
        ~ In k (map fst newCookies) ->
        lastValue k (headerPairs existing) = Some v ->
        k <> [] -> v <> [] -> ~ In "="%char v ->
        mapGet k (mergeCookiesMap existing newCookies) = Some v)
  /\ (forall k : jsstr,
        In k (map fst (mergeCookiesMap existing newCookies)) ->
        In k (map fst newCookies) \/ In k (map fst (headerPairs existing))).
Proof.
  intros Hnd. rewrite mergeCookiesMap_unfold.
  split; [unfold mergeCookies; rewrite mergeCookiesMap_unfold; reflexivity|].
  split; [apply setAll_NoDup, setExisting_NoDup|].
  split; [intros k v Hin; apply setAll_new; assumption|].
  split.
  - intros k v Hnew Hlast Hk Hv Hin. rewrite setAll_other by exact Hnew.
    apply setExisting_last; assumption.
  - intros k Hin. apply setAll_keys in Hin as [Hin|Hin]; [left; exact Hin|].
    right. apply setExisting_keys. exact Hin.
Qed.

Lemma mergeCookies_spec_witness :
  NoDup (map fst [(str "b", str "3"); (str "c", str "4")])
  /\ mergeCookies (str "a=1; b=2") [(str "b", str "3"); (str "c", str "4")]
     = str "a=1; b=3; c=4"
  /\ mapGet (str "a")
       (mergeCookiesMap (str "a=1; b=2") [(str "b", str "3"); (str "c", str "4")])
     = Some (str "1")
  /\ mapGet (str "b")
       (mergeCookiesMap (str "a=1; b=2") [(str "b", str "3"); (str "c", str "4")])
     = Some (str "3").
Proof.
  assert (Hnd : NoDup (map fst [(str "b", str "3"); (str "c", str "4")])).
  { apply NoDup_cons_2; [|apply NoDup_cons_2; [|apply NoDup_nil_2]].
    - intros H. apply list_elem_of_In in H. cbn in H.
      destruct H as [H|[]]. discriminate.
    - intros H. apply list_elem_of_In in H. destruct H. }
  destruct (mergeCookies_spec (str "a=1; b=2")
              [(str "b", str "3"); (str "c", str "4")] Hnd)
    as (_ & _ & Hnew & Hold & _).
  split; [exact Hnd|]. split; [vm_compute; reflexivity|]. split.
  - apply Hold.
    + cbn. intros [H|[H|[]]]; discriminate.
    + vm_compute. reflexivity.
    + discriminate.
    + discriminate.
    + cbn. intros [H|[]]. discriminate.
  - apply Hnew. left. reflexivity.
Defined.

(** A cookie with an empty value is written into the header by one merge
    and dropped by the next. *)
Lemma mergeCookies_empty_value_counterexample :
  mergeCookies [] [(str "a", [])] = str "a="
  /\ lastValue (str "a") (headerPairs (str "a=")) = Some []
  /\ mergeCookiesMap (str "a=") [] = []
  /\ mergeCookies (str "a=") [] = [].
Proof. repeat split; vm_compute; reflexivity. Qed.

(** A value with an [=] in it, as [extractCookies] collects it, is cut at
    that [=] when the header is merged again. *)
Lemma mergeCookies_cuts_value_at_equals :
  extractCookies {| status := 200; setCookie := Some (str "tok=abc==; Path=/");
                    location := None; body := [] |}
  = [(str "tok", str "abc==")]
  /\ mergeCookies [] [(str "tok", str "abc==")] = str "tok=abc=="
  /\ mergeCookies (str "tok=abc==") [] = str "tok=abc".
Proof. repeat split; vm_compute; reflexivity. Qed.

End CookieFacts.

(* ===================================================================== *)
(** * The Field 19 tokenizer                                              *)
(* ===================================================================== *)

Section Field19Tokens.
Import JsString Regex Field19 Field19Parts.

Lemma run_split (s : jsstr) : s = nonSpaceRun s ++ afterRun s.
Proof.
  induction s as [|c s IH]; cbn; [reflexivity|].
  destruct (Ascii.eqb c " "); [reflexivity|]. cbn. f_equal. exact IH.
Qed.

Lemma afterRun_head (s : jsstr) :
  match afterRun s with [] => True | x :: _ => x = " "%char end.
Proof.
  induction s as [|c s IH]; cbn; [exact I|].
  destruct (Ascii.eqb c " ") eqn:E; [|exact IH].
  apply Ascii.eqb_eq in E. exact E.
Qed.

Lemma nonSpaceRun_no_space (s : jsstr) :
  forallb (fun x => negb (Ascii.eqb x " ")) (nonSpaceRun s) = true.
Proof.
  induction s as [|c s IH]; cbn; [reflexivity|].
  destruct (Ascii.eqb c " ") eqn:E; [reflexivity|]. cbn. rewrite E. exact IH.
Qed.

(** A run followed by nothing, or by a space, is not extended. *)
Lemma nonSpaceRun_app (u t : jsstr) :
  match t with [] => True | x :: _ => x = " "%char end ->
  nonSpaceRun (u ++ t) = nonSpaceRun u.
Proof.
  intros Ht. induction u as [|c u IH]; cbn.
  - destruct t as [|x t]; [reflexivity|]. subst x. reflexivity.
  - destruct (Ascii.eqb c " "); [reflexivity|]. f_equal. exact IH.
Qed.

Lemma nonSpaceRun_all (u : jsstr) :
  ~ In " "%char u -> nonSpaceRun u = u.
Proof.
  induction u as [|c u IH]; intros H; cbn; [reflexivity|].
  destruct (Ascii.eqb c " ") eqn:E.
  - apply Ascii.eqb_eq in E. subst. exfalso. apply H. left. reflexivity.
  - f_equal. apply IH. intros Hin. apply H. right. exact Hin.
Qed.

(** ** Unfolding the matcher, one constructor at a time *)

Lemma run_Group (ci : bool) (n : nat) (r : regex) (A : Type) (pos : nat)
  (s : jsstr) (cs : caps) (k : cont A) :
  run ci (Group n r) A pos s cs k
  = run ci r A pos s cs
      (fun pos' s' cs' => k pos' s' ((n, firstn (pos' - pos) s) :: cs')).
Proof. reflexivity. Qed.

Lemma run_Star (ci : bool) (r : regex) (A : Type) (pos : nat)
  (s : jsstr) (cs : caps) (k : cont A) :
  run ci (Star r) A pos s cs k
  = iterate false (run ci r) A k (S (length s)) pos s cs.
Proof. reflexivity. Qed.

(** The greedy loop over a one-character pattern, when what follows the
    loop accepts the end of the longest run: no backtracking happens. *)
Lemma iterate_greedy_run (body : matcher) (p : ascii -> bool) :
  (forall (A : Type) (pos : nat) (x : ascii) (s : jsstr) (cs : caps) (k : cont A),
      body A pos (x :: s) cs k = if p x then k (S pos) s cs else None) ->
  (forall (A : Type) (pos : nat) (cs : caps) (k : cont A),
      body A pos [] cs k = None) ->
  forall (A : Type) (k : cont A) (u t : jsstr) (fuel pos : nat) (cs : caps),
    forallb p u = true ->
    match t with [] => True | x :: _ => p x = false end ->
    length (u ++ t) < fuel ->
    is_Some (k (pos + length u) t cs) ->
    iterate false body A k fuel pos (u ++ t) cs = k (pos + length u) t cs.
Proof.
  intros Hcons Hnil A k u t.
  induction u as [|x u IH]; intros fuel pos cs Hu Ht Hf Hk.
  - destruct fuel as [|fuel]; [cbn in Hf; lia|]. cbn [iterate app length].
    rewrite Nat.add_0_r. destruct t as [|y t].
    + rewrite Hnil. reflexivity.
    + rewrite Hcons, Ht. reflexivity.
  - destruct fuel as [|fuel]; [cbn in Hf; lia|].
    cbn [forallb] in Hu. apply andb_prop in Hu as [Hx Hu].
    cbn [iterate app]. rewrite Hcons, Hx.
    assert (Hlt : (length (u ++ t) <? length (x :: u ++ t)) = true)
      by (apply Nat.ltb_lt; cbn; lia).
    rewrite Hlt.
    assert (E : iterate false body A k fuel (S pos) (u ++ t) cs
                = k (pos + length (x :: u)) t cs).
    { rewrite IH; [|exact Hu|exact Ht|cbn in Hf; lia|].
      - cbn. rewrite Nat.add_succ_r. reflexivity.
      - cbn in Hk. rewrite Nat.add_succ_r in Hk. exact Hk. }
    rewrite E. destruct Hk as [a Ha]. rewrite Ha. reflexivity.
Qed.

Lemma capital_class (c : ascii) :
  setMatches false [IRange "A" "Z"] c = isUpper c.
Proof.
  unfold setMatches, itemsHave, isUpper. cbn. rewrite !orb_false_r. reflexivity.
Qed.

Lemma space_class (c : ascii) :
  negb (setMatches false [IChr " "] c) = negb (Ascii.eqb c " ").
Proof.
  unfold setMatches, itemsHave. cbn [existsb itemHas andb].
  rewrite !orb_false_r, (Ascii.eqb_sym " " c). reflexivity.
Qed.

Lemma run_OneOf_cons (ci : bool) (items : list citem) (A : Type) (pos : nat)
  (x : ascii) (s : jsstr) (cs : caps) (k : cont A) :
  run ci (OneOf items) A pos (x :: s) cs k
  = if setMatches ci items x then k (S pos) s cs else None.
Proof. reflexivity. Qed.

Lemma run_Chr_cons (ci : bool) (c : ascii) (A : Type) (pos : nat)
  (x : ascii) (s : jsstr) (cs : caps) (k : cont A) :
  run ci (Chr c) A pos (x :: s) cs k
  = if chrMatches ci c x then k (S pos) s cs else None.
Proof. reflexivity. Qed.

(** The value of a token: the whole run of non-space characters. *)
Lemma run_nonSpace_star (A : Type) (k : cont A) (pos : nat) (rest : jsstr)
  (cs : caps) :
  is_Some (k (pos + length (nonSpaceRun rest)) (afterRun rest) cs) ->
  run false (Star (NoneOf [IChr " "])) A pos rest cs k
  = k (pos + length (nonSpaceRun rest)) (afterRun rest) cs.
Proof.
  intros Hk. rewrite run_Star.
  pose proof (iterate_greedy_run (run false (NoneOf [IChr " "]))
                (fun x => negb (Ascii.eqb x " "))) as H.
  specialize (H ltac:(intros; cbn [run]; rewrite space_class; reflexivity)
                ltac:(reflexivity)
                A k (nonSpaceRun rest) (afterRun rest)
                (S (length rest)) pos cs).
  rewrite <- run_split in H. apply H.
  - apply nonSpaceRun_no_space.
  - pose proof (afterRun_head rest) as Hh.
    destruct (afterRun rest) as [|x t]; [exact I|]. subst x. reflexivity.
  - lia.
  - exact Hk.
Qed.

Lemma firstn_run (rest : jsstr) :
  firstn (length (nonSpaceRun rest)) rest = nonSpaceRun rest.
Proof.
  rewrite (run_split rest) at 2.
  rewrite firstn_app, Nat.sub_diag, firstn_all. cbn. apply app_nil_r.
Qed.

(** What one attempt of the token pattern returns. *)
Lemma matchAt_field19 (pos : nat) (c b : ascii) (rest : jsstr) :
  matchAt false field19Re pos (c :: b :: rest)
  = if isUpper c && Ascii.eqb b "\"
    then Some {| m_index := pos;
                 m_end := pos + 2 + length (nonSpaceRun rest);
                 m_text := c :: b :: nonSpaceRun rest;
                 m_caps := [(2, nonSpaceRun rest); (1, [c])] |}
    else None.
Proof.
  unfold matchAt, field19Re.
  rewrite run_Seq, run_Group, run_OneOf_cons, capital_class.
  destruct (isUpper c); [|reflexivity]. cbn [andb].
  rewrite run_Seq, run_Chr_cons. unfold chrMatches.
  rewrite (Ascii.eqb_sym "\" b).
  destruct (Ascii.eqb b "\") eqn:Eb; [|reflexivity].
  rewrite run_Group, run_nonSpace_star by eauto.
  replace (S pos - pos) with 1 by lia.
  replace (S (S pos) + length (nonSpaceRun rest) - S (S pos))
    with (length (nonSpaceRun rest)) by lia.
  replace (S (S pos) + length (nonSpaceRun rest) - pos)
    with (S (S (length (nonSpaceRun rest)))) by lia.
  cbn [firstn]. rewrite firstn_run.
  f_equal. f_equal. lia.
Qed.

Lemma matchAt_field19_nil (pos : nat) : matchAt false field19Re pos [] = None.
Proof. reflexivity. Qed.

Lemma matchAt_field19_one (pos : nat) (c : ascii) :
  matchAt false field19Re pos [c] = None.
Proof.
  unfold matchAt, field19Re. cbn [run]. destruct (setMatches _ _ _); reflexivity.
Qed.

(** A token is a capital letter, a backslash and a run of non-space
    characters, found where its index says. *)
Lemma matchAt_field19_inv (pos : nat) (s : jsstr) (m : mres) :
  matchAt false field19Re pos s = Some m ->
  exists c rest,
    s = c :: "\"%char :: rest /\ isUpper c = true
    /\ m_index m = pos
    /\ groupStr 1 m = [c] /\ groupStr 2 m = nonSpaceRun rest.
Proof.
  destruct s as [|c [|b rest]].
  - rewrite matchAt_field19_nil. discriminate.
  - rewrite matchAt_field19_one. discriminate.
  - rewrite matchAt_field19.
    destruct (isUpper c) eqn:Ec; [|discriminate].
    destruct (Ascii.eqb b "\") eqn:Eb; [|discriminate].
    apply Ascii.eqb_eq in Eb. subst b. intros [= <-].
    exists c, rest. repeat split. exact Ec.
Qed.

(** Every match of a scan is a match at its position. *)
Lemma scan_sound (ci : bool) (r : regex) (s : jsstr) :
  forall (pos skip : nat) (m : mres),
    In m (scan ci r pos skip s) ->
    exists pre t, s = pre ++ t /\ matchAt ci r (pos + length pre) t = Some m.
Proof.
  induction s as [|x s IH]; intros pos skip m H.
  - destruct skip; cbn in H; [|contradiction].
    destruct (matchAt ci r pos []) eqn:E; [|contradiction].
    destruct H as [<-|[]]. exists [], []. rewrite Nat.add_0_r. split; easy.
  - destruct skip as [|n]; cbn [scan] in H.
    + destruct (matchAt ci r pos (x :: s)) as [m0|] eqn:E.
      * destruct H as [<-|H].
        -- exists [], (x :: s). rewrite Nat.add_0_r. split; easy.
        -- apply IH in H as (pre & t & -> & H). exists (x :: pre), t.
           cbn. rewrite Nat.add_succ_r. split; easy.
      * apply IH in H as (pre & t & -> & H). exists (x :: pre), t.
        cbn. rewrite Nat.add_succ_r. split; easy.
    + apply IH in H as (pre & t & -> & H). exists (x :: pre), t.
      cbn. rewrite Nat.add_succ_r. split; easy.
Qed.

(** The token pattern never matches the empty text: the [exec] loop of
    the decoder visits the matches that [matchAll] lists. *)
Lemma field19_match_not_empty (pos : nat) (s : jsstr) (m : mres) :
  matchAt false field19Re pos s = Some m -> m_index m + 2 <= m_end m.
Proof.
  destruct s as [|c [|b rest]].
  - rewrite matchAt_field19_nil. discriminate.
  - rewrite matchAt_field19_one. discriminate.
  - rewrite matchAt_field19.
    destruct (isUpper c && Ascii.eqb b "\"); [|discriminate].
    intros [= <-]. cbn. lia.
Qed.

End Field19Tokens.

(* ===================================================================== *)
(** * Field 19: cover or pilot in command                                 *)
(* ===================================================================== *)

Section Field19CToken.
Import JsString Regex Field19 Field19Parts.

Lemma indexOfFrom_ge (s sub : jsstr) :
  forall pos i : nat, indexOfFrom s sub pos = Some i -> pos <= i.
Proof.
  induction s as [|x s IH]; intros pos i H; cbn [indexOfFrom] in H.
  - destruct (startsWith [] sub); [|discriminate]. injection H as <-. lia.
  - destruct (startsWith (x :: s) sub).
    + injection H as <-. lia.
    + apply IH in H. lia.
Qed.

Lemma indexOfFrom_occurs (s sub : jsstr) :
  forall pos i : nat,
    indexOfFrom s sub pos = Some i ->
    startsWith (skipn (i - pos) s) sub = true.
Proof.
  induction s as [|x s IH]; intros pos i H; cbn [indexOfFrom] in H.
  - destruct (startsWith [] sub) eqn:E; [|discriminate]. injection H as <-.
    rewrite Nat.sub_diag. exact E.
  - destruct (startsWith (x :: s) sub) eqn:E.
    + injection H as <-. rewrite Nat.sub_diag. exact E.
    + pose proof (indexOfFrom_ge _ _ _ _ H) as Hge.
      replace (i - pos) with (S (i - S pos)) by lia. cbn [skipn].
      apply IH. exact H.
Qed.

(** An occurrence at [n] puts the first occurrence at or before [n]. *)
Lemma indexOfFrom_first (sub : jsstr) (n : nat) :
  forall (s : jsstr) (pos : nat),
    startsWith (skipn n s) sub = true -> n <= length s ->
    exists i, indexOfFrom s sub pos = Some i /\ i <= pos + n.
Proof.
  induction n as [|n IH]; intros s pos H Hn.
  - change (skipn 0 s) with s in H. exists pos. split; [|lia].
    destruct s; cbn [indexOfFrom]; rewrite H; reflexivity.
  - destruct s as [|x s]; [cbn in Hn; lia|].
    change (skipn (S n) (x :: s)) with (skipn n s) in H.
    cbn [indexOfFrom]. destruct (startsWith (x :: s) sub).
    + exists pos. split; [reflexivity|lia].
    + destruct (IH s (S pos) H) as (i & Hi & Hle); [cbn in Hn; lia|].
      exists i. split; [exact Hi|lia].
Qed.

Lemma skipn_app_length (pre t : jsstr) : skipn (length pre) (pre ++ t) = t.
Proof. induction pre as [|x pre IH]; [reflexivity|exact IH]. Qed.

(** C6 (as amended). For every input and every token [C\value] that the
    decoder finds in it: the text [C\value] stands at the token's index,
    so its first occurrence is there or earlier; the first [D\] of the
    input is never at that index; and when the token's text does not
    occur earlier than the token itself, the token is read as the pilot
    in command if the input holds no [D\] or its first [D\] stands before
    the token, and as the dinghy-cover flag if the first [D\] stands
    after it. *)
Theorem field19_C_token (s : jsstr) (m : mres) (data : Field19Data) :
  In m (matchAll false field19Re s) ->
  groupStr 1 m = str "C" ->
  startsWith (skipn (m_index m) s) (str "C\" ++ groupStr 2 m) = true
  /\ (0 <= indexOf s (str "C\" ++ groupStr 2 m) <= Z.of_nat (m_index m))%Z
  /\ indexOf s (str "D\") <> Z.of_nat (m_index m)
  /\ (indexOf s (str "C\" ++ groupStr 2 m) = Z.of_nat (m_index m) ->
      field19Token s data m
      = if (indexOf s (str "D\") <? Z.of_nat (m_index m))%Z
        then setPilotInCommand (groupStr 2 m) data
        else setDinghiesCover true data).
Proof.
  intros Hin Hc. unfold matchAll in Hin.
  apply scan_sound in Hin as (pre & t & -> & Hm). cbn [Nat.add] in Hm.
  apply matchAt_field19_inv in Hm as (c & rest & -> & _ & Hidx & H1 & H2).
  rewrite Hc in H1. injection H1 as <-. rewrite H2, Hidx.
  assert (Hocc : startsWith (skipn (length pre) (pre ++ "C"%char :: "\"%char :: rest))
                            (str "C\" ++ nonSpaceRun rest) = true).
  { rewrite skipn_app_length. cbn [str list_ascii_of_string app startsWith].
    rewrite !Ascii.eqb_refl. cbn [andb].
    rewrite (run_split rest) at 1. apply startsWith_app. }
  split; [exact Hocc|].
  assert (Hfirst : (0 <= indexOf (pre ++ "C"%char :: "\"%char :: rest)
                                 (str "C\" ++ nonSpaceRun rest)
                    <= Z.of_nat (length pre))%Z).
  { unfold indexOf.
    destruct (indexOfFrom_first _ _ _ 0 Hocc) as (i & -> & Hi);
      [rewrite length_app; lia|]. lia. }
  split; [exact Hfirst|].
  assert (HD : indexOf (pre ++ "C"%char :: "\"%char :: rest) (str "D\")
               <> Z.of_nat (length pre)).
  { unfold indexOf.
    destruct (indexOfFrom _ (str "D\") 0) as [i|] eqn:E; [|lia].
    intros Hi. apply Nat2Z.inj in Hi. subst i.
    apply indexOfFrom_occurs in E. rewrite Nat.sub_0_r, skipn_app_length in E.
    cbn in E. discriminate. }
  split; [exact HD|].
  intros Heq. unfold field19Token. rewrite Hc, H2.
  unfold field19Switch. cbn [eqb].
  change (JsString.eqb (str "C") (str "E")) with false.
  change (JsString.eqb (str "C") (str "P")) with false.
  change (JsString.eqb (str "C") (str "R")) with false.
  change (JsString.eqb (str "C") (str "S")) with false.
  change (JsString.eqb (str "C") (str "J")) with false.
  change (JsString.eqb (str "C") (str "D")) with false.
  change (JsString.eqb (str "C") (str "A")) with false.
  change (JsString.eqb (str "C") (str "N")) with false.
  change (JsString.eqb (str "C") (str "C")) with true.
  cbv iota. unfold field19C. rewrite Heq.
  destruct (Z.ltb_spec (indexOf (pre ++ "C"%char :: "\"%char :: rest) (str "D\"))
                       (Z.of_nat (length pre))) as [Hlt|Hge].
  - destruct (Z.gtb_spec (Z.of_nat (length pre))
                (indexOf (pre ++ "C"%char :: "\"%char :: rest) (str "D\")));
      [reflexivity|lia].
  - destruct (Z.gtb_spec (Z.of_nat (length pre))
                (indexOf (pre ++ "C"%char :: "\"%char :: rest) (str "D\")));
      [lia|reflexivity].
Qed.

Lemma field19_C_token_witness :
  let m := {| m_index := 4; m_end := 11; m_text := str "C\SMITH";
              m_caps := [(2, str "SMITH"); (1, str "C")] |} in
  In m (matchAll false field19Re (str "D\2 C\SMITH"))
  /\ groupStr 1 m = str "C"
  /\ indexOf (str "D\2 C\SMITH") (str "C\" ++ groupStr 2 m) = 4%Z
  /\ field19Token (str "D\2 C\SMITH") defaultField19Data m
     = setPilotInCommand (str "SMITH") defaultField19Data.
Proof.
  intros m.
  assert (Hin : In m (matchAll false field19Re (str "D\2 C\SMITH")))
    by (vm_compute; auto).
  assert (Hc : groupStr 1 m = str "C") by reflexivity.
  assert (Hi : indexOf (str "D\2 C\SMITH") (str "C\" ++ groupStr 2 m) = 4%Z)
    by reflexivity.
  split; [exact Hin|]. split; [exact Hc|]. split; [exact Hi|].
  destruct (field19_C_token (str "D\2 C\SMITH") m defaultField19Data Hin Hc)
    as (_ & _ & _ & H).
  rewrite (H Hi). reflexivity.
Defined.

(** Both orders, on whole inputs: a [C\] token after the dinghy token is
    the pilot in command, one before it is the cover flag. *)
Lemma field19_C_both_orders :
  pilotInCommand (parseField19String (str "D\2 C\SMITH")) = str "SMITH"
  /\ dinghiesCover (parseField19String (str "D\2 C\SMITH")) = false
  /\ pilotInCommand (parseField19String (str "C\X D\2")) = []
  /\ dinghiesCover (parseField19String (str "C\X D\2")) = true.
Proof. repeat split; vm_compute; reflexivity. Qed.

(** An input without any [D\]: its [C\] token is not after a dinghy
    token, and it is read as the pilot in command all the same; this is
    how the text that the encoder writes for a pilot without dinghies
    reads back. *)
Lemma field19_C_without_D_counterexample :
  indexOf (str "C\SMITH") (str "D\") = (-1)%Z
  /\ map m_text (matchAll false field19Re (str "C\SMITH")) = [str "C\SMITH"]
  /\ pilotInCommand (parseField19String (str "C\SMITH")) = str "SMITH"
  /\ dinghiesCover (parseField19String (str "C\SMITH")) = false
  /\ buildField19String (setPilotInCommand (str "SMITH")
                           (setRadio false false false defaultField19Data))
     = str "C\SMITH".
Proof. repeat split; vm_compute; reflexivity. Qed.

(** A token whose text also occurs earlier is compared at that earlier
    place: the second [C\A] below stands after the dinghy token and is
    read as the cover flag. *)
Lemma field19_C_repeated_text :
  map m_index (matchAll false field19Re (str "C\A D\1 C\A")) = [0; 4; 8]
  /\ indexOf (str "C\A D\1 C\A") (str "D\") = 4%Z
  /\ indexOf (str "C\A D\1 C\A") (str "C\A") = 0%Z
  /\ pilotInCommand (parseField19String (str "C\A D\1 C\A")) = []
  /\ dinghiesCover (parseField19String (str "C\A D\1 C\A")) = true.
Proof. repeat split; vm_compute; reflexivity. Qed.

End Field19CToken.

(* ===================================================================== *)
(** * Field 19: what the decoder finds in the encoder's output            *)
(* ===================================================================== *)

Section Field19PartsFacts.
Import JsString Regex Field19 Field19Parts.

Lemma map_if {A B : Type} (f : A -> B) (b : bool) (x : A) :
  map f (if b then [x] else []) = if b then [f x] else [].
Proof. destruct b; reflexivity. Qed.

Lemma buildField19String_parts (data : Field19Data) :
  dinghiesEnabled data = true -> dinghiesNumber data <> [] ->
  buildField19String data
  = join (str " ")
      (map partText
           (partsBefore data ++ ("D"%char, dinghyPayload data) :: partsAfter data)).
Proof.
  intros Hen Hnum. unfold buildField19String, partsBefore, partsAfter.
  rewrite Hen. destruct (dinghiesNumber data) as [|n0 num] eqn:En;
    [contradiction|]. cbn [truthy andb].
  rewrite !map_app, !map_if. cbn [map]. rewrite ?map_app, ?map_if.
  unfold partText, dPart, dinghyPayload. cbn [fst snd]. rewrite En.
  rewrite <- !app_assoc. reflexivity.
Qed.

End Field19PartsFacts.

Section Field19Scan.
Import JsString Regex Field19 Field19Parts.

Lemma scan_skip (ci : bool) (r : regex) (u : jsstr) :
  forall (pos : nat) (t : jsstr),
    scan ci r pos (length u) (u ++ t) = scan ci r (pos + length u) 0 t.
Proof.
  induction u as [|x u IH]; intros pos t.
  - cbn [length app]. rewrite Nat.add_0_r. reflexivity.
  - cbn [length app scan]. rewrite IH. f_equal. lia.
Qed.

Lemma afterRun_incl (s : jsstr) (x : ascii) : In x (afterRun s) -> In x s.
Proof.
  induction s as [|c s IH]; cbn; [tauto|].
  destruct (Ascii.eqb c " "); [tauto|]. intros H. right. exact (IH H).
Qed.

(** No token starts inside a text without backslash that is followed by
    something other than a backslash. *)
Lemma scan_plain (u : jsstr) :
  forall (t : jsstr) (pos : nat),
    ~ In "\"%char u ->
    match t with [] => True | x :: _ => x <> "\"%char end ->
    scan false field19Re pos 0 (u ++ t) = scan false field19Re (pos + length u) 0 t.
Proof.
  induction u as [|x u IH]; intros t pos Hu Ht.
  - cbn [length app]. rewrite Nat.add_0_r. reflexivity.
  - cbn [app scan].
    assert (E : matchAt false field19Re pos (x :: u ++ t) = None).
    { destruct (u ++ t) as [|b rest] eqn:Eut; [apply matchAt_field19_one|].
      rewrite matchAt_field19.
      assert (Hb : b <> "\"%char).
      { destruct u as [|y u]; cbn in Eut.
        - subst t. exact Ht.
        - injection Eut as -> _. intros ->. apply Hu. right. left. reflexivity. }
      apply Ascii.eqb_neq in Hb. rewrite Hb, andb_false_r. reflexivity. }
    rewrite E, IH.
    + cbn [length]. f_equal. lia.
    + intros Hin. apply Hu. right. exact Hin.
    + exact Ht.
Qed.

(** Scanning one token of the encoder's output. *)
Lemma scan_part (l : ascii) (payload tail : jsstr) (pos : nat) :
  isUpper l = true -> ~ In "\"%char payload -> tailOK tail ->
  scan false field19Re pos 0 (l :: "\"%char :: payload ++ tail)
  = {| m_index := pos;
       m_end := pos + 2 + length (nonSpaceRun payload);
       m_text := l :: "\"%char :: nonSpaceRun payload;
       m_caps := [(2, nonSpaceRun payload); (1, [l])] |}
    :: scan false field19Re (pos + 2 + length payload) 0 tail.
Proof.
  intros Hl Hp Ht. cbn [scan].
  rewrite matchAt_field19, Hl, Ascii.eqb_refl. cbn [andb m_end].
  rewrite (nonSpaceRun_app payload tail Ht). f_equal.
  replace (pos + 2 + length (nonSpaceRun payload) - pos - 1)
    with (S (length (nonSpaceRun payload))) by lia.
  cbn [scan].
  replace (payload ++ tail)
    with (nonSpaceRun payload ++ (afterRun payload ++ tail))
    by (rewrite app_assoc, <- run_split; reflexivity).
  rewrite scan_skip, scan_plain.
  - f_equal. rewrite (run_split payload) at 3. rewrite length_app. lia.
  - intros Hin. apply Hp. apply afterRun_incl. exact Hin.
  - unfold tailOK in Ht. destruct tail as [|x tail]; [exact I|].
    subst x. discriminate.
Qed.

Lemma scan_space (t : jsstr) (pos : nat) :
  scan false field19Re pos 0 (" "%char :: t) = scan false field19Re (S pos) 0 t.
Proof.
  cbn [scan]. destruct t as [|b rest].
  - rewrite matchAt_field19_one. reflexivity.
  - rewrite matchAt_field19. reflexivity.
Qed.

(** The decoder finds, in the joined tokens, one token per part: its
    letter, and its payload up to the first space. *)
Lemma scan_parts (ps : list (ascii * jsstr)) :
  forall pos : nat,
    Forall okPart ps ->
    map codeValue (scan false field19Re pos 0 (join (str " ") (map partText ps)))
    = map (fun p => ([fst p], nonSpaceRun (snd p))) ps.
Proof.
  induction ps as [|[l payload] ps IH]; intros pos Hok; [reflexivity|].
  apply Forall_cons in Hok as [[Hl Hp] Hok]. cbn [fst snd] in Hl, Hp.
  cbn [map fst snd]. destruct ps as [|q ps].
  - cbn [map join]. unfold partText at 1. cbn [fst snd].
    replace (l :: "\"%char :: payload) with (l :: "\"%char :: payload ++ [])
      by (rewrite app_nil_r; reflexivity).
    rewrite (scan_part l payload [] pos Hl Hp I). reflexivity.
  - change (join (str " ") (partText (l, payload) :: map partText (q :: ps)))
      with (l :: "\"%char :: payload
              ++ " "%char :: join (str " ") (map partText (q :: ps))).
    rewrite (scan_part l payload _ pos Hl Hp) by reflexivity.
    rewrite scan_space. cbn [map]. f_equal. apply IH. exact Hok.
Qed.

End Field19Scan.

Section Field19Decode.
Import JsString Regex Field19 Field19Parts.

(** ** What the switch changes *)

Lemma switch_keeps_capacity (s : jsstr) (d : Field19Data) (c v : jsstr) :
  dinghiesCapacity (field19Switch s d c v) = dinghiesCapacity d
  /\ dinghiesColour (field19Switch s d c v) = dinghiesColour d.
Proof.
  unfold field19Switch, field19C.
  repeat match goal with
         | |- context [if ?b then _ else _] => destruct b
         end; destruct d; split; reflexivity.
Qed.

Lemma switch_keeps_dinghies (s : jsstr) (d : Field19Data) (c v : jsstr) :
  c <> str "D" ->
  dinghiesEnabled (field19Switch s d c v) = dinghiesEnabled d
  /\ dinghiesNumber (field19Switch s d c v) = dinghiesNumber d.
Proof.
  intros Hc. unfold field19Switch.
  destruct (JsString.eqb c (str "D")) eqn:E;
    [apply eqb_true in E; contradiction|].
  unfold field19C.
  repeat match goal with
         | |- context [if ?b then _ else _] => destruct b
         end; destruct d; split; reflexivity.
Qed.

Lemma switch_D (s : jsstr) (d : Field19Data) (v : jsstr) :
  dinghiesEnabled (field19Switch s d (str "D") v) = true
  /\ dinghiesNumber (field19Switch s d (str "D") v) = v.
Proof. destruct d; split; reflexivity. Qed.

Lemma switch_keeps_cover (s : jsstr) (d : Field19Data) (c v : jsstr) :
  (c = str "C" ->
   (indexOf s (str "C\" ++ v) >? indexOf s (str "D\"))%Z = true) ->
  dinghiesCover (field19Switch s d c v) = dinghiesCover d.
Proof.
  intros Hc. unfold field19Switch.
  destruct (JsString.eqb c (str "C")) eqn:E.
  - apply eqb_true in E. unfold field19C. rewrite (Hc E). subst c.
    destruct d; reflexivity.
  - repeat match goal with
           | |- context [if ?b then _ else _] => destruct b
           end; destruct d; reflexivity.
Qed.

Lemma parse_switchAll (s : jsstr) :
  s <> [] ->
  parseField19String s
  = switchAll s (map codeValue (matchAll false field19Re s)) defaultField19Data.
Proof.
  intros Hs. unfold parseField19String, switchAll.
  destruct s; [contradiction|]. cbn [truthy negb].
  generalize defaultField19Data as d.
  induction (matchAll false field19Re (a :: s)) as [|m ms IH]; intros d;
    [reflexivity|]. cbn [map fold_left]. apply IH.
Qed.

Lemma switchAll_cons (s : jsstr) (c v : jsstr) (toks : list (jsstr * jsstr))
  (d : Field19Data) :
  switchAll s ((c, v) :: toks) d = switchAll s toks (field19Switch s d c v).
Proof. reflexivity. Qed.

Lemma switchAll_capacity (s : jsstr) (toks : list (jsstr * jsstr)) :
  forall d : Field19Data,
    dinghiesCapacity (switchAll s toks d) = dinghiesCapacity d
    /\ dinghiesColour (switchAll s toks d) = dinghiesColour d.
Proof.
  induction toks as [|[c v] toks IH]; intros d; [split; reflexivity|].
  rewrite switchAll_cons.
  destruct (IH (field19Switch s d c v)) as [-> ->].
  apply switch_keeps_capacity.
Qed.

Lemma switchAll_dinghies (s : jsstr) (toks : list (jsstr * jsstr)) :
  forall d : Field19Data,
    Forall (fun cv => fst cv <> str "D") toks ->
    dinghiesEnabled (switchAll s toks d) = dinghiesEnabled d
    /\ dinghiesNumber (switchAll s toks d) = dinghiesNumber d.
Proof.
  induction toks as [|[c v] toks IH]; intros d H; [split; reflexivity|].
  apply Forall_cons in H as [Hc H]. cbn [fst] in Hc.
  rewrite switchAll_cons.
  destruct (IH (field19Switch s d c v) H) as [-> ->].
  apply switch_keeps_dinghies. exact Hc.
Qed.

Lemma switchAll_cover (s : jsstr) (toks : list (jsstr * jsstr)) :
  forall d : Field19Data,
    Forall (fun cv => fst cv = str "C" ->
                      (indexOf s (str "C\" ++ snd cv) >? indexOf s (str "D\"))%Z
                      = true) toks ->
    dinghiesCover (switchAll s toks d) = dinghiesCover d.
Proof.
  induction toks as [|[c v] toks IH]; intros d H; [reflexivity|].
  apply Forall_cons in H as [Hc H]. cbn [fst snd] in Hc.
  rewrite switchAll_cons.
  rewrite (IH (field19Switch s d c v) H).
  apply switch_keeps_cover. exact Hc.
Qed.

Lemma switchAll_app (s : jsstr) (t1 t2 : list (jsstr * jsstr)) (d : Field19Data) :
  switchAll s (t1 ++ t2) d = switchAll s t2 (switchAll s t1 d).
Proof. unfold switchAll. apply fold_left_app. Qed.

(** The decoder never assigns the capacity and the colour of the
    dinghies. *)
Lemma parse_never_sets_capacity (s : jsstr) :
  dinghiesCapacity (parseField19String s) = []
  /\ dinghiesColour (parseField19String s) = [].
Proof.
  destruct s as [|x s]; [split; reflexivity|].
  rewrite parse_switchAll by discriminate. apply switchAll_capacity.
Qed.

(** ** Where [C\] and [D\] first occur in the encoder's output *)

Lemma indexOfFrom_plain (c : ascii) (v u : jsstr) :
  forall (t : jsstr) (pos : nat),
    ~ In "\"%char u -> headNot t ->
    indexOfFrom (u ++ t) (c :: "\"%char :: v) pos
    = indexOfFrom t (c :: "\"%char :: v) (pos + length u).
Proof.
  induction u as [|x u IH]; intros t pos Hu Ht.
  - cbn [app length]. rewrite Nat.add_0_r. reflexivity.
  - cbn [app indexOfFrom].
    assert (E : startsWith (x :: u ++ t) (c :: "\"%char :: v) = false).
    { cbn [startsWith]. destruct (u ++ t) as [|b rest] eqn:Eut;
        [apply andb_false_r|].
      assert (Hb : b <> "\"%char).
      { destruct u as [|y u]; cbn in Eut.
        - subst t. exact Ht.
        - injection Eut as -> _. intros ->. apply Hu. right. left. reflexivity. }
      apply not_eq_sym in Hb. apply Ascii.eqb_neq in Hb.
      rewrite Hb. cbn [andb]. apply andb_false_r. }
    rewrite E, IH.
    + cbn [length]. f_equal. lia.
    + intros Hin. apply Hu. right. exact Hin.
    + exact Ht.
Qed.

Lemma length_chunk (p : ascii * jsstr) : length (chunk p) = 3 + length (snd p).
Proof.
  unfold chunk, partText. rewrite length_app. cbn [length str list_ascii_of_string].
  lia.
Qed.

Lemma upper_not_backslash (c : ascii) : isUpper c = true -> c <> "\"%char.
Proof. intros H ->. discriminate. Qed.

Lemma headNot_chunks (ps : list (ascii * jsstr)) (t : jsstr) :
  Forall okPart ps -> headNot t -> headNot (concat (map chunk ps) ++ t).
Proof.
  intros Hok Ht. destruct ps as [|[l payload] ps]; [exact Ht|].
  apply Forall_cons in Hok as [[Hl _] _]. cbn.
  apply upper_not_backslash. exact Hl.
Qed.

(** A search for [c\...] passes over the tokens with another letter. *)
Lemma indexOfFrom_chunks (c : ascii) (v : jsstr) (ps : list (ascii * jsstr)) :
  forall (t : jsstr) (pos : nat),
    isUpper c = true ->
    Forall (fun p => okPart p /\ fst p <> c) ps -> headNot t ->
    indexOfFrom (concat (map chunk ps) ++ t) (c :: "\"%char :: v) pos
    = indexOfFrom t (c :: "\"%char :: v) (pos + length (concat (map chunk ps))).
Proof.
  intros t pos Hc Hps Ht. revert pos.
  induction ps as [|[l payload] ps IH]; intros pos.
  - cbn. rewrite Nat.add_0_r. reflexivity.
  - apply Forall_cons in Hps as [[[Hl Hp] Hne] Hps]. cbn [fst snd] in Hl, Hp, Hne.
    assert (Hok : Forall okPart ps)
      by (eapply Forall_impl; [exact Hps|]; intros ? [? _]; assumption).
    cbn [map concat]. unfold chunk at 1. unfold partText. cbn [fst snd].
    rewrite <- !app_assoc. cbn [app indexOfFrom startsWith].
    assert (E1 : Ascii.eqb c l = false)
      by (apply Ascii.eqb_neq; congruence).
    rewrite E1. cbn [andb].
    assert (E2 : Ascii.eqb c "\" = false)
      by (apply Ascii.eqb_neq, upper_not_backslash; exact Hc).
    rewrite E2. cbn [andb].
    change (payload ++ str " " ++ concat (map chunk ps) ++ t)
      with (payload ++ " "%char :: (concat (map chunk ps) ++ t)).
    replace (payload ++ " "%char :: (concat (map chunk ps) ++ t))
      with ((payload ++ [" "%char]) ++ (concat (map chunk ps) ++ t))
      by (rewrite <- app_assoc; reflexivity).
    rewrite indexOfFrom_plain.
    + rewrite IH by exact Hps. f_equal.
      rewrite !length_app, length_chunk. cbn [length snd]. lia.
    + intros Hin. apply in_app_or in Hin as [Hin|[Hin|[]]];
        [exact (Hp Hin)|discriminate].
    + apply headNot_chunks; assumption.
Qed.

Lemma join_cons2 (sep y z : jsstr) (zs : list jsstr) :
  join sep (y :: z :: zs) = y ++ sep ++ join sep (z :: zs).
Proof. reflexivity. Qed.

Lemma join_first (sep : jsstr) (zs : list jsstr) :
  forall y : jsstr,
    join sep (y :: zs) = y ++ concat (map (fun z => sep ++ z) zs).
Proof.
  induction zs as [|z zs IH]; intros y.
  - cbn. rewrite app_nil_r. reflexivity.
  - rewrite join_cons2, IH. cbn [map concat]. rewrite <- !app_assoc. reflexivity.
Qed.

(** The joined tokens around one of them. *)
Lemma join_around (sep : jsstr) (xs : list jsstr) (y : jsstr) (zs : list jsstr) :
  join sep (xs ++ y :: zs)
  = concat (map (fun x => x ++ sep) xs) ++ y
    ++ concat (map (fun z => sep ++ z) zs).
Proof.
  induction xs as [|x xs IH].
  - cbn [app map concat]. apply join_first.
  - cbn [app map concat]. rewrite <- app_assoc, <- IH.
    destruct xs as [|x' xs]; cbn [app]; rewrite join_cons2, <- app_assoc;
      reflexivity.
Qed.

Lemma join_In (sep : jsstr) (xs : list jsstr) (x : jsstr) :
  In x xs -> exists a b, join sep xs = a ++ x ++ b.
Proof.
  intros H. apply in_split in H as (l1 & l2 & ->).
  rewrite join_around. eauto.
Qed.

(** ** The decoder on joined tokens with one dinghy token *)

Lemma decode_joined (pre post : list (ascii * jsstr)) (payload : jsstr) :
  Forall (fun p => okPart p /\ fst p <> "C"%char /\ fst p <> "D"%char) pre ->
  ~ In "\"%char payload ->
  Forall (fun p => okPart p /\ fst p <> "D"%char) post ->
  let s := join (str " ") (map partText (pre ++ ("D"%char, payload) :: post)) in
  dinghiesEnabled (parseField19String s) = true
  /\ dinghiesNumber (parseField19String s) = nonSpaceRun payload
  /\ dinghiesCover (parseField19String s) = false.
Proof.
  intros Hpre Hpay Hpost s.
  assert (Hokpre : Forall okPart pre)
    by (eapply Forall_impl; [exact Hpre|]; intros ? [? _]; assumption).
  assert (Hokpost : Forall okPart post)
    by (eapply Forall_impl; [exact Hpost|]; intros ? [? _]; assumption).
  assert (Hok : Forall okPart (pre ++ ("D"%char, payload) :: post)).
  { apply Forall_app. split; [exact Hokpre|].
    apply Forall_cons. split; [|exact Hokpost]. split; [reflexivity|exact Hpay]. }
  (* the shape of the text *)
  assert (Hs : s = concat (map chunk pre)
                   ++ ("D"%char :: "\"%char :: payload)
                   ++ concat (map (fun z => str " " ++ z) (map partText post))).
  { unfold s. rewrite map_app. cbn [map]. rewrite join_around.
    rewrite map_map. reflexivity. }
  assert (Hne : s <> []).
  { rewrite Hs. destruct (concat (map chunk pre)); discriminate. }
  (* the first D\ *)
  assert (HD : indexOf s (str "D\") = Z.of_nat (length (concat (map chunk pre)))).
  { unfold indexOf. rewrite Hs.
    change (str "D\") with ("D"%char :: "\"%char :: []).
    rewrite indexOfFrom_chunks.
    - cbn [app indexOfFrom startsWith Ascii.eqb Bool.eqb andb]. reflexivity.
    - reflexivity.
    - eapply Forall_impl; [exact Hpre|]. intros ? (? & _ & ?). split; assumption.
    - cbn. discriminate. }
  (* every C\ token comes later *)
  assert (HC : forall p, In p (pre ++ ("D"%char, payload) :: post) ->
                         fst p = "C"%char ->
                         (indexOf s (str "C\" ++ nonSpaceRun (snd p))
                          >? indexOf s (str "D\"))%Z = true).
  { intros [l pay] Hin Hl. cbn [fst snd] in *. subst l. rewrite HD.
    assert (Hex : exists a b, s = a ++ (str "C\" ++ nonSpaceRun pay) ++ b).
    { destruct (join_In (str " ") (map partText (pre ++ ("D"%char, payload) :: post))
                  (partText ("C"%char, pay))) as (a & b & Hab).
      - apply in_map. exact Hin.
      - exists a, (afterRun pay ++ b). unfold s. rewrite Hab.
        unfold partText. cbn [fst snd]. rewrite (run_split pay) at 1.
        cbn [str list_ascii_of_string app]. rewrite <- !app_assoc. reflexivity. }
    destruct Hex as (a & b & Hab). unfold indexOf.
    destruct (indexOfFrom_app a (str "C\" ++ nonSpaceRun pay) b 0) as [i Hi].
    rewrite <- Hab in Hi. rewrite Hi.
    apply Z.gtb_lt. apply inj_lt.
    rewrite Hs in Hi. change (str "C\" ++ nonSpaceRun pay)
      with ("C"%char :: "\"%char :: nonSpaceRun pay) in Hi.
    rewrite indexOfFrom_chunks in Hi.
    - cbn [app indexOfFrom startsWith] in Hi.
      change (Ascii.eqb "C" "D") with false in Hi. cbn [andb] in Hi.
      change (Ascii.eqb "C" "\") with false in Hi. cbn [andb] in Hi.
      apply indexOfFrom_ge in Hi. lia.
    - reflexivity.
    - eapply Forall_impl; [exact Hpre|]. intros ? (? & ? & _). split; assumption.
    - cbn. discriminate. }
  rewrite (parse_switchAll s Hne). unfold matchAll. unfold s at 2 4 6.
  rewrite (scan_parts _ 0 Hok). rewrite map_app. cbn [map fst snd].
  rewrite switchAll_app, switchAll_cons.
  split; [|split].
  - destruct (switchAll_dinghies s
                (map (fun p => ([fst p], nonSpaceRun (snd p))) post)
                (field19Switch s
                   (switchAll s (map (fun p => ([fst p], nonSpaceRun (snd p))) pre)
                              defaultField19Data)
                   ["D"%char] (nonSpaceRun payload))) as [-> _].
    + apply Forall_map. eapply Forall_impl; [exact Hpost|].
      intros [l pay] [_ Hl]. cbn [fst] in *. intros [= ->]. contradiction.
    + apply (switch_D s).
  - destruct (switchAll_dinghies s
                (map (fun p => ([fst p], nonSpaceRun (snd p))) post)
                (field19Switch s
                   (switchAll s (map (fun p => ([fst p], nonSpaceRun (snd p))) pre)
                              defaultField19Data)
                   ["D"%char] (nonSpaceRun payload))) as [_ ->].
    + apply Forall_map. eapply Forall_impl; [exact Hpost|].
      intros [l pay] [_ Hl]. cbn [fst] in *. intros [= ->]. contradiction.
    + apply (switch_D s).
  - rewrite switchAll_cover.
    + rewrite switch_keeps_cover by discriminate.
      rewrite switchAll_cover; [reflexivity|].
      apply Forall_map. apply Forall_forall. intros p Hin. cbn [fst snd].
      intros [= Hl]. apply HC; [|exact Hl].
      apply in_or_app. left. apply list_elem_of_In. exact Hin.
    + apply Forall_map. apply Forall_forall. intros p Hin. cbn [fst snd].
      intros [= Hl]. apply HC; [|exact Hl].
      apply in_or_app. right. right. apply list_elem_of_In. exact Hin.
Qed.

End Field19Decode.

Section Field19DinghyBlock.
Import JsString Regex Field19 Field19Parts.

Lemma flags_no_backslash (data : Field19Data) :
  ~ In "\"%char (radioFlags data)
  /\ ~ In "\"%char (survivalFlags data)
  /\ ~ In "\"%char (jacketFlags data).
Proof.
  unfold radioFlags, survivalFlags, jacketFlags, flags.
  destruct (radioUhf data), (radioVhf data), (radioElba data),
    (survivalPolar data), (survivalDesert data), (survivalMaritime data),
    (survivalJungle data), (jacketsLight data), (jacketsFluores data),
    (jacketsUhf data), (jacketsVhf data);
    cbn; repeat split; intuition discriminate.
Qed.

Lemma optional_part (P : ascii * jsstr -> Prop) (b : bool) (p : ascii * jsstr) :
  P p -> Forall P (if b then [p] else []).
Proof. intros H. destruct b; repeat constructor. exact H. Qed.

Lemma partsBefore_ok (data : Field19Data) :
  ~ In "\"%char (endurance data) -> ~ In "\"%char (persons data) ->
  Forall (fun p => okPart p /\ fst p <> "C"%char /\ fst p <> "D"%char)
         (partsBefore data).
Proof.
  intros He Hp. destruct (flags_no_backslash data) as (Hr & Hs & Hj).
  unfold partsBefore. repeat (apply Forall_app; split);
    apply optional_part; (split; [split; [reflexivity|assumption]|]);
    split; discriminate.
Qed.

Lemma partsAfter_ok (data : Field19Data) :
  ~ In "\"%char (aircraftColour data) -> ~ In "\"%char (remarks data) ->
  ~ In "\"%char (pilotInCommand data) ->
  Forall (fun p => okPart p /\ fst p <> "D"%char) (partsAfter data).
Proof.
  intros Ha Hr Hp. unfold partsAfter. repeat (apply Forall_app; split);
    apply optional_part; (split; [split; [reflexivity|assumption]|]);
    discriminate.
Qed.

Lemma dinghyPayload_no_backslash (data : Field19Data) :
  ~ In "\"%char (dinghiesNumber data) ->
  ~ In "\"%char (dinghiesCapacity data) ->
  ~ In "\"%char (dinghiesColour data) ->
  ~ In "\"%char (dinghyPayload data).
Proof.
  intros Hn Hc Hl. unfold dinghyPayload. rewrite !in_app_iff.
  intros [H|[H|[H|H]]].
  - exact (Hn H).
  - destruct (truthy (dinghiesCapacity data)); [|destruct H].
    destruct H as [H|H]; [discriminate|exact (Hc H)].
  - destruct (dinghiesCover data); cbn in H; intuition discriminate.
  - destruct (truthy (dinghiesColour data)); [|destruct H].
    destruct H as [H|H]; [discriminate|exact (Hl H)].
Qed.

(** The value the decoder reads from the dinghy token ends at the first
    space: it is the number alone. *)
Lemma dinghyPayload_run (data : Field19Data) :
  ~ In " "%char (dinghiesNumber data) ->
  nonSpaceRun (dinghyPayload data) = dinghiesNumber data.
Proof.
  intros Hn. unfold dinghyPayload. rewrite nonSpaceRun_app.
  - apply nonSpaceRun_all. exact Hn.
  - destruct (truthy (dinghiesCapacity data)); [reflexivity|].
    destruct (dinghiesCover data); [reflexivity|].
    destruct (truthy (dinghiesColour data)); [reflexivity|exact I].
Qed.

(** C10 (as amended). For every Field 19 data with the dinghies enabled,
    a non-empty dinghy number without spaces, one of capacity, cover and
    colour set, and no backslash in its text sub-fields: the encoder
    writes capacity, the cover mark [C] and colour after the number,
    each behind a space, inside the one [D\] token; the decoder ends the
    value of a token at the first space; so decoding the encoder's
    output gives back the dinghy number and the enabled flag, but an
    empty capacity, no cover and an empty colour: not the data that was
    encoded.  The decoder never assigns capacity and colour, whatever
    its input. *)
Theorem field19_dinghy_block (data : Field19Data) :
  dinghiesEnabled data = true ->
  dinghiesNumber data <> [] ->
  ~ In " "%char (dinghiesNumber data) ->
  dinghiesCapacity data <> [] \/ dinghiesCover data = true
  \/ dinghiesColour data <> [] ->
  Forall (fun text => ~ In "\"%char text) (textFields19 data) ->
  (exists a b, buildField19String data = a ++ dPart data ++ b)
  /\ dPart data = str "D\" ++ dinghyPayload data
  /\ nonSpaceRun (dinghyPayload data) = dinghiesNumber data
  /\ dinghiesEnabled (parseField19String (buildField19String data)) = true
  /\ dinghiesNumber (parseField19String (buildField19String data))
     = dinghiesNumber data
  /\ dinghiesCapacity (parseField19String (buildField19String data)) = []
  /\ dinghiesCover (parseField19String (buildField19String data)) = false
  /\ dinghiesColour (parseField19String (buildField19String data)) = []
  /\ parseField19String (buildField19String data) <> data
  /\ forall s : jsstr,
       dinghiesCapacity (parseField19String s) = []
       /\ dinghiesColour (parseField19String s) = [].
Proof.
  intros Hen Hnum Hsp Hset Htext.
  unfold textFields19 in Htext.
  repeat (apply Forall_cons in Htext as [? Htext]).
  assert (Hdec :
    dinghiesEnabled (parseField19String (buildField19String data)) = true
    /\ dinghiesNumber (parseField19String (buildField19String data))
       = nonSpaceRun (dinghyPayload data)
    /\ dinghiesCover (parseField19String (buildField19String data)) = false).
  { rewrite (buildField19String_parts data Hen Hnum).
    apply (decode_joined (partsBefore data) (partsAfter data) (dinghyPayload data)).
    - apply partsBefore_ok; assumption.
    - apply dinghyPayload_no_backslash; assumption.
    - apply partsAfter_ok; assumption. }
  destruct Hdec as (Hd1 & Hd2 & Hd3).
  destruct (parse_never_sets_capacity (buildField19String data)) as [Hcap Hcol].
  pose proof (dinghyPayload_run data Hsp) as Hrun.
  split.
  { rewrite (buildField19String_parts data Hen Hnum).
    apply (join_In (str " ") _ (partText ("D"%char, dinghyPayload data))).
    apply in_map. apply in_or_app. right. left. reflexivity. }
  split; [reflexivity|].
  split; [exact Hrun|]. split; [exact Hd1|].
  split; [rewrite Hd2; exact Hrun|].
  split; [exact Hcap|]. split; [exact Hd3|]. split; [exact Hcol|].
  split; [|exact parse_never_sets_capacity].
  intros Heq. rewrite Heq in Hcap, Hd3, Hcol.
  destruct Hset as [Hc|[Hc|Hc]]; congruence.
Qed.

Lemma field19_dinghy_block_witness :
  let data := setDinghiesCover true
                (setDinghies true (str "2") defaultField19Data) in
  dinghiesEnabled data = true
  /\ buildField19String data = str "R\VE D\2 C"
  /\ dinghiesNumber (parseField19String (buildField19String data)) = str "2"
  /\ dinghiesCover (parseField19String (buildField19String data)) = false.
Proof.
  intros data.
  assert (Hen : dinghiesEnabled data = true) by reflexivity.
  assert (Hnum : dinghiesNumber data <> []) by discriminate.
  assert (Hsp : ~ In " "%char (dinghiesNumber data))
    by (cbn; intuition discriminate).
  assert (Hset : dinghiesCapacity data <> [] \/ dinghiesCover data = true
                 \/ dinghiesColour data <> [])
    by (right; left; reflexivity).
  assert (Htext : Forall (fun text => ~ In "\"%char text) (textFields19 data))
    by (repeat constructor; cbn; intuition discriminate).
  destruct (field19_dinghy_block data Hen Hnum Hsp Hset Htext)
    as (_ & _ & _ & _ & Hn & _ & Hc & _).
  split; [exact Hen|]. split; [reflexivity|]. split; [exact Hn|exact Hc].
Defined.

(** With a space and a token-like text in the persons sub-field, which
    the form accepts, the decoder reads a cover flag from the encoder's
    output although the dinghy block carries none. *)
Lemma field19_dinghy_block_counterexample :
  let data :=
    {| endurance := []; persons := str " C\";
       radioUhf := false; radioVhf := false; radioElba := false;
       survivalPolar := false; survivalDesert := false;
       survivalMaritime := false; survivalJungle := false;
       jacketsLight := false; jacketsFluores := false;
       jacketsUhf := false; jacketsVhf := false;
       dinghiesEnabled := true; dinghiesNumber := str "2";
       dinghiesCapacity := str "10"; dinghiesCover := false;
       dinghiesColour := []; aircraftColour := [];
       remarks := []; pilotInCommand := [] |} in
  dinghiesEnabled data = true
  /\ dinghiesNumber data = str "2"
  /\ dinghiesCapacity data = str "10"
  /\ buildField19String data = str "P\ C\ D\2 10"
  /\ dinghiesCover (parseField19String (buildField19String data)) = true.
Proof. cbv zeta. repeat split; vm_compute; reflexivity. Qed.

End Field19DinghyBlock.


(* ===================================================================== *)
(** * The session store: pending logins, activation, logout, the sweep    *)
(* ===================================================================== *)

Section SessionStoreLifecycle.
Import SessionStore.

Lemma getPendingLogin_absent (now : Z) (sessionId : jsstr) (st : Store) :
  pendingLogins st !! sessionId = None ->
  getPendingLogin now sessionId st = (None, st).
Proof. intros H. unfold getPendingLogin. rewrite H. reflexivity. Qed.

Lemma getSession_absent (nowCheck nowExtend : Z) (sessionId : jsstr) (st : Store) :
  sessions st !! sessionId = None ->
  getSession nowCheck nowExtend sessionId st = (None, st).
Proof. intros H. unfold getSession. rewrite H. reflexivity. Qed.

(** X1. A pending login that was just created is returned, unchanged
    and without any change to the store (reading does not prolong it), by
    every read up to five minutes after its creation; the first read
    later than that returns not-found and removes it, and so does every
    read after that one.  Creating a pending login creates no session. *)
Theorem pendingLogin_lifetime (sessionId cookies token : jsstr) (created : Z)
  (st : Store) :
  let st1 := snd (createPendingLogin sessionId created cookies token st) in
  let pending := {| pendingCookies := cookies; pendingToken := token;
                    createdAt := created |} in
  fst (createPendingLogin sessionId created cookies token st) = sessionId
  /\ sessions st1 = sessions st
  /\ (forall now : Z,
        (now - created <= PENDING_TIMEOUT)%Z ->
        getPendingLogin now sessionId st1 = (Some pending, st1))
  /\ (forall now : Z,
        (now - created > PENDING_TIMEOUT)%Z ->
        fst (getPendingLogin now sessionId st1) = None
        /\ pendingLogins (snd (getPendingLogin now sessionId st1)) !! sessionId
           = None
        /\ forall later : Z,
             fst (getPendingLogin later sessionId
                    (snd (getPendingLogin now sessionId st1))) = None).
Proof.
  cbv zeta. cbn [createPendingLogin fst snd].
  split; [reflexivity|]. split; [reflexivity|].
  split.
  - intros now Hle. unfold getPendingLogin. cbn [pendingLogins].
    rewrite lookup_insert_eq. cbn [createdAt].
    destruct (Z.gtb_spec (now - created) PENDING_TIMEOUT) as [Hgt|_]; [lia|].
    reflexivity.
  - intros now Hgt.
    assert (E : getPendingLogin now sessionId
                  {| sessions := sessions st;
                     pendingLogins :=
                       <[sessionId := {| pendingCookies := cookies;
                                         pendingToken := token;
                                         createdAt := created |}]>
                         (pendingLogins st) |}
                = (None,
                   {| sessions := sessions st;
                      pendingLogins :=
                        delete sessionId
                          (<[sessionId := {| pendingCookies := cookies;
                                             pendingToken := token;
                                             createdAt := created |}]>
                             (pendingLogins st)) |})).
    { unfold getPendingLogin. cbn [pendingLogins sessions].
      rewrite lookup_insert_eq. cbn [createdAt].
      destruct (Z.gtb_spec (now - created) PENDING_TIMEOUT) as [_|Hle]; [|lia].
      reflexivity. }
    rewrite E. cbn [fst snd pendingLogins].
    split; [reflexivity|]. split; [apply lookup_delete_eq|].
    intros later. rewrite getPendingLogin_absent; [reflexivity|].
    cbn [pendingLogins]. apply lookup_delete_eq.
Qed.

(** X2. Activation answers true and needs no pending login.  After it
    the pending login of that id is gone for good, and the session
    carries the cookies, token and session handle that were given: a read
    up to thirty minutes after the activation returns them (with the
    expiry moved to thirty minutes after the read), a first read later
    than that returns not-found.  A session that the id already had is
    replaced. *)
Theorem activateSession_opens_session (sessionId cookies token userSession : jsstr)
  (activated : Z) (st : Store) :
  let st1 := snd (activateSession activated sessionId cookies token
                                  userSession st) in
  fst (activateSession activated sessionId cookies token userSession st) = true
  /\ (forall now : Z, getPendingLogin now sessionId st1 = (None, st1))
  /\ sessions st1 !! sessionId
     = Some {| SessionStore.cookies := cookies; SessionStore.token := token;
               SessionStore.userSession := userSession;
               expiresAt := (activated + SESSION_TIMEOUT)%Z |}
  /\ (forall nowCheck nowExtend : Z,
        (nowCheck <= activated + SESSION_TIMEOUT)%Z ->
        fst (getSession nowCheck nowExtend sessionId st1)
        = Some {| SessionStore.cookies := cookies; SessionStore.token := token;
                  SessionStore.userSession := userSession;
                  expiresAt := (nowExtend + SESSION_TIMEOUT)%Z |})
  /\ (forall nowCheck nowExtend : Z,
        (nowCheck > activated + SESSION_TIMEOUT)%Z ->
        fst (getSession nowCheck nowExtend sessionId st1) = None).
Proof.
  cbv zeta. cbn [activateSession fst snd].
  split; [reflexivity|].
  split.
  { intros now. apply getPendingLogin_absent. cbn [pendingLogins].
    apply lookup_delete_eq. }
  split; [cbn [sessions]; apply lookup_insert_eq|].
  split.
  - intros nowCheck nowExtend Hle.
    match goal with
    | |- fst (getSession _ _ _ ?st1) = _ =>
        assert (Hs : sessions st1 !! sessionId
                     = Some {| SessionStore.cookies := cookies;
                               SessionStore.token := token;
                               SessionStore.userSession := userSession;
                               expiresAt := (activated + SESSION_TIMEOUT)%Z |})
          by (cbn [sessions]; apply lookup_insert_eq);
        rewrite (getSession_live nowCheck nowExtend sessionId st1 _ Hs Hle)
    end.
    reflexivity.
  - intros nowCheck nowExtend Hgt.
    match goal with
    | |- fst (getSession _ _ _ ?st1) = _ =>
        assert (Hs : sessions st1 !! sessionId
                     = Some {| SessionStore.cookies := cookies;
                               SessionStore.token := token;
                               SessionStore.userSession := userSession;
                               expiresAt := (activated + SESSION_TIMEOUT)%Z |})
          by (cbn [sessions]; apply lookup_insert_eq);
        exact (proj1 (getSession_expired nowCheck nowExtend sessionId st1 _
                        Hs Hgt))
    end.
Qed.

(** X3. After [deleteSession] the id has neither a session nor a pending
    login: every read of either kind returns not-found, whatever the
    clock, and leaves the store as it is.  Deleting an id that the store
    does not hold changes nothing that a lookup can see. *)
Theorem deleteSession_forgets (sessionId : jsstr) (st : Store) :
  let st1 := deleteSession sessionId st in
  (forall nowCheck nowExtend : Z,
      getSession nowCheck nowExtend sessionId st1 = (None, st1))
  /\ (forall now : Z, getPendingLogin now sessionId st1 = (None, st1))
  /\ (forall now : Z, sessions (cleanup now st1) !! sessionId = None)
  /\ (forall other : jsstr,
        sessions st !! sessionId = None ->
        pendingLogins st !! sessionId = None ->
        sessions st1 !! other = sessions st !! other
        /\ pendingLogins st1 !! other = pendingLogins st !! other).
Proof.
  cbv zeta. unfold deleteSession.
  split.
  { intros nowCheck nowExtend. apply getSession_absent. cbn [sessions].
    apply lookup_delete_eq. }
  split.
  { intros now. apply getPendingLogin_absent. cbn [pendingLogins].
    apply lookup_delete_eq. }
  split.
  { intros now. unfold cleanup. cbn [sessions].
    apply map_lookup_filter_None. left. apply lookup_delete_eq. }
  intros other Hs Hp. cbn [sessions pendingLogins].
  destruct (decide (sessionId = other)) as [<-|Hne].
  - rewrite !lookup_delete_eq, Hs, Hp. split; reflexivity.
  - rewrite !lookup_delete_ne by exact Hne. split; reflexivity.
Qed.

(** X4. No operation on one id touches another id: what the store
    holds for [other], as a session and as a pending login, is the same
    before and after creating a pending login for [sessionId], reading
    it, activating it, reading its session or deleting it. *)
Theorem operations_leave_other_ids (sessionId other : jsstr) (st : Store)
  (now now' : Z) (cookies token userSession : jsstr) :
  sessionId <> other ->
  let same (st1 : Store) :=
    sessions st1 !! other = sessions st !! other
    /\ pendingLogins st1 !! other = pendingLogins st !! other in
  same (snd (createPendingLogin sessionId now cookies token st))
  /\ same (snd (getPendingLogin now sessionId st))
  /\ same (snd (activateSession now sessionId cookies token userSession st))
  /\ same (snd (getSession now now' sessionId st))
  /\ same (deleteSession sessionId st).
Proof.
  intros Hne. cbv zeta.
  split.
  { cbn [createPendingLogin snd sessions pendingLogins].
    rewrite lookup_insert_ne by exact Hne. split; reflexivity. }
  split.
  { unfold getPendingLogin.
    destruct (pendingLogins st !! sessionId) as [pending|];
      [|split; reflexivity].
    destruct (now - createdAt pending >? PENDING_TIMEOUT)%Z;
      cbn [snd sessions pendingLogins]; [|split; reflexivity].
    rewrite lookup_delete_ne by exact Hne. split; reflexivity. }
  split.
  { cbn [activateSession snd sessions pendingLogins].
    rewrite lookup_insert_ne, lookup_delete_ne by exact Hne.
    split; reflexivity. }
  split.
  { unfold getSession.
    destruct (sessions st !! sessionId) as [session|]; [|split; reflexivity].
    destruct (now >? expiresAt session)%Z; cbn [snd sessions pendingLogins].
    - rewrite lookup_delete_ne by exact Hne. split; reflexivity.
    - rewrite lookup_insert_ne by exact Hne. split; reflexivity. }
  unfold deleteSession. cbn [sessions pendingLogins].
  rewrite !lookup_delete_ne by exact Hne. split; reflexivity.
Qed.

Lemma operations_leave_other_ids_witness :
  let st := snd (activateSession 0 (str "b") (str "c=1") (str "t") (str "u")
                                 emptyStore) in
  str "a" <> str "b"
  /\ sessions (deleteSession (str "a") st) !! str "b" = sessions st !! str "b"
  /\ sessions (snd (getSession 5 5 (str "a") st)) !! str "b"
     = sessions st !! str "b".
Proof.
  intros st.
  assert (Hne : str "a" <> str "b") by discriminate.
  destruct (operations_leave_other_ids (str "a") (str "b") st 5 5
              (str "x") (str "y") (str "z") Hne)
    as (_ & _ & _ & Hget & Hdel).
  split; [exact Hne|]. split; [exact (proj1 Hdel)|exact (proj1 Hget)].
Defined.

Lemma cleanup_session_iff (now : Z) (sessionId : jsstr) (st : Store)
  (session : HomebriefingSession) :
  sessions (cleanup now st) !! sessionId = Some session
  <-> sessions st !! sessionId = Some session /\ (now <= expiresAt session)%Z.
Proof.
  unfold cleanup. cbn [sessions].
  rewrite map_lookup_filter_Some. cbn [snd]. intuition lia.
Qed.

Lemma cleanup_pending_iff (now : Z) (sessionId : jsstr) (st : Store)
  (pending : PendingLogin) :
  pendingLogins (cleanup now st) !! sessionId = Some pending
  <-> pendingLogins st !! sessionId = Some pending
      /\ (now - createdAt pending <= PENDING_TIMEOUT)%Z.
Proof.
  unfold cleanup. cbn [pendingLogins].
  rewrite map_lookup_filter_Some. cbn [snd]. intuition lia.
Qed.

(** X5. The sweep removes exactly the entries that are past their time,
    and no read can tell whether it ran: for a clock that does not run
    backwards (the read comes no earlier than the sweep), [getSession]
    and [getPendingLogin] return the same after a sweep as without it. *)
Theorem cleanup_unobservable (now : Z) (sessionId : jsstr) (st : Store) :
  (forall session : HomebriefingSession,
      sessions (cleanup now st) !! sessionId = Some session
      <-> sessions st !! sessionId = Some session
          /\ (now <= expiresAt session)%Z)
  /\ (forall pending : PendingLogin,
        pendingLogins (cleanup now st) !! sessionId = Some pending
        <-> pendingLogins st !! sessionId = Some pending
            /\ (now - createdAt pending <= PENDING_TIMEOUT)%Z)
  /\ (forall nowCheck nowExtend : Z,
        (now <= nowCheck)%Z ->
        fst (getSession nowCheck nowExtend sessionId (cleanup now st))
        = fst (getSession nowCheck nowExtend sessionId st))
  /\ (forall later : Z,
        (now <= later)%Z ->
        fst (getPendingLogin later sessionId (cleanup now st))
        = fst (getPendingLogin later sessionId st)).
Proof.
  split; [apply cleanup_session_iff|]. split; [apply cleanup_pending_iff|].
  split.
  - intros nowCheck nowExtend Hle. unfold getSession.
    destruct (sessions (cleanup now st) !! sessionId) as [s'|] eqn:E'.
    + apply cleanup_session_iff in E' as [E _]. rewrite E.
      destruct (nowCheck >? expiresAt s')%Z; reflexivity.
    + destruct (sessions st !! sessionId) as [session|] eqn:E; [|reflexivity].
      destruct (Z.gtb_spec nowCheck (expiresAt session)) as [_|Hok];
        [reflexivity|].
      assert (H : sessions (cleanup now st) !! sessionId = Some session)
        by (apply cleanup_session_iff; split; [exact E|lia]).
      rewrite H in E'. discriminate.
  - intros later Hle. unfold getPendingLogin.
    destruct (pendingLogins (cleanup now st) !! sessionId) as [p'|] eqn:E'.
    + apply cleanup_pending_iff in E' as [E _]. rewrite E.
      destruct (later - createdAt p' >? PENDING_TIMEOUT)%Z; reflexivity.
    + destruct (pendingLogins st !! sessionId) as [pending|] eqn:E;
        [|reflexivity].
      destruct (Z.gtb_spec (later - createdAt pending) PENDING_TIMEOUT)
        as [_|Hok]; [reflexivity|].
      assert (H : pendingLogins (cleanup now st) !! sessionId = Some pending)
        by (apply cleanup_pending_iff; split; [exact E|lia]).
      rewrite H in E'. discriminate.
Qed.

End SessionStoreLifecycle.

(* ===================================================================== *)
(** * More facts about the matcher: captures and completeness             *)
(* ===================================================================== *)

Section RegexCompleteness.
Import JsString Regex RegexGroups.

(** What the matcher returns was returned by its continuation after a
    text of the pattern's language, and every capture that the
    continuation sees was there before or is a text of the language of
    a group of the pattern with that number. *)
Lemma run_sound_caps (ci : bool) (r : regex) :
  forall (A : Type) (pos : nat) (s : jsstr) (cs : caps) (k : cont A) (a : A),
    run ci r A pos s cs k = Some a ->
    exists w s' cs',
      s = w ++ s' /\ lang ci r w /\ k (pos + length w) s' cs' = Some a
      /\ forall n v, capture n cs' = Some v ->
           capture n cs = Some v
           \/ exists r1, In (n, r1) (groupsOf r) /\ lang ci r1 v.
Proof.
  induction r as [ | c | | items | items | r1 IH1 r2 IH2 | r1 IH1 r2 IH2
                 | r1 IH1 | r1 IH1 | n r1 IH1 | r1 IH1 | | ];
    intros A pos s cs k a H; cbn [run] in H; cbn [groupsOf].
  - exists [], s, cs. rewrite Nat.add_0_r.
    repeat split; [constructor|exact H|auto].
  - destruct s as [|x s']; [discriminate|].
    destruct (chrMatches ci c x) eqn:E; [|discriminate].
    exists [x], s', cs. rewrite Nat.add_1_r.
    repeat split; [constructor; exact E|exact H|auto].
  - destruct s as [|x s']; [discriminate|].
    destruct (isLineTerminator x) eqn:E; [discriminate|].
    exists [x], s', cs. rewrite Nat.add_1_r.
    repeat split; [constructor; exact E|exact H|auto].
  - destruct s as [|x s']; [discriminate|].
    destruct (setMatches ci items x) eqn:E; [|discriminate].
    exists [x], s', cs. rewrite Nat.add_1_r.
    repeat split; [constructor; exact E|exact H|auto].
  - destruct s as [|x s']; [discriminate|].
    destruct (setMatches ci items x) eqn:E; [discriminate|].
    exists [x], s', cs. rewrite Nat.add_1_r.
    repeat split; [constructor; exact E|exact H|auto].
  - apply IH1 in H as (w1 & s1 & cs1 & -> & L1 & H & K1).
    apply IH2 in H as (w2 & s2 & cs2 & -> & L2 & H & K2).
    exists (w1 ++ w2), s2, cs2.
    rewrite length_app, Nat.add_assoc, <- app_assoc.
    repeat split; [constructor; assumption|exact H|].
    intros n v Hn. apply K2 in Hn as [Hn|(r' & Hin & L)].
    + apply K1 in Hn as [Hn|(r' & Hin & L)]; [left; exact Hn|].
      right. exists r'. split; [apply in_or_app; left; exact Hin|exact L].
    + right. exists r'. split; [apply in_or_app; right; exact Hin|exact L].
  - destruct (run ci r1 A pos s cs k) eqn:E.
    + injection H as ->. apply IH1 in E as (w & s' & cs' & -> & L & E' & K1).
      exists w, s', cs'. repeat split; [apply L_AltL; exact L|exact E'|].
      intros n v Hn. apply K1 in Hn as [Hn|(r' & Hin & L')]; [left; exact Hn|].
      right. exists r'. split; [apply in_or_app; left; exact Hin|exact L'].
    + apply IH2 in H as (w & s' & cs' & -> & L & E' & K1).
      exists w, s', cs'. repeat split; [apply L_AltR; exact L|exact E'|].
      intros n v Hn. apply K1 in Hn as [Hn|(r' & Hin & L')]; [left; exact Hn|].
      right. exists r'. split; [apply in_or_app; right; exact Hin|exact L'].
  - revert H. generalize (S (length s)) as fuel. intros fuel.
    revert pos s cs. induction fuel as [|fuel IHf]; intros pos s cs H;
      cbn [iterate] in H; [discriminate|].
    match type of H with
    | match ?b with _ => _ end = _ => destruct b eqn:E
    end.
    + injection H as ->.
      apply IH1 in E as (w1 & s1 & cs1 & -> & L1 & E1 & K1).
      destruct (length s1 <? length (w1 ++ s1)); [|discriminate].
      apply IHf in E1 as (w2 & s2 & cs2 & -> & L2 & E2 & K2).
      exists (w1 ++ w2), s2, cs2.
      rewrite length_app, Nat.add_assoc, <- app_assoc.
      repeat split; [apply L_StarCons; assumption|exact E2|].
      intros n v Hn. apply K2 in Hn as [Hn|Hn]; [|right; exact Hn].
      apply K1 in Hn. exact Hn.
    + exists [], s, cs. rewrite Nat.add_0_r.
      repeat split; [apply L_StarNil|exact H|auto].
  - revert H. generalize (S (length s)) as fuel. intros fuel.
    revert pos s cs. induction fuel as [|fuel IHf]; intros pos s cs H;
      cbn [iterate] in H; [discriminate|].
    destruct (k pos s cs) eqn:Ek.
    + injection H as ->. exists [], s, cs. rewrite Nat.add_0_r.
      repeat split; [apply L_LazyNil|exact Ek|auto].
    + apply IH1 in H as (w1 & s1 & cs1 & -> & L1 & E1 & K1).
      destruct (length s1 <? length (w1 ++ s1)); [|discriminate].
      apply IHf in E1 as (w2 & s2 & cs2 & -> & L2 & E2 & K2).
      exists (w1 ++ w2), s2, cs2.
      rewrite length_app, Nat.add_assoc, <- app_assoc.
      repeat split; [apply L_LazyCons; assumption|exact E2|].
      intros n v Hn. apply K2 in Hn as [Hn|Hn]; [|right; exact Hn].
      apply K1 in Hn. exact Hn.
  - apply IH1 in H as (w & s' & cs' & -> & L & H & K1).
    replace (pos + length w - pos) with (length w) in H by lia.
    rewrite firstn_app, Nat.sub_diag, firstn_all in H.
    cbn [firstn] in H. rewrite app_nil_r in H.
    eexists w, s', _. repeat split; [constructor; exact L|exact H|].
    intros m v Hm. cbn [capture] in Hm.
    destruct (Nat.eqb_spec m n) as [->|Hne].
    + injection Hm as <-. right. exists r1. split; [left; reflexivity|exact L].
    + apply K1 in Hm as [Hm|(r' & Hin & L')]; [left; exact Hm|].
      right. exists r'. split; [right; exact Hin|exact L'].
  - destruct (run ci r1 caps pos s cs (fun _ _ cs' => Some cs')) as [cs1|] eqn:E;
      [|discriminate].
    apply IH1 in E as (w & s' & cs' & _ & _ & E' & K1). injection E' as ->.
    exists [], s, cs1. rewrite Nat.add_0_r.
    repeat split; [constructor|exact H|exact K1].
  - destruct (pos =? 0); [|discriminate].
    exists [], s, cs. rewrite Nat.add_0_r.
    repeat split; [constructor|exact H|auto].
  - destruct s; [|discriminate].
    exists [], [], cs. rewrite Nat.add_0_r.
    repeat split; [constructor|exact H|auto].
Qed.

(** A capture of a match that [exec] returns is a text of the language
    of a group of the pattern. *)
Lemma exec_group_lang (ci : bool) (r : regex) (s : jsstr) (m : mres)
  (n : nat) (v : jsstr) :
  exec ci r s = Some m -> group n m = Some v ->
  exists r1, In (n, r1) (groupsOf r) /\ lang ci r1 v.
Proof.
  unfold exec. intros H Hv.
  apply search_sound in H as (pre & t & _ & H). unfold matchAt in H.
  apply run_sound_caps in H as (w & s' & cs' & _ & _ & H & K).
  injection H as <-. unfold group in Hv. cbn [m_caps] in Hv.
  apply K in Hv as [Hv|Hv]; [discriminate|exact Hv].
Qed.

Lemma scan_group_lang (ci : bool) (r : regex) (m : mres) (n : nat) (v : jsstr) :
  forall (s : jsstr) (pos skip : nat),
    In m (scan ci r pos skip s) -> group n m = Some v ->
    exists r1, In (n, r1) (groupsOf r) /\ lang ci r1 v.
Proof.
  intros s pos skip Hin Hv.
  apply scan_sound in Hin as (pre & t & _ & H). unfold matchAt in H.
  apply run_sound_caps in H as (w & s' & cs' & _ & _ & H & K).
  injection H as <-. unfold group in Hv. cbn [m_caps] in Hv.
  apply K in Hv as [Hv|Hv]; [discriminate|exact Hv].
Qed.

(** For a pattern without anchors and lookaheads the matcher finds a
    way through every text of the pattern's language, provided what
    follows the pattern accepts whatever was captured. *)
Lemma run_complete (ci : bool) (r : regex) (w : jsstr) :
  lang ci r w ->
  anchorFree r = true ->
  forall (A : Type) (pos : nat) (s' : jsstr) (cs : caps) (k : cont A),
    (forall cs', is_Some (k (pos + length w) s' cs')) ->
    is_Some (run ci r A pos (w ++ s') cs k).
Proof.
  induction 1 as [ | c x Hx | x Hx | items x Hx | items x Hx
                 | r1 r2 w1 w2 L1 IH1 L2 IH2 | r1 r2 w L IH | r1 r2 w L IH
                 | r | r w1 w2 L1 IH1 L2 IH2 | r | r w1 w2 L1 IH1 L2 IH2
                 | n r w L IH | r | | ];
    intros Haf A pos s' cs k Hk; cbn [anchorFree] in Haf;
    try discriminate.
  - cbn [run app]. rewrite Nat.add_0_r in Hk. apply Hk.
  - cbn [run app]. rewrite Hx. rewrite Nat.add_1_r in Hk. apply Hk.
  - cbn [run app]. rewrite Hx. rewrite Nat.add_1_r in Hk. apply Hk.
  - cbn [run app]. rewrite Hx. rewrite Nat.add_1_r in Hk. apply Hk.
  - cbn [run app]. rewrite Hx. rewrite Nat.add_1_r in Hk. apply Hk.
  - apply andb_prop in Haf as [Ha1 Ha2]. cbn [run]. rewrite <- app_assoc.
    apply (IH1 Ha1). intros cs'. apply (IH2 Ha2). intros cs''.
    rewrite length_app, Nat.add_assoc in Hk. apply Hk.
  - apply andb_prop in Haf as [Ha1 Ha2]. cbn [run].
    destruct (IH Ha1 A pos s' cs k Hk) as [a ->]. eauto.
  - apply andb_prop in Haf as [Ha1 Ha2]. cbn [run].
    destruct (run ci r1 A pos (w ++ s') cs k); [eauto|].
    apply (IH Ha2). exact Hk.
  - rewrite run_Star_unfold. cbn [app].
    match goal with
    | |- is_Some (match ?b with _ => _ end) => destruct b; [eauto|]
    end.
    rewrite Nat.add_0_r in Hk. apply Hk.
  - destruct w1 as [|x w1].
    { cbn [app]. apply (IH2 Haf). exact Hk. }
    rewrite run_Star_unfold.
    assert (Hs : is_Some
      (run ci r A pos (((x :: w1) ++ w2) ++ s') cs
         (fun pos' s'' cs' =>
            if length s'' <? length (((x :: w1) ++ w2) ++ s')
            then run ci (Star r) A pos' s'' cs' k else None))).
    { rewrite <- app_assoc. apply (IH1 Haf). intros cs'.
      assert (Hlt : (length (w2 ++ s') <? length ((x :: w1) ++ w2 ++ s')) = true)
        by (apply Nat.ltb_lt; rewrite !length_app; cbn; lia).
      rewrite Hlt. apply (IH2 Haf). intros cs''.
      rewrite length_app, Nat.add_assoc in Hk. apply Hk. }
    destruct Hs as [a ->]. eauto.
  - rewrite run_LazyStar_unfold. cbn [app]. rewrite Nat.add_0_r in Hk.
    destruct (Hk cs) as [a ->]. eauto.
  - destruct w1 as [|x w1].
    { cbn [app]. apply (IH2 Haf). exact Hk. }
    rewrite run_LazyStar_unfold.
    match goal with
    | |- is_Some (match ?b with _ => _ end) => destruct b; [eauto|]
    end.
    rewrite <- app_assoc. apply (IH1 Haf). intros cs'.
    assert (Hlt : (length (w2 ++ s') <? length ((x :: w1) ++ w2 ++ s')) = true)
      by (apply Nat.ltb_lt; rewrite !length_app; cbn; lia).
    rewrite Hlt. apply (IH2 Haf). intros cs''.
    rewrite length_app, Nat.add_assoc in Hk. apply Hk.
  - cbn [run]. apply (IH Haf). intros cs'. apply Hk.
Qed.

(** Hence, for such a pattern, [test] says exactly whether the input
    holds a text of the pattern's language. *)
Lemma test_iff_lang (ci : bool) (r : regex) (s : jsstr) :
  anchorFree r = true ->
  test ci r s = true <-> exists a w b, s = a ++ w ++ b /\ lang ci r w.
Proof.
  intros Haf. unfold test, exec. split.
  - destruct (search ci r 0 s) as [m|] eqn:E; [|discriminate]. intros _.
    apply search_sound in E as (pre & t & -> & E).
    apply matchAt_sound in E as (w & s' & -> & L & _).
    exists pre, w, s'. split; [reflexivity|exact L].
  - intros (a & w & b & -> & L).
    assert (H : is_Some (search ci r 0 (a ++ w ++ b))).
    { apply search_complete. unfold matchAt.
      apply (run_complete ci r w L Haf). intros cs'. eauto. }
    destruct H as [m ->]. reflexivity.
Qed.

Lemma groupsOf_Lit (l : jsstr) : groupsOf (Lit l) = [].
Proof. induction l as [|c l IH]; [reflexivity|exact IH]. Qed.

Lemma anchorFree_Lit (l : jsstr) : anchorFree (Lit l) = true.
Proof. induction l as [|c l IH]; [reflexivity|exact IH]. Qed.

(** The language of a literal: the texts equal to it up to case (under
    the [i] flag), or the literal itself. *)
Lemma lang_Lit_ci (l w : jsstr) : lang true (Lit l) w <-> sameText l w.
Proof.
  revert w. induction l as [|c l IH]; intros w; cbn [Lit fold_right].
  - split.
    + intros H. inversion H; subst. constructor.
    + intros H. inversion H; subst. constructor.
  - fold (Lit l). split.
    + intros H. inversion H as [ | | | | | ? ? w1 w2 H1 H2 | | | | | | | | | | ];
        subst.
      inversion H1; subst. cbn [app]. constructor; [assumption|].
      apply IH. exact H2.
    + intros H. inversion H as [|? y ? w' Hy Hw]; subst.
      change (y :: w') with ([y] ++ w'). constructor.
      * constructor. exact Hy.
      * apply IH. exact Hw.
Qed.

Lemma lang_Lit_cs (l w : jsstr) : lang false (Lit l) w <-> w = l.
Proof.
  revert w. induction l as [|c l IH]; intros w; cbn [Lit fold_right].
  - split.
    + intros H. inversion H; subst. reflexivity.
    + intros ->. constructor.
  - fold (Lit l). split.
    + intros H. inversion H as [ | | | | | ? ? w1 w2 H1 H2 | | | | | | | | | | ];
        subst.
      inversion H1 as [ | ? x Hx | | | | | | | | | | | | | | ]; subst.
      cbn [app]. unfold chrMatches in Hx. apply Ascii.eqb_eq in Hx. subst x.
      f_equal. apply IH. exact H2.
    + intros ->. change (c :: l) with ([c] ++ l). constructor.
      * constructor. unfold chrMatches. apply Ascii.eqb_refl.
      * apply IH. reflexivity.
Qed.

(** The language of a starred character class. *)
Lemma lang_Star_NoneOf (ci : bool) (items : list citem) (w : jsstr) :
  lang ci (Star (NoneOf items)) w
  <-> Forall (fun x => setMatches ci items x = false) w.
Proof.
  split.
  - intros H. remember (Star (NoneOf items)) as r eqn:Er.
    induction H as [ | | | | | | | | r | r w1 w2 L1 _ L2 IH2 | | | | | | ];
      try discriminate.
    + constructor.
    + injection Er as ->. apply Forall_app. split; [|apply IH2; reflexivity].
      inversion L1; subst. constructor; [assumption|constructor].
  - induction 1 as [|x w Hx Hw IH]; [apply L_StarNil|].
    change (x :: w) with ([x] ++ w). apply L_StarCons; [|exact IH].
    constructor. exact Hx.
Qed.

Lemma lang_Star_OneOf (ci : bool) (items : list citem) (w : jsstr) :
  lang ci (Star (OneOf items)) w
  <-> Forall (fun x => setMatches ci items x = true) w.
Proof.
  split.
  - intros H. remember (Star (OneOf items)) as r eqn:Er.
    induction H as [ | | | | | | | | r | r w1 w2 L1 _ L2 IH2 | | | | | | ];
      try discriminate.
    + constructor.
    + injection Er as ->. apply Forall_app. split; [|apply IH2; reflexivity].
      inversion L1; subst. constructor; [assumption|constructor].
  - induction 1 as [|x w Hx Hw IH]; [apply L_StarNil|].
    change (x :: w) with ([x] ++ w). apply L_StarCons; [|exact IH].
    constructor. exact Hx.
Qed.

Lemma lang_Plus_NoneOf (ci : bool) (items : list citem) (w : jsstr) :
  lang ci (Plus (NoneOf items)) w
  <-> w <> [] /\ Forall (fun x => setMatches ci items x = false) w.
Proof.
  unfold Plus. split.
  - intros H. inversion H as [ | | | | | ? ? w1 w2 H1 H2 | | | | | | | | | | ];
      subst.
    inversion H1; subst. cbn [app]. split; [discriminate|].
    constructor; [assumption|]. apply lang_Star_NoneOf. exact H2.
  - intros [Hne H]. destruct w as [|x w]; [contradiction|].
    inversion H as [|? ? Hx Hw]; subst.
    change (x :: w) with ([x] ++ w). constructor.
    + constructor. exact Hx.
    + apply lang_Star_NoneOf. exact Hw.
Qed.

Lemma lang_Plus_OneOf (ci : bool) (items : list citem) (w : jsstr) :
  lang ci (Plus (OneOf items)) w
  <-> w <> [] /\ Forall (fun x => setMatches ci items x = true) w.
Proof.
  unfold Plus. split.
  - intros H. inversion H as [ | | | | | ? ? w1 w2 H1 H2 | | | | | | | | | | ];
      subst.
    inversion H1; subst. cbn [app]. split; [discriminate|].
    constructor; [assumption|]. apply lang_Star_OneOf. exact H2.
  - intros [Hne H]. destruct w as [|x w]; [contradiction|].
    inversion H as [|? ? Hx Hw]; subst.
    change (x :: w) with ([x] ++ w). constructor.
    + constructor. exact Hx.
    + apply lang_Star_OneOf. exact Hw.
Qed.

Lemma toUpper_fixed_or_upper (x : ascii) :
  toUpper x = x \/ isUpper (toUpper x) = true.
Proof. destruct x as [[] [] [] [] [] [] [] []]; vm_compute; auto. Qed.

Lemma toLower_fixed_or_lower (x : ascii) :
  toLower x = x \/ isLower (toLower x) = true.
Proof. destruct x as [[] [] [] [] [] [] [] []]; vm_compute; auto. Qed.

Lemma isUpper_not_toLower_fixed (c : ascii) :
  isUpper c = true -> toLower c <> c.
Proof. destruct c as [[] [] [] [] [] [] [] []]; vm_compute; congruence. Qed.

Lemma isLower_not_toUpper_fixed (c : ascii) :
  isLower c = true -> toUpper c <> c.
Proof. destruct c as [[] [] [] [] [] [] [] []]; vm_compute; congruence. Qed.

(** A class that excludes one character which is not a letter: the [i]
    flag makes no difference. *)
Lemma noneOf_single (ci : bool) (c x : ascii) :
  toUpper c = c -> toLower c = c ->
  setMatches ci [IChr c] x = false <-> x <> c.
Proof.
  intros Hu Hl. unfold setMatches, itemsHave. cbn [existsb itemHas].
  rewrite !orb_false_r. split.
  - intros H -> . rewrite Ascii.eqb_refl in H. discriminate.
  - intros Hne.
    assert (E1 : Ascii.eqb c x = false) by (apply Ascii.eqb_neq; congruence).
    rewrite E1. cbn [orb]. destruct ci; [|reflexivity]. cbn [andb].
    assert (E2 : Ascii.eqb c (toUpper x) = false).
    { apply Ascii.eqb_neq. intros E.
      destruct (toUpper_fixed_or_upper x) as [Hx|Hx]; [congruence|].
      rewrite <- E in Hx. exact (isUpper_not_toLower_fixed c Hx Hl). }
    assert (E3 : Ascii.eqb c (toLower x) = false).
    { apply Ascii.eqb_neq. intros E.
      destruct (toLower_fixed_or_lower x) as [Hx|Hx]; [congruence|].
      rewrite <- E in Hx. exact (isLower_not_toUpper_fixed c Hx Hu). }
    rewrite E2, E3. reflexivity.
Qed.

End RegexCompleteness.

(* ===================================================================== *)
(** * client.ts: escaping the texts that go into a request                *)
(* ===================================================================== *)

Section EscapeXml.
Import JsString Regex RegexGroups Client ClientXml.

Lemma replaceAllChar_app (c : ascii) (rep a b : jsstr) :
  replaceAllChar c rep (a ++ b)
  = replaceAllChar c rep a ++ replaceAllChar c rep b.
Proof. unfold replaceAllChar. apply flat_map_app. Qed.

Lemma escapeXml_app (a b : jsstr) : escapeXml (a ++ b) = escapeXml a ++ escapeXml b.
Proof. unfold escapeXml. rewrite !replaceAllChar_app. reflexivity. Qed.

Lemma escapeXml_one (x : ascii) : escapeXml [x] = escapeChar x.
Proof. destruct x as [[] [] [] [] [] [] [] []]; reflexivity. Qed.

Lemma escapeXml_cons (x : ascii) (s : jsstr) :
  escapeXml (x :: s) = escapeChar x ++ escapeXml s.
Proof.
  change (x :: s) with ([x] ++ s). rewrite escapeXml_app, escapeXml_one.
  reflexivity.
Qed.

(** The five ways [escapeChar] goes, and the sixth. *)
Lemma escapeChar_cases (x : ascii) :
  (x = "&"%char /\ escapeChar x = str "&amp;")
  \/ (x = "<"%char /\ escapeChar x = str "&lt;")
  \/ (x = ">"%char /\ escapeChar x = str "&gt;")
  \/ (x = dquote /\ escapeChar x = str "&quot;")
  \/ (x = "'"%char /\ escapeChar x = str "&apos;")
  \/ (~ xmlSpecial x /\ escapeChar x = [x]).
Proof.
  unfold escapeChar, xmlSpecial.
  destruct (Ascii.eqb_spec x "&") as [->|H1]; [left; split; reflexivity|].
  destruct (Ascii.eqb_spec x "<") as [->|H2];
    [right; left; split; reflexivity|].
  destruct (Ascii.eqb_spec x ">") as [->|H3];
    [right; right; left; split; reflexivity|].
  destruct (Ascii.eqb_spec x dquote) as [->|H4];
    [right; right; right; left; split; reflexivity|].
  destruct (Ascii.eqb_spec x "'") as [->|H5];
    [right; right; right; right; left; split; reflexivity|].
  right. right. right. right. right. split; [|reflexivity]. intuition.
Qed.

Ltac escape_cases x Hx :=
  let E := fresh "E" in
  destruct (escapeChar_cases x)
    as [[-> E]|[[-> E]|[[-> E]|[[-> E]|[[-> E]|[Hx E]]]]]];
  rewrite E in *; clear E.

(** Takes [n] characters off both sides of [H : x :: l = a ++ y :: b]
    when none of them can be the [y]. *)
Ltac peel n H :=
  lazymatch n with
  | O => idtac
  | S ?n' =>
      lazymatch type of H with
      | _ = ?a ++ _ =>
          let c := fresh "c" in
          let a' := fresh "a" in
          destruct a as [|c a']; cbn [app] in H;
          [discriminate | injection H as _ H; peel n' H]
      end
  end.

(** X6. Whatever the text, its escaped form holds none of [<], [>],
    the double quote and the apostrophe, and every [&] in it starts one
    of the five entities [&amp;], [&lt;], [&gt;], [&quot;], [&apos;].
    A text without any of the five characters is left as it is, and
    escaping goes through concatenation. *)
Theorem escapeXml_safe (s : jsstr) :
  Forall (fun c => c <> "<"%char /\ c <> ">"%char /\ c <> dquote
                   /\ c <> "'"%char) (escapeXml s)
  /\ (forall a b : jsstr,
        escapeXml s = a ++ "&"%char :: b ->
        exists name rest, In name entityNames /\ b = name ++ rest)
  /\ (Forall (fun c => ~ xmlSpecial c) s -> escapeXml s = s)
  /\ (forall t : jsstr, escapeXml (s ++ t) = escapeXml s ++ escapeXml t).
Proof.
  split; [|split; [|split]].
  - induction s as [|x s IH]; [constructor|].
    rewrite escapeXml_cons. apply Forall_app. split; [|exact IH].
    escape_cases x Hx;
      try (repeat constructor; unfold dquote; discriminate).
    constructor; [|constructor]. unfold xmlSpecial in Hx.
    repeat split; intros ->; apply Hx; auto.
  - induction s as [|x s IH]; intros a b H.
    + destruct a; discriminate.
    + rewrite escapeXml_cons in H. unfold entityNames.
      escape_cases x Hx; cbn [str list_ascii_of_string app] in H;
        destruct a as [|c0 a0]; cbn [app] in H.
      * injection H as <-. exists (str "amp;"). eexists.
        split; [cbn; auto|reflexivity].
      * injection H as _ H. peel 4 H. exact (IH _ _ H).
      * injection H as <-. exists (str "lt;"). eexists.
        split; [cbn; auto|reflexivity].
      * injection H as _ H. peel 3 H. exact (IH _ _ H).
      * injection H as <-. exists (str "gt;"). eexists.
        split; [cbn; auto|reflexivity].
      * injection H as _ H. peel 3 H. exact (IH _ _ H).
      * injection H as <-. exists (str "quot;"). eexists.
        split; [cbn; auto|reflexivity].
      * injection H as _ H. peel 5 H. exact (IH _ _ H).
      * injection H as <-. exists (str "apos;"). eexists.
        split; [cbn; auto 6|reflexivity].
      * injection H as _ H. peel 5 H. exact (IH _ _ H).
      * injection H as -> _. exfalso. apply Hx. left. reflexivity.
      * injection H as _ H. exact (IH _ _ H).
  - induction 1 as [|x s Hx Hs IH]; [reflexivity|].
    rewrite escapeXml_cons, IH.
    destruct (escapeChar_cases x)
      as [[-> _]|[[-> _]|[[-> _]|[[-> _]|[[-> _]|[_ ->]]]]]];
      try reflexivity; exfalso; apply Hx; unfold xmlSpecial; auto 6.
  - intros t. apply escapeXml_app.
Qed.

(** X7. Escaping loses nothing: two texts with the same escaped form are
    the same text. *)
Theorem escapeXml_injective (s t : jsstr) :
  escapeXml s = escapeXml t <-> s = t.
Proof.
  split; [|intros ->; reflexivity].
  revert t. induction s as [|x s IH]; intros t H.
  - destruct t as [|y t]; [reflexivity|].
    rewrite escapeXml_cons in H. cbn in H.
    escape_cases y Hy; discriminate.
  - destruct t as [|y t].
    + rewrite escapeXml_cons in H. cbn in H. escape_cases x Hx; discriminate.
    + rewrite !escapeXml_cons in H.
      assert (Hne : forall c : ascii, ~ xmlSpecial c -> c <> "&"%char)
        by (intros c Hc ->; apply Hc; left; reflexivity).
      escape_cases x Hx; escape_cases y Hy;
        cbn [str list_ascii_of_string app] in H;
        try discriminate;
        try (injection H as H; f_equal; apply IH; exact H);
        try (injection H as Hc H; exfalso;
             first [ exact (Hne _ Hx Hc)
                   | exact (Hne _ Hy (eq_sym Hc)) ]).
      injection H as -> H. f_equal. apply IH. exact H.
Qed.

End EscapeXml.

(* ===================================================================== *)
(** * client.ts: reading an element of an answer                          *)
(* ===================================================================== *)

Section TagValues.
Import JsString Regex RegexGroups Client ClientXml.

Lemma lang_Seq_inv (ci : bool) (r1 r2 : regex) (w : jsstr) :
  lang ci (Seq r1 r2) w ->
  exists w1 w2, w = w1 ++ w2 /\ lang ci r1 w1 /\ lang ci r2 w2.
Proof.
  intros H. inversion H as [ | | | | | ? ? w1 w2 H1 H2 | | | | | | | | | | ];
    subst. eauto.
Qed.

Lemma lang_Chr_inv (ci : bool) (c : ascii) (w : jsstr) :
  lang ci (Chr c) w -> exists x, w = [x] /\ chrMatches ci c x = true.
Proof. intros H. inversion H; subst. eauto. Qed.

Lemma lang_Opt_inv (ci : bool) (r : regex) (w : jsstr) :
  lang ci (Opt r) w -> w = [] \/ lang ci r w.
Proof.
  unfold Opt. intros H.
  inversion H as [ | | | | | | ? ? ? HL | ? ? ? HR | | | | | | | | ]; subst.
  - right. exact HL.
  - left. inversion HR. reflexivity.
Qed.

Lemma lang_Group_inv (ci : bool) (n : nat) (r : regex) (w : jsstr) :
  lang ci (Group n r) w -> lang ci r w.
Proof. intros H. inversion H; subst. assumption. Qed.

Lemma run_Lit_same (l w : jsstr) :
  sameText l w ->
  forall (t : jsstr) (A : Type) (pos : nat) (cs : caps) (k : cont A),
    run true (Lit l) A pos (w ++ t) cs k = k (pos + length w) t cs.
Proof.
  induction 1 as [|c x l w Hx Hw IH]; intros t A pos cs k.
  - cbn. rewrite Nat.add_0_r. reflexivity.
  - cbn [Lit fold_right run app]. fold (Lit l). rewrite Hx.
    rewrite IH. cbn [length]. f_equal. lia.
Qed.

Lemma sameText_refl (l : jsstr) : sameText l l.
Proof.
  induction l as [|c l IH]; constructor; [|exact IH].
  unfold chrMatches. apply Ascii.eqb_refl.
Qed.

Lemma isWord_toUpper (c : ascii) : isWord (toUpper c) = isWord c.
Proof. destruct c as [[] [] [] [] [] [] [] []]; reflexivity. Qed.

Lemma chrMatches_word (c x : ascii) :
  chrMatches true c x = true -> isWord c = true -> isWord x = true.
Proof.
  unfold chrMatches. intros H Hc. apply Ascii.eqb_eq in H.
  rewrite <- isWord_toUpper, <- H, isWord_toUpper. exact Hc.
Qed.

Lemma chrMatches_word_rev (c x : ascii) :
  chrMatches true c x = true -> isWord x = true -> isWord c = true.
Proof.
  unfold chrMatches. intros H Hx. apply Ascii.eqb_eq in H.
  rewrite <- isWord_toUpper, H, isWord_toUpper. exact Hx.
Qed.

Lemma sameText_word (l w : jsstr) :
  sameText l w -> forallb isWord l = true -> forallb isWord w = true.
Proof.
  induction 1 as [|c x l w Hx Hw IH]; intros H; [reflexivity|].
  cbn [forallb] in *. apply andb_prop in H as [Hc Hl].
  rewrite (chrMatches_word c x Hx Hc), (IH Hl). reflexivity.
Qed.

(** The prefix [ns1:] cannot be read where a tag name and its [>]
    stand. *)
Lemma ns1_not_a_tag (t rest : jsstr) (A : Type) (pos : nat) (cs : caps)
  (k : cont A) :
  forallb isWord t = true ->
  run true (Lit (str "ns1:")) A pos (t ++ ">"%char :: rest) cs k = None.
Proof.
  intros Ht.
  destruct (run true (Lit (str "ns1:")) A pos (t ++ ">"%char :: rest) cs k)
    as [a|] eqn:E; [|reflexivity].
  exfalso. apply run_sound in E as (w & s' & cs' & Heq & L & _).
  apply lang_Lit_ci in L.
  inversion L as [|? a1 ? w1 H1 L1]; subst.
  inversion L1 as [|? a2 ? w2 H2 L2]; subst.
  inversion L2 as [|? a3 ? w3 H3 L3]; subst.
  inversion L3 as [|? a4 ? w4 H4 L4]; subst.
  inversion L4; subst. cbn [app] in Heq.
  destruct t as [|x1 t]; cbn [app] in Heq;
    [injection Heq as <- _; discriminate|].
  destruct t as [|x2 t]; cbn [app] in Heq;
    [injection Heq as _ <- _; discriminate|].
  destruct t as [|x3 t]; cbn [app] in Heq;
    [injection Heq as _ _ <- _; discriminate|].
  destruct t as [|x4 t]; cbn [app] in Heq;
    [injection Heq as _ _ _ <- _; discriminate|].
  injection Heq as _ _ _ <- _.
  cbn [forallb] in Ht.
  apply andb_prop in Ht as [_ Ht]. apply andb_prop in Ht as [_ Ht].
  apply andb_prop in Ht as [_ Ht]. apply andb_prop in Ht as [Ht _].
  assert (Hw : isWord ":" = true) by exact (chrMatches_word_rev _ _ H4 Ht).
  discriminate.
Qed.

(** The optional prefix, at a place where a prefix or none stands before
    a tag name and its [>]. *)
Lemma run_nsPrefix (o t rest : jsstr) (A : Type) (pos : nat) (cs : caps)
  (k : cont A) :
  nsPrefix o -> forallb isWord t = true ->
  is_Some (k (pos + length o) (t ++ ">"%char :: rest) cs) ->
  run true (Opt (Lit (str "ns1:"))) A pos (o ++ t ++ ">"%char :: rest) cs k
  = k (pos + length o) (t ++ ">"%char :: rest) cs.
Proof.
  intros [->|Ho] Ht [a Ha]; unfold Opt.
  - cbn [run app length]. rewrite ns1_not_a_tag by exact Ht.
    rewrite Nat.add_0_r. reflexivity.
  - change (run true (Alt (Lit (str "ns1:")) Eps) A pos
              (o ++ t ++ ">"%char :: rest) cs k)
      with (match run true (Lit (str "ns1:")) A pos
                    (o ++ t ++ ">"%char :: rest) cs k with
            | Some a => Some a
            | None => run true Eps A pos (o ++ t ++ ">"%char :: rest) cs k
            end).
    rewrite (run_Lit_same _ _ Ho). rewrite Ha. reflexivity.
Qed.

(** A search finds the match at the first position where there is one. *)
Lemma search_first (ci : bool) (r : regex) (m : mres) (pre t : jsstr) :
  forall pos : nat,
    (forall a b, pre = a ++ b -> b <> [] ->
                 matchAt ci r (pos + length a) (b ++ t) = None) ->
    matchAt ci r (pos + length pre) t = Some m ->
    search ci r pos (pre ++ t) = Some m.
Proof.
  induction pre as [|x pre IH]; intros pos Hnone Hm.
  - cbn in *. rewrite Nat.add_0_r in Hm.
    destruct t; cbn [search]; rewrite Hm; reflexivity.
  - cbn [app search].
    assert (H0 : matchAt ci r (pos + length (@nil ascii)) ((x :: pre) ++ t)
                 = None) by (apply Hnone; [reflexivity|discriminate]).
    cbn [length app] in H0. rewrite Nat.add_0_r in H0. rewrite H0.
    apply IH.
    + intros a b Heq Hb.
      replace (S pos + length a) with (pos + length (x :: a))
        by (cbn [length]; lia).
      apply (Hnone (x :: a) b); [rewrite Heq; reflexivity|exact Hb].
    + cbn [length] in Hm. rewrite Nat.add_succ_r in Hm. exact Hm.
Qed.

Lemma prefix_before (c : ascii) (a x b y : jsstr) :
  a ++ x = b ++ c :: y -> ~ In c a -> exists z, b = a ++ z.
Proof.
  revert b. induction a as [|u a IH]; intros b H Hin; [eauto|].
  destruct b as [|v b]; cbn [app] in H.
  - injection H as -> _. exfalso. apply Hin. left. reflexivity.
  - injection H as -> H.
    destruct (IH b H) as [z ->]; [intros Hc; apply Hin; right; exact Hc|].
    exists z. reflexivity.
Qed.

Lemma word_not (c : ascii) (t : jsstr) :
  isWord c = false -> forallb isWord t = true -> ~ In c t.
Proof.
  intros Hc Ht Hin. rewrite forallb_forall in Ht.
  rewrite (Ht c Hin) in Hc. discriminate.
Qed.

Lemma nsPrefix_no_lt (o : jsstr) : nsPrefix o -> ~ In "<"%char o.
Proof.
  intros [->|Ho] Hin; [destruct Hin|].
  inversion Ho as [|? a1 ? w1 H1 L1]; subst.
  inversion L1 as [|? a2 ? w2 H2 L2]; subst.
  inversion L2 as [|? a3 ? w3 H3 L3]; subst.
  inversion L3 as [|? a4 ? w4 H4 L4]; subst.
  inversion L4; subst.
  destruct Hin as [->|[->|[->|[->|[]]]]]; discriminate.
Qed.

(** X8. What [getTagValue] returns never holds a [<]: it is the text of
    one element, without markup, or the empty text.  It is the empty
    text when the input has no opening tag of that name at all. *)
Theorem getTagValue_plain_text (tag content : jsstr) :
  ~ In "<"%char (getTagValue tag content)
  /\ (test true (openTagRe tag) content = false ->
      getTagValue tag content = []).
Proof.
  unfold getTagValue. split.
  - destruct (exec true (tagRe tag) content) as [m|] eqn:E; [|intros []].
    unfold groupStr. destruct (group 1 m) as [v|] eqn:Ev; [|intros []].
    cbn [default].
    destruct (exec_group_lang _ _ _ _ _ _ E Ev) as (r1 & Hin & L).
    unfold tagRe, Opt in Hin. cbn [groupsOf] in Hin.
    rewrite !groupsOf_Lit in Hin. cbn [app] in Hin.
    destruct Hin as [[= <-]|[]].
    apply lang_Star_NoneOf in L. intros Hv. change (id v) with v in Hv.
    apply list_elem_of_In in Hv.
    rewrite Forall_forall in L. specialize (L _ Hv).
    apply (noneOf_single true "<" "<") in L; [congruence|reflexivity..].
  - intros Hno.
    destruct (exec true (tagRe tag) content) as [m|] eqn:E; [|reflexivity].
    exfalso. unfold exec in E.
    apply search_sound in E as (pre & t & -> & E).
    apply matchAt_sound in E as (w & s' & -> & L & _).
    unfold tagRe in L.
    apply lang_Seq_inv in L as (w1 & u1 & -> & L1 & L).
    apply lang_Seq_inv in L as (w2 & u2 & -> & L2 & L).
    apply lang_Seq_inv in L as (w3 & u3 & -> & L3 & L).
    apply lang_Seq_inv in L as (w4 & w' & -> & L4 & _).
    assert (Hyes : test true (openTagRe tag)
                     (pre ++ (w1 ++ w2 ++ w3 ++ w4 ++ w') ++ s') = true).
    { apply test_iff_lang.
      - unfold openTagRe, Opt. cbn [anchorFree].
        rewrite !anchorFree_Lit. reflexivity.
      - exists pre, (w1 ++ w2 ++ w3 ++ w4), (w' ++ s').
        split; [rewrite <- !app_assoc; reflexivity|].
        unfold openTagRe. repeat (constructor; try assumption). }
    rewrite Hyes in Hno. discriminate.
Qed.

(** The tag pattern, run where an element of that name stands. *)
Lemma matchAt_element (tag o1 t1 v o2 t2 post : jsstr) (pos : nat) :
  forallb isWord tag = true ->
  nsPrefix o1 -> nsPrefix o2 -> sameText tag t1 -> sameText tag t2 ->
  ~ In "<"%char v ->
  exists m,
    matchAt true (tagRe tag) pos
      ("<"%char :: o1 ++ t1 ++ ">"%char :: v ++ str "</" ++ o2 ++ t2
                ++ ">"%char :: post) = Some m
    /\ group 1 m = Some v.
Proof.
  intros Htag Ho1 Ho2 Ht1 Ht2 Hv.
  pose proof (sameText_word _ _ Ht1 Htag) as Hw1.
  pose proof (sameText_word _ _ Ht2 Htag) as Hw2.
  eexists. unfold matchAt, tagRe.
  rewrite run_Seq, run_Chr_cons.
  change (chrMatches true "<" "<") with true. cbv iota.
  rewrite run_Seq.
  rewrite run_nsPrefix; [|exact Ho1|exact Hw1|].
  2:{ rewrite run_Seq, (run_Lit_same _ _ Ht1).
      rewrite run_Seq, run_Chr_cons.
      change (chrMatches true ">" ">") with true. cbv iota.
      rewrite run_Seq, run_Group, run_Star.
      rewrite (iterate_greedy_run (run true (NoneOf [IChr "<"]))
                 (fun x => negb (setMatches true [IChr "<"] x)));
        [ |reflexivity|reflexivity| | |apply Nat.lt_succ_diag_r| ].
      - rewrite run_Seq. cbn [str list_ascii_of_string app].
        change (run true (Lit ["<"%char; "/"%char]) _ ?p
                  ("<"%char :: "/"%char :: ?r) ?c ?k)
          with (k (S (S p)) r c).
        cbv beta. rewrite run_Seq.
        rewrite run_nsPrefix; [|exact Ho2|exact Hw2|].
        + rewrite run_Seq, (run_Lit_same _ _ Ht2), run_Chr_cons.
          change (chrMatches true ">" ">") with true. cbv iota. eauto.
        + rewrite run_Seq, (run_Lit_same _ _ Ht2), run_Chr_cons.
          change (chrMatches true ">" ">") with true. cbv iota. eauto.
      - apply forallb_forall. intros x Hx.
        assert (Hne : x <> "<"%char) by (intros ->; exact (Hv Hx)).
        apply (noneOf_single true "<" x) in Hne; [|reflexivity..].
        rewrite Hne. reflexivity.
      - reflexivity.
      - rewrite run_Seq. cbn [str list_ascii_of_string app].
        change (run true (Lit ["<"%char; "/"%char]) _ ?p
                  ("<"%char :: "/"%char :: ?r) ?c ?k)
          with (k (S (S p)) r c).
        cbv beta. rewrite run_Seq.
        rewrite run_nsPrefix; [|exact Ho2|exact Hw2|].
        + rewrite run_Seq, (run_Lit_same _ _ Ht2), run_Chr_cons.
          change (chrMatches true ">" ">") with true. cbv iota. eauto.
        + rewrite run_Seq, (run_Lit_same _ _ Ht2), run_Chr_cons.
          change (chrMatches true ">" ">") with true. cbv iota. eauto. }
  rewrite run_Seq, (run_Lit_same _ _ Ht1).
  rewrite run_Seq, run_Chr_cons.
  change (chrMatches true ">" ">") with true. cbv iota.
  rewrite run_Seq, run_Group, run_Star.
  rewrite (iterate_greedy_run (run true (NoneOf [IChr "<"]))
             (fun x => negb (setMatches true [IChr "<"] x)));
    [ |reflexivity|reflexivity| | |apply Nat.lt_succ_diag_r| ].
  - rewrite run_Seq. cbn [str list_ascii_of_string app].
    change (run true (Lit ["<"%char; "/"%char]) _ ?p
              ("<"%char :: "/"%char :: ?r) ?c ?k)
      with (k (S (S p)) r c).
    cbv beta. rewrite run_Seq.
    rewrite run_nsPrefix; [|exact Ho2|exact Hw2|].
    + rewrite run_Seq, (run_Lit_same _ _ Ht2), run_Chr_cons.
      change (chrMatches true ">" ">") with true. cbv iota.
      split; [reflexivity|].
      unfold group. cbn [m_caps capture Nat.eqb]. f_equal.
      match goal with
      | |- firstn (?a + length v - ?a) _ = _ =>
          replace (a + length v - a) with (length v) by lia
      end.
      rewrite firstn_app, Nat.sub_diag, firstn_all. cbn [firstn].
      apply app_nil_r.
    + rewrite run_Seq, (run_Lit_same _ _ Ht2), run_Chr_cons.
      change (chrMatches true ">" ">") with true. cbv iota. eauto.
  - apply forallb_forall. intros x Hx.
    assert (Hne : x <> "<"%char) by (intros ->; exact (Hv Hx)).
    apply (noneOf_single true "<" x) in Hne; [|reflexivity..].
    rewrite Hne. reflexivity.
  - reflexivity.
  - rewrite run_Seq. cbn [str list_ascii_of_string app].
    change (run true (Lit ["<"%char; "/"%char]) _ ?p
              ("<"%char :: "/"%char :: ?r) ?c ?k)
      with (k (S (S p)) r c).
    cbv beta. rewrite run_Seq.
    rewrite run_nsPrefix; [|exact Ho2|exact Hw2|].
    + rewrite run_Seq, (run_Lit_same _ _ Ht2), run_Chr_cons.
      change (chrMatches true ">" ">") with true. cbv iota. eauto.
    + rewrite run_Seq, (run_Lit_same _ _ Ht2), run_Chr_cons.
      change (chrMatches true ">" ">") with true. cbv iota. eauto.
Qed.

Lemma chrMatches_nonletter (c x : ascii) :
  toUpper c = c -> toLower c = c -> chrMatches true c x = true -> x = c.
Proof.
  unfold chrMatches. intros Hu Hl H. apply Ascii.eqb_eq in H.
  rewrite Hu in H.
  destruct (toUpper_fixed_or_upper x) as [Hx|Hx]; [congruence|].
  rewrite <- H in Hx. destruct (isUpper_not_toLower_fixed c Hx Hl).
Qed.

(** No match of the tag pattern starts before the first opening tag. *)
Lemma no_match_before_open (tag a b rest : jsstr) :
  forallb isWord tag = true ->
  b <> [] ->
  test true (openTagRe tag) (a ++ b) = false ->
  matchAt true (tagRe tag) (0 + length a) (b ++ "<"%char :: rest) = None.
Proof.
  intros Htag Hb Hno.
  destruct (matchAt true (tagRe tag) (0 + length a) (b ++ "<"%char :: rest))
    as [m|] eqn:E; [|reflexivity].
  exfalso.
  apply matchAt_sound in E as (w & s' & Heq & L & _).
  unfold tagRe in L.
  apply lang_Seq_inv in L as (w1 & u1 & -> & L1 & L).
  apply lang_Seq_inv in L as (w2 & u2 & -> & L2 & L).
  apply lang_Seq_inv in L as (w3 & u3 & -> & L3 & L).
  apply lang_Seq_inv in L as (w4 & w' & -> & L4 & _).
  apply lang_Chr_inv in L1 as (x1 & -> & Hx1).
  apply (chrMatches_nonletter "<") in Hx1; [subst x1|reflexivity..].
  apply lang_Chr_inv in L4 as (x4 & -> & Hx4).
  apply (chrMatches_nonletter ">") in Hx4; [subst x4|reflexivity..].
  assert (Hns : nsPrefix w2).
  { apply lang_Opt_inv in L2 as [->|L2]; [left; reflexivity|].
    right. apply lang_Lit_ci. exact L2. }
  apply lang_Lit_ci in L3.
  destruct b as [|y b]; [contradiction|].
  rewrite <- !app_assoc in Heq. cbn [app] in Heq. injection Heq as -> Heq.
  assert (Hpre : exists z, b = (w2 ++ w3 ++ [">"%char]) ++ z).
  { apply (prefix_before "<" _ (w' ++ s') _ rest).
    - rewrite <- !app_assoc. cbn [app]. symmetry. exact Heq.
    - intros Hin. apply in_app_or in Hin as [Hin|Hin];
        [exact (nsPrefix_no_lt _ Hns Hin)|].
      apply in_app_or in Hin as [Hin|[Hin|[]]]; [|discriminate].
      refine (word_not "<" w3 eq_refl _ Hin).
      exact (sameText_word _ _ L3 Htag). }
  destruct Hpre as [z ->].
  assert (Hyes : test true (openTagRe tag)
                   (a ++ "<"%char :: (w2 ++ w3 ++ [">"%char]) ++ z) = true).
  { apply test_iff_lang.
    - unfold openTagRe, Opt. cbn [anchorFree].
      rewrite !anchorFree_Lit. reflexivity.
    - exists a, ("<"%char :: w2 ++ w3 ++ [">"%char]), z.
      split; [cbn [app]; rewrite <- ?app_assoc; reflexivity|].
      unfold openTagRe.
      change ("<"%char :: w2 ++ w3 ++ [">"%char])
        with (["<"%char] ++ w2 ++ w3 ++ [">"%char]).
      constructor; [constructor; reflexivity|].
      constructor.
      + destruct Hns as [->|Hns]; unfold Opt;
          [apply L_AltR; constructor|apply L_AltL; apply lang_Lit_ci; exact Hns].
      + constructor; [apply lang_Lit_ci; exact L3|constructor; reflexivity]. }
  rewrite Hyes in Hno. discriminate.
Qed.

(** X9. When the input holds an element of the given name (with or
    without the [ns1:] prefix on either tag, in any letter case), whose
    text has no [<], and no opening tag of that name stands before it,
    [getTagValue] returns the text of that element, whatever follows. *)
Theorem getTagValue_first_element (tag pre o1 t1 v o2 t2 post : jsstr) :
  forallb isWord tag = true ->
  nsPrefix o1 -> nsPrefix o2 -> sameText tag t1 -> sameText tag t2 ->
  ~ In "<"%char v ->
  test true (openTagRe tag) pre = false ->
  getTagValue tag
    (pre ++ "<"%char :: o1 ++ t1 ++ ">"%char :: v ++ str "</" ++ o2 ++ t2
         ++ ">"%char :: post) = v.
Proof.
  intros Htag Ho1 Ho2 Ht1 Ht2 Hv Hno.
  destruct (matchAt_element tag o1 t1 v o2 t2 post (0 + length pre)
              Htag Ho1 Ho2 Ht1 Ht2 Hv) as (m & Hm & Hg).
  unfold getTagValue, exec.
  rewrite (search_first true (tagRe tag) m pre _ 0); [| |exact Hm].
  - unfold groupStr. rewrite Hg. reflexivity.
  - intros a b -> Hb. apply no_match_before_open; assumption.
Qed.

Lemma getTagValue_first_element_witness :
  let xml := str "<?xml version='1.0'?><ns1:Reply><ns1:IsError>0</ns1:IsError><ns1:FplIsOk>1</ns1:FplIsOk></ns1:Reply>" in
  test true (openTagRe (str "FplIsOk"))
       (str "<?xml version='1.0'?><ns1:Reply><ns1:IsError>0</ns1:IsError>")
  = false
  /\ getTagValue (str "FplIsOk") xml = str "1"
  /\ getTagValue (str "fplisok") xml = str "1".
Proof.
  cbv zeta. split; [vm_compute; reflexivity|]. split.
  - apply (getTagValue_first_element (str "FplIsOk")
             (str "<?xml version='1.0'?><ns1:Reply><ns1:IsError>0</ns1:IsError>")
             (str "ns1:") (str "FplIsOk") (str "1") (str "ns1:") (str "FplIsOk")
             (str "</ns1:Reply>")).
    + reflexivity.
    + right. apply sameText_refl.
    + right. apply sameText_refl.
    + apply sameText_refl.
    + apply sameText_refl.
    + cbn. intros [H|[]]. discriminate.
    + vm_compute. reflexivity.
  - apply (getTagValue_first_element (str "fplisok")
             (str "<?xml version='1.0'?><ns1:Reply><ns1:IsError>0</ns1:IsError>")
             (str "ns1:") (str "FplIsOk") (str "1") (str "ns1:") (str "FplIsOk")
             (str "</ns1:Reply>")).
    + reflexivity.
    + right. apply sameText_refl.
    + right. apply sameText_refl.
    + repeat constructor.
    + repeat constructor.
    + cbn. intros [H|[]]. discriminate.
    + vm_compute. reflexivity.
Defined.

End TagValues.

(* ===================================================================== *)
(** * client.ts: the cookies of an answer                                 *)
(* ===================================================================== *)

Section ExtractCookies.
Import JsString Regex RegexGroups Client ClientXml.

Lemma mapSet_In (k0 v0 k v : jsstr) (m : JsMap) :
  In (k, v) (mapSet k0 v0 m) -> (k, v) = (k0, v0) \/ In (k, v) m.
Proof.
  induction m as [|[k1 v1] m IH]; cbn [mapSet]; intros H.
  - destruct H as [H|[]]. left. symmetry. exact H.
  - destruct (JsString.eqb k0 k1) eqn:E.
    + apply eqb_true in E. subst k1. destruct H as [H|H].
      * left. symmetry. exact H.
      * right. right. exact H.
    + destruct H as [H|H]; [right; left; exact H|].
      apply IH in H as [H|H]; [left; exact H|right; right; exact H].
Qed.

Lemma trimStart_suffix (s : jsstr) : exists p, s = p ++ trimStart s.
Proof.
  induction s as [|c s [p IH]]; [exists []; reflexivity|].
  cbn [trimStart]. destruct (isSpace c).
  - exists (c :: p). cbn. f_equal. exact IH.
  - exists []. reflexivity.
Qed.

Lemma trimStart_head (s : jsstr) :
  match trimStart s with [] => True | c :: _ => isSpace c = false end.
Proof.
  induction s as [|c s IH]; [exact I|].
  cbn [trimStart]. destruct (isSpace c) eqn:E; [exact IH|exact E].
Qed.

Lemma trimStart_fixed (s : jsstr) :
  match s with [] => True | c :: _ => isSpace c = false end ->
  trimStart s = s.
Proof. destruct s as [|c s]; [reflexivity|]. cbn. intros ->. reflexivity. Qed.

Lemma In_trimStart (x : ascii) (s : jsstr) : In x (trimStart s) -> In x s.
Proof.
  destruct (trimStart_suffix s) as [p E]. intros H. rewrite E.
  apply in_or_app. right. exact H.
Qed.

Lemma In_trim (x : ascii) (s : jsstr) : In x (trim s) -> In x s.
Proof.
  unfold trim. intros H. apply in_rev in H. apply In_trimStart in H.
  apply in_rev in H. apply In_trimStart in H. exact H.
Qed.

(** Trimming a trimmed text changes nothing. *)
Lemma trim_idem (s : jsstr) : trim (trim s) = trim s.
Proof.
  unfold trim.
  set (u := trimStart s). set (v := trimStart (rev u)).
  assert (Hfix : trimStart (rev v) = rev v).
  { apply trimStart_fixed.
    destruct (trimStart_suffix (rev u)) as [p E]. fold v in E.
    assert (Eu : u = rev v ++ rev p).
    { rewrite <- (rev_involutive u), E, rev_app_distr. reflexivity. }
    pose proof (trimStart_head s) as Hh. fold u in Hh.
    destruct (rev v) as [|c w]; [exact I|].
    rewrite Eu in Hh. exact Hh. }
  rewrite Hfix, rev_involutive.
  rewrite (trimStart_fixed v); [reflexivity|].
  unfold v. apply trimStart_head.
Qed.

(** The loop of [extractCookies]. *)
Lemma extractCookies_loop (P : jsstr -> jsstr -> Prop) :
  (forall part m, exec false cookiePairRe part = Some m ->
                  P (trim (groupStr 1 m)) (trim (groupStr 2 m))) ->
  forall (parts : list jsstr) (cookies : JsMap),
    NoDup (map fst cookies) ->
    (forall k v, In (k, v) cookies -> P k v) ->
    NoDup (map fst
             (fold_left
                (fun cookies part =>
                   match exec false cookiePairRe part with
                   | Some m => mapSet (trim (groupStr 1 m))
                                      (trim (groupStr 2 m)) cookies
                   | None => cookies
                   end) parts cookies))
    /\ forall k v,
         In (k, v)
            (fold_left
               (fun cookies part =>
                  match exec false cookiePairRe part with
                  | Some m => mapSet (trim (groupStr 1 m))
                                     (trim (groupStr 2 m)) cookies
                  | None => cookies
                  end) parts cookies) -> P k v.
Proof.
  intros Hstep parts.
  induction parts as [|part parts IH]; intros cookies Hnd HP; cbn [fold_left].
  - split; assumption.
  - destruct (exec false cookiePairRe part) as [m|] eqn:E;
      [|apply IH; assumption].
    apply IH; [apply mapSet_NoDup; exact Hnd|].
    intros k v Hin. apply mapSet_In in Hin as [[= -> ->]|Hin].
    + exact (Hstep part m E).
    + exact (HP k v Hin).
Qed.

(** The two groups of the cookie pattern. *)
Lemma cookiePair_groups (part : jsstr) (m : mres) :
  exec false cookiePairRe part = Some m ->
  groupStr 1 m <> [] /\ ~ In "="%char (groupStr 1 m)
  /\ groupStr 2 m <> [] /\ ~ In ";"%char (groupStr 2 m).
Proof.
  intros E.
  destruct (exec_mandatory_groups false cookiePairRe part m 1 E)
    as [g1 H1]; [vm_compute; auto|].
  destruct (exec_mandatory_groups false cookiePairRe part m 2 E)
    as [g2 H2]; [vm_compute; auto|].
  unfold groupStr. rewrite H1, H2. cbn [default].
  destruct (exec_group_lang _ _ _ _ _ _ E H1) as (r1 & Hin1 & L1).
  destruct (exec_group_lang _ _ _ _ _ _ E H2) as (r2 & Hin2 & L2).
  cbn in Hin1, Hin2.
  destruct Hin1 as [[= <-]|[[=]|[]]]. destruct Hin2 as [[=]|[[= <-]|[]]].
  apply lang_Plus_NoneOf in L1 as [Hne1 F1].
  apply lang_Plus_NoneOf in L2 as [Hne2 F2].
  rewrite Forall_forall in F1, F2.
  repeat split; try assumption.
  - intros Hin. apply list_elem_of_In in Hin. specialize (F1 _ Hin).
    apply (noneOf_single false "=" "=") in F1; [congruence|reflexivity..].
  - intros Hin. apply list_elem_of_In in Hin. specialize (F2 _ Hin).
    apply (noneOf_single false ";" ";") in F2; [congruence|reflexivity..].
Qed.

Lemma extractCookies_entries_NoDup (response : Response) :
  NoDup (map fst (extractCookies response)).
Proof.
  unfold extractCookies.
  destruct (setCookie response) as [header|]; [|constructor].
  destruct (truthy header); [|constructor].
  apply (extractCookies_loop (fun _ _ => True)); [auto|constructor|auto].
Qed.

(** X10. The cookies read from an answer form a map (every name once);
    no name holds an [=], no value holds a [;] (the attributes of a
    cookie never become part of its value), and names and values carry
    no white space at either end.  An answer without a [set-cookie]
    header gives no cookie. *)
Theorem extractCookies_entries (response : Response) :
  NoDup (map fst (extractCookies response))
  /\ (forall k v : jsstr,
        In (k, v) (extractCookies response) ->
        ~ In "="%char k /\ ~ In ";"%char v /\ trim k = k /\ trim v = v)
  /\ (setCookie response = None -> extractCookies response = []).
Proof.
  split; [apply extractCookies_entries_NoDup|]. unfold extractCookies.
  destruct (setCookie response) as [header|];
    [|split; [intros k v []|reflexivity]].
  destruct (truthy header); [|split; [intros k v []|discriminate]].
  destruct (extractCookies_loop
              (fun k v => ~ In "="%char k /\ ~ In ";"%char v
                          /\ trim k = k /\ trim v = v)) with
      (parts := splitRe false cookieSplitRe header) (cookies := @nil (jsstr * jsstr))
    as [Hnd HP].
  - intros part m E.
    destruct (cookiePair_groups part m E) as (_ & H1 & _ & H2).
    split; [intros Hin; exact (H1 (In_trim _ _ Hin))|].
    split; [intros Hin; exact (H2 (In_trim _ _ Hin))|].
    split; apply trim_idem.
  - constructor.
  - intros k v [].
  - split; [exact HP|discriminate].
Qed.

Lemma search_here (ci : bool) (r : regex) (pos : nat) (s : jsstr) (m : mres) :
  matchAt ci r pos s = Some m -> search ci r pos s = Some m.
Proof. intros H. destruct s; cbn [search]; rewrite H; reflexivity. Qed.

(** A greedy run over a class of excluded characters takes all of the
    longest run when what follows the pattern accepts that. *)
Lemma run_Star_NoneOf_greedy (ci : bool) (items : list citem) (A : Type)
  (k : cont A) (u t : jsstr) (pos : nat) (cs : caps) :
  Forall (fun x => setMatches ci items x = false) u ->
  match t with [] => True | x :: _ => setMatches ci items x = true end ->
  is_Some (k (pos + length u) t cs) ->
  run ci (Star (NoneOf items)) A pos (u ++ t) cs k = k (pos + length u) t cs.
Proof.
  intros Hu Ht Hk. rewrite run_Star.
  apply (iterate_greedy_run (run ci (NoneOf items))
           (fun x => negb (setMatches ci items x)));
    [reflexivity|reflexivity| | |apply Nat.lt_succ_diag_r|exact Hk].
  - apply forallb_forall. intros x Hx. rewrite Forall_forall in Hu.
    apply list_elem_of_In in Hx. rewrite (Hu x Hx). reflexivity.
  - destruct t as [|x t]; [exact I|]. rewrite Ht. reflexivity.
Qed.

Lemma run_NoneOf_cons (ci : bool) (items : list citem) (A : Type) (pos : nat)
  (x : ascii) (s : jsstr) (cs : caps) (k : cont A) :
  run ci (NoneOf items) A pos (x :: s) cs k
  = if negb (setMatches ci items x) then k (S pos) s cs else None.
Proof. reflexivity. Qed.

Lemma run_Bol (ci : bool) (A : Type) (pos : nat) (s : jsstr) (cs : caps)
  (k : cont A) :
  run ci Bol A pos s cs k = if pos =? 0 then k pos s cs else None.
Proof. reflexivity. Qed.

Lemma run_Plus_NoneOf_greedy (ci : bool) (items : list citem) (A : Type)
  (k : cont A) (u t : jsstr) (pos : nat) (cs : caps) :
  u <> [] ->
  Forall (fun x => setMatches ci items x = false) u ->
  match t with [] => True | x :: _ => setMatches ci items x = true end ->
  is_Some (k (pos + length u) t cs) ->
  run ci (Plus (NoneOf items)) A pos (u ++ t) cs k = k (pos + length u) t cs.
Proof.
  intros Hne Hu Ht Hk. destruct u as [|x u]; [contradiction|].
  apply Forall_cons in Hu as [Hx Hu].
  unfold Plus. rewrite run_Seq. cbn [app]. rewrite run_NoneOf_cons, Hx.
  cbn [negb].
  rewrite run_Star_NoneOf_greedy; [|exact Hu|exact Ht|].
  - cbn [length]. f_equal. lia.
  - cbn [length] in Hk. rewrite Nat.add_succ_r in Hk. exact Hk.
Qed.

Lemma firstn_length_app {A : Type} (u t : list A) (a : nat) :
  firstn (a + length u - a) (u ++ t) = u.
Proof.
  replace (a + length u - a) with (length u) by lia.
  rewrite firstn_app, Nat.sub_diag, firstn_all. cbn [firstn]. apply app_nil_r.
Qed.

Lemma none_of_excludes (c : ascii) (u : jsstr) :
  toUpper c = c -> toLower c = c -> ~ In c u ->
  Forall (fun x => setMatches false [IChr c] x = false) u.
Proof.
  intros Hu Hl Hin. apply Forall_forall. intros x Hx.
  apply noneOf_single; [exact Hu|exact Hl|].
  intros ->. apply Hin. apply list_elem_of_In. exact Hx.
Qed.

(** The cookie pattern on a text [name=value] followed by nothing or by
    the attributes. *)
Lemma exec_cookiePair (name value attrs : jsstr) :
  name <> [] -> ~ In "="%char name ->
  value <> [] -> ~ In ";"%char value ->
  match attrs with [] => True | c :: _ => c = ";"%char end ->
  exists m,
    exec false cookiePairRe (name ++ "="%char :: value ++ attrs) = Some m
    /\ groupStr 1 m = name /\ groupStr 2 m = value.
Proof.
  intros Hn1 Hn2 Hv1 Hv2 Ha.
  assert (Hattrs : match attrs with
                   | [] => True
                   | x :: _ => setMatches false [IChr ";"] x = true
                   end)
    by (destruct attrs as [|c attrs]; [exact I|subst c; reflexivity]).
  eexists. unfold exec. split.
  - apply search_here. unfold matchAt, cookiePairRe.
    rewrite run_Seq, run_Bol. cbn [Nat.eqb].
    rewrite run_Seq, run_Group.
    rewrite run_Plus_NoneOf_greedy;
      [ |exact Hn1|apply none_of_excludes; [reflexivity..|exact Hn2]
        |reflexivity| ].
    + rewrite run_Seq, run_Chr_cons.
      change (chrMatches false "=" "=") with true. cbv iota.
      rewrite run_Group.
      rewrite run_Plus_NoneOf_greedy;
        [ |exact Hv1|apply none_of_excludes; [reflexivity..|exact Hv2]
          |exact Hattrs|eauto ].
      reflexivity.
    + rewrite run_Seq, run_Chr_cons.
      change (chrMatches false "=" "=") with true. cbv iota.
      rewrite run_Group.
      rewrite run_Plus_NoneOf_greedy;
        [ |exact Hv1|apply none_of_excludes; [reflexivity..|exact Hv2]
          |exact Hattrs|eauto ].
      eauto.
  - unfold groupStr, group. cbn [m_caps capture Nat.eqb default].
    split; [|apply firstn_length_app].
    apply (firstn_length_app name _ 0).
Qed.

(** A header without a comma is one part. *)
Lemma cookieSplit_no_comma (pos : nat) (s : jsstr) :
  match s with [] => True | c :: _ => c <> ","%char end ->
  matchAt false cookieSplitRe pos s = None.
Proof.
  unfold matchAt, cookieSplitRe. rewrite run_Seq.
  destruct s as [|c s]; [reflexivity|]. intros Hc.
  rewrite run_Chr_cons. unfold chrMatches.
  destruct (Ascii.eqb_spec "," c) as [E|_]; [congruence|reflexivity].
Qed.

Lemma splitReAux_no_comma (s : jsstr) :
  forall (pos : nat) (cur : jsstr),
    ~ In ","%char s ->
    splitReAux false cookieSplitRe pos 0 cur s = [rev cur ++ s].
Proof.
  induction s as [|c s IH]; intros pos cur Hin; cbn [splitReAux].
  - rewrite app_nil_r. reflexivity.
  - rewrite cookieSplit_no_comma
      by (intros ->; apply Hin; left; reflexivity).
    rewrite IH by (intros H; apply Hin; right; exact H).
    cbn [rev]. rewrite <- app_assoc. reflexivity.
Qed.

Lemma splitRe_no_comma (s : jsstr) :
  s <> [] -> ~ In ","%char s -> splitRe false cookieSplitRe s = [s].
Proof.
  intros Hne Hin. unfold splitRe. destruct s as [|c s]; [contradiction|].
  apply (splitReAux_no_comma (c :: s) 0 [] Hin).
Qed.

(** X11. An answer whose [set-cookie] header is one cookie,
    [name=value], alone or followed by attributes after a [;], with no
    comma anywhere, gives exactly that cookie: the name up to the first
    [=], the value up to the first [;], both without the white space
    around them. *)
Theorem extractCookies_single (response : Response) (name value attrs : jsstr) :
  setCookie response = Some (name ++ "="%char :: value ++ attrs) ->
  name <> [] -> ~ In "="%char name ->
  value <> [] -> ~ In ";"%char value ->
  match attrs with [] => True | c :: _ => c = ";"%char end ->
  ~ In ","%char (name ++ "="%char :: value ++ attrs) ->
  extractCookies response = [(trim name, trim value)].
Proof.
  intros Hh Hn1 Hn2 Hv1 Hv2 Ha Hc. unfold extractCookies. rewrite Hh.
  assert (Hne : name ++ "="%char :: value ++ attrs <> [])
    by (destruct name; [contradiction|discriminate]).
  destruct (name ++ "="%char :: value ++ attrs) as [|c0 h0] eqn:Eh;
    [contradiction|].
  cbn [truthy]. rewrite <- Eh in *. rewrite splitRe_no_comma by assumption.
  cbn [fold_left].
  destruct (exec_cookiePair name value attrs Hn1 Hn2 Hv1 Hv2 Ha)
    as (m & -> & -> & ->).
  reflexivity.
Qed.

Lemma extractCookies_single_witness :
  extractCookies
    {| status := 200;
       setCookie := Some (str "__Host-IxoWeb-NL= abc123 ; Path=/; HttpOnly");
       location := None; body := [] |}
  = [(str "__Host-IxoWeb-NL", str "abc123")].
Proof.
  apply (extractCookies_single _ (str "__Host-IxoWeb-NL") (str " abc123 ")
           (str "; Path=/; HttpOnly")).
  - reflexivity.
  - discriminate.
  - cbn. intuition discriminate.
  - discriminate.
  - cbn. intuition discriminate.
  - reflexivity.
  - cbn. intuition discriminate.
Defined.

End ExtractCookies.

(* ===================================================================== *)
(** * client.ts: the cookie header, and the first step of a login         *)
(* ===================================================================== *)

Section CookieHeader.
Import JsString Regex RegexGroups Client ClientXml.

Lemma mapSet_fresh (k v : jsstr) (m : JsMap) :
  ~ In k (map fst m) -> mapSet k v m = m ++ [(k, v)].
Proof.
  induction m as [|[k0 v0] m IH]; intros H; cbn [mapSet app]; [reflexivity|].
  cbn [map fst In] in H.
  destruct (JsString.eqb k k0) eqn:E.
  - apply eqb_true in E. subst k0. exfalso. apply H. left. reflexivity.
  - rewrite IH; [reflexivity|]. intros Hin. apply H. right. exact Hin.
Qed.

(** Setting the entries of a map whose names are all new and distinct
    appends them, in their order. *)
Lemma setAll_append (newCookies : JsMap) :
  forall m : JsMap,
    NoDup (map fst (m ++ newCookies)) -> setAll newCookies m = m ++ newCookies.
Proof.
  induction newCookies as [|[k v] rest IH]; intros m Hnd.
  - rewrite app_nil_r. reflexivity.
  - change (setAll ((k, v) :: rest) m) with (setAll rest (mapSet k v m)).
    assert (Hk : ~ In k (map fst m)).
    { rewrite map_app in Hnd. apply NoDup_app in Hnd as (_ & Hdis & _).
      intros Hin. apply list_elem_of_In in Hin.
      apply (Hdis k Hin). left. }
    rewrite (mapSet_fresh k v m Hk).
    replace (m ++ (k, v) :: rest) with ((m ++ [(k, v)]) ++ rest)
      by (rewrite <- app_assoc; reflexivity).
    apply IH. rewrite <- app_assoc. exact Hnd.
Qed.

Lemma setAll_nil (m : JsMap) : NoDup (map fst m) -> setAll m [] = m.
Proof. intros H. apply (setAll_append m []). exact H. Qed.

Lemma mergeCookies_nil (m : JsMap) :
  NoDup (map fst m) ->
  mergeCookies [] m = join (str "; ") (map (fun kv => fst kv ++ str "=" ++ snd kv) m).
Proof.
  intros H. unfold mergeCookies, mergeCookiesMap. cbn [truthy].
  rewrite setAll_nil by exact H. reflexivity.
Qed.

(** X12. The first step of a login fails with [Failed to get session
    cookie] when the answer sets no cookie named [__Host-IxoWeb-NL]
    (whatever the page holds), and otherwise with [Failed to get token
    from login page] or not at all.  When it returns, the cookie header
    it returns is the one made of the cookies of the answer and holds
    the session cookie with its value, and the token is a non-empty text
    without double quote, taken from a page that holds the call of
    [AWLoginDataHandler.setToken]. *)
Theorem initLogin_outcomes (response : Response) :
  (mapGet SESSION_COOKIE (extractCookies response) = None ->
   initLogin response = InitLoginError (str "Failed to get session cookie"))
  /\ (forall cookies token : jsstr,
        initLogin response = InitLoginResult cookies token ->
        cookies = mergeCookies [] (extractCookies response)
        /\ (exists v a b,
               mapGet SESSION_COOKIE (extractCookies response) = Some v
               /\ cookies = a ++ (SESSION_COOKIE ++ str "=" ++ v) ++ b)
        /\ token <> [] /\ ~ In dquote token
        /\ includes (body response) (str "AWLoginDataHandler.setToken(")
           = true)
  /\ (forall msg : jsstr,
        initLogin response = InitLoginError msg ->
        msg = str "Failed to get session cookie"
        \/ (msg = str "Failed to get token from login page"
            /\ is_Some (mapGet SESSION_COOKIE (extractCookies response)))).
Proof.
  unfold initLogin, mapHas.
  destruct (mapGet SESSION_COOKIE (extractCookies response)) as [v|] eqn:Ec;
    cbn [negb].
  2:{ split; [reflexivity|]. split; [discriminate|].
      intros msg [= <-]. left. reflexivity. }
  split; [discriminate|].
  destruct (exec false setTokenRe (body response)) as [m|] eqn:E.
  2:{ cbn [truthy negb]. split; [discriminate|].
      intros msg [= <-]. right. split; [reflexivity|eauto]. }
  destruct (truthy (groupStr 1 m)) eqn:Et; cbn [negb].
  2:{ split; [discriminate|].
      intros msg [= <-]. right. split; [reflexivity|eauto]. }
  split; [|discriminate].
  intros cookies token [= <- <-].
  split; [reflexivity|].
  split.
  { exists v.
    pose proof (extractCookies_entries_NoDup response) as Hnd.
    rewrite (mergeCookies_nil _ Hnd).
    apply mapGet_In in Ec.
    destruct (join_In (str "; ")
                (map (fun kv => fst kv ++ str "=" ++ snd kv)
                     (extractCookies response))
                (SESSION_COOKIE ++ str "=" ++ v)) as (a & b & Hj).
    { apply in_map_iff. exists (SESSION_COOKIE, v). split; [reflexivity|exact Ec]. }
    exists a, b. split; [reflexivity|exact Hj]. }
  split; [destruct (groupStr 1 m); [discriminate|discriminate]|].
  split.
  - unfold groupStr in *. destruct (group 1 m) as [g|] eqn:Eg;
      [|intros []].
    cbn [default].
    destruct (exec_group_lang _ _ _ _ _ _ E Eg) as (r1 & Hin & L).
    unfold setTokenRe in Hin. cbn [groupsOf] in Hin.
    rewrite groupsOf_Lit in Hin. cbn [app] in Hin.
    destruct Hin as [[= <-]|[]].
    apply lang_Plus_NoneOf in L as [_ F]. rewrite Forall_forall in F.
    intros Hin. apply list_elem_of_In in Hin. specialize (F _ Hin).
    apply (noneOf_single false dquote dquote) in F;
      [congruence|reflexivity..].
  - unfold exec in E. apply search_sound in E as (pre & t & -> & E).
    apply matchAt_sound in E as (w & s' & -> & L & _).
    unfold setTokenRe in L.
    apply lang_Seq_inv in L as (w1 & u1 & -> & L1 & _).
    apply lang_Lit_cs in L1. subst w1.
    rewrite <- app_assoc. apply includes_app.
Qed.

Lemma splitAux_part (p t cur : jsstr) :
  ~ In ";"%char p ->
  splitAux (str "; ") (p ++ t) cur 0 = splitAux (str "; ") t (rev p ++ cur) 0.
Proof.
  revert cur. induction p as [|c p IH]; intros cur Hin; [reflexivity|].
  cbn [app splitAux str list_ascii_of_string startsWith].
  destruct (Ascii.eqb_spec ";" c) as [<-|_];
    [exfalso; apply Hin; left; reflexivity|].
  cbn [andb]. fold (str "; ").
  rewrite IH by (intros H; apply Hin; right; exact H).
  cbn [rev]. rewrite <- app_assoc. reflexivity.
Qed.

Lemma splitAux_sep (t cur : jsstr) :
  splitAux (str "; ") (str "; " ++ t) cur 0
  = rev cur :: splitAux (str "; ") t [] 0.
Proof. reflexivity. Qed.

Lemma splitAux_join (sep_parts : list jsstr) :
  forall (p cur : jsstr),
    Forall (fun q => ~ In ";"%char q) (p :: sep_parts) ->
    splitAux (str "; ") (join (str "; ") (p :: sep_parts)) cur 0
    = (rev cur ++ p) :: sep_parts.
Proof.
  induction sep_parts as [|q qs IH]; intros p cur H;
    apply Forall_cons in H as [Hp H].
  - cbn [join]. rewrite <- (app_nil_r p) at 1. rewrite splitAux_part by exact Hp.
    cbn [splitAux]. rewrite rev_app_distr, rev_involutive. reflexivity.
  - rewrite join_cons2. rewrite splitAux_part by exact Hp.
    rewrite splitAux_sep, (IH q [] H).
    rewrite rev_app_distr, rev_involutive. reflexivity.
Qed.

Lemma cutAt_app (c : ascii) (k v : jsstr) :
  ~ In c k -> cutAt c (k ++ c :: v) = Some (k, v).
Proof.
  induction k as [|x k IH]; intros H; cbn [app cutAt].
  - rewrite Ascii.eqb_refl. reflexivity.
  - destruct (Ascii.eqb_spec x c) as [->|_];
      [exfalso; apply H; left; reflexivity|].
    rewrite IH; [reflexivity|]. intros Hin. apply H. right. exact Hin.
Qed.

(** The first loop of [mergeCookies] on a header that lists clean pairs
    with distinct names. *)
Lemma setExisting_append (m : JsMap) :
  forall acc : JsMap,
    NoDup (map fst (acc ++ m)) ->
    Forall (fun kv => fst kv <> [] /\ snd kv <> []
                      /\ ~ In "="%char (fst kv ++ snd kv)) m ->
    setExisting (map (fun kv => fst kv ++ str "=" ++ snd kv) m) acc = acc ++ m.
Proof.
  induction m as [|[k v] m IH]; intros acc Hnd Hc.
  - rewrite app_nil_r. reflexivity.
  - apply Forall_cons in Hc as [(Hk & Hv & He) Hc]. cbn [fst snd] in *.
    cbn [map setExisting fold_left fst snd].
    rewrite (existingPair_plain (k ++ str "=" ++ v) k v); [|
      apply cutAt_app; intros H; apply He; apply in_or_app; left; exact H
      |exact Hk|exact Hv
      |intros H; apply He; apply in_or_app; right; exact H].
    assert (Hfresh : ~ In k (map fst acc)).
    { rewrite map_app in Hnd. apply NoDup_app in Hnd as (_ & Hdis & _).
      intros Hin. apply list_elem_of_In in Hin.
      apply (Hdis k Hin). left. }
    rewrite (mapSet_fresh k v acc Hfresh).
    replace (acc ++ (k, v) :: m) with ((acc ++ [(k, v)]) ++ m)
      by (rewrite <- app_assoc; reflexivity).
    apply (IH (acc ++ [(k, v)])); [|exact Hc].
    rewrite <- app_assoc. exact Hnd.
Qed.

(** X13. The cookie header that [mergeCookies] writes for a map reads
    back as that map: when the names are distinct and names and values
    are not empty and hold neither [;] nor [=], merging new cookies into
    the written header gives the map with the new cookies set, and
    merging nothing into it gives the same header again. *)
Theorem mergeCookies_header_roundtrip (m newCookies : JsMap) :
  NoDup (map fst m) ->
  Forall (fun kv => fst kv <> [] /\ snd kv <> []
                    /\ ~ In ";"%char (fst kv ++ snd kv)
                    /\ ~ In "="%char (fst kv ++ snd kv)) m ->
  mergeCookiesMap (mergeCookies [] m) newCookies = setAll newCookies m
  /\ mergeCookies (mergeCookies [] m) [] = mergeCookies [] m.
Proof.
  intros Hnd Hc.
  assert (Hmap : forall n : JsMap,
             mergeCookiesMap (mergeCookies [] m) n = setAll n m).
  { intros n. rewrite (mergeCookies_nil m Hnd), mergeCookiesMap_unfold.
    destruct m as [|kv m]; [reflexivity|].
    unfold split. cbn [map].
    rewrite splitAux_join.
    - cbn [rev app]. f_equal.
      apply (setExisting_append (kv :: m) []); [exact Hnd|].
      eapply Forall_impl; [exact Hc|]. cbn beta. intuition.
    - change (Forall (fun q => ~ In ";"%char q)
                (map (fun kv => fst kv ++ str "=" ++ snd kv) (kv :: m))).
      apply Forall_map. eapply Forall_impl; [exact Hc|].
      cbn beta. intros [k v] (_ & _ & Hs & _) Hin. cbn [fst snd] in *.
      apply in_app_or in Hin as [Hin|Hin];
        [apply Hs; apply in_or_app; left; exact Hin|].
      cbn [str list_ascii_of_string app] in Hin.
      destruct Hin as [Hin|Hin]; [discriminate|].
      apply Hs. apply in_or_app. right. exact Hin. }
  split; [apply Hmap|].
  unfold mergeCookies at 1. rewrite Hmap. cbn [setAll fold_left].
  symmetry. apply (mergeCookies_nil m Hnd).
Qed.

Lemma mergeCookies_header_roundtrip_witness :
  let m := [(str "__Host-IxoWeb-NL", str "abc"); (str "lang", str "en")] in
  mergeCookies [] m = str "__Host-IxoWeb-NL=abc; lang=en"
  /\ mergeCookiesMap (mergeCookies [] m) [(str "lang", str "nl")]
     = [(str "__Host-IxoWeb-NL", str "abc"); (str "lang", str "nl")].
Proof.
  intros m. split; [reflexivity|].
  assert (Hnd : NoDup (map fst m)).
  { apply NoDup_cons_2; [|apply NoDup_cons_2; [|apply NoDup_nil_2]].
    - intros H. apply list_elem_of_In in H. cbn in H.
      destruct H as [H|[]]. discriminate.
    - intros H. apply list_elem_of_In in H. destruct H. }
  assert (Hc : Forall (fun kv => fst kv <> [] /\ snd kv <> []
                                 /\ ~ In ";"%char (fst kv ++ snd kv)
                                 /\ ~ In "="%char (fst kv ++ snd kv)) m).
  { repeat constructor; cbn; try discriminate; intuition discriminate. }
  rewrite (proj1 (mergeCookies_header_roundtrip m [(str "lang", str "nl")]
                    Hnd Hc)).
  reflexivity.
Defined.

End CookieHeader.

(* ===================================================================== *)
(** * client.ts: which answers count as an expired session                *)
(* ===================================================================== *)

Section ExpiryPhrases.
Import JsString Regex RegexGroups Client ClientXml.

Lemma includes_iff (s sub : jsstr) :
  includes s sub = true <-> exists a b, s = a ++ sub ++ b.
Proof.
  split; [|intros (a & b & ->); apply includes_app].
  unfold includes. destruct (indexOfFrom s sub 0) as [i|] eqn:E;
    [|discriminate]. intros _.
  apply indexOfFrom_occurs in E. rewrite Nat.sub_0_r in E.
  apply startsWith_inv in E as [b Hb].
  exists (firstn i s), b. rewrite <- Hb. symmetry. apply firstn_skipn.
Qed.

Lemma lang_Star_Any (ci : bool) (w : jsstr) :
  lang ci (Star Any) w <-> Forall (fun c => isLineTerminator c = false) w.
Proof.
  split.
  - intros H. remember (Star Any) as r eqn:Er.
    induction H as [ | | | | | | | | r | r w1 w2 L1 _ L2 IH2 | | | | | | ];
      try discriminate.
    + constructor.
    + injection Er as ->. apply Forall_app. split; [|apply IH2; reflexivity].
      inversion L1; subst. constructor; [assumption|constructor].
  - induction 1 as [|x w Hx Hw IH]; [apply L_StarNil|].
    change (x :: w) with ([x] ++ w). apply L_StarCons; [|exact IH].
    constructor. exact Hx.
Qed.

Lemma anchorFree_phraseRe (words : list jsstr) : anchorFree (phraseRe words) = true.
Proof.
  induction words as [|word [|w2 rest] IH]; [reflexivity|apply anchorFree_Lit|].
  cbn [phraseRe anchorFree] in *. rewrite anchorFree_Lit, IH. reflexivity.
Qed.

(** The language of the pattern of a phrase is the phrase. *)
Lemma lang_phraseRe (words : list jsstr) (w : jsstr) :
  lang true (phraseRe words) w <-> phraseText words w.
Proof.
  revert w. induction words as [|word [|w2 rest] IH]; intros w.
  - cbn. split; [intros H; inversion H; reflexivity|intros ->; constructor].
  - cbn [phraseRe phraseText]. apply lang_Lit_ci.
  - change (phraseRe (word :: w2 :: rest))
      with (Seq (Lit word) (Seq dotStar (phraseRe (w2 :: rest)))).
    change (phraseText (word :: w2 :: rest) w)
      with (exists word' between w',
               w = word' ++ between ++ w'
               /\ sameText word word'
               /\ Forall (fun c => isLineTerminator c = false) between
               /\ phraseText (w2 :: rest) w').
    split.
    + intros H.
      inversion H as [ | | | | | ? ? w1 u1 H1 H2 | | | | | | | | | | ]; subst.
      inversion H2 as [ | | | | | ? ? w2' u2 H3 H4 | | | | | | | | | | ]; subst.
      exists w1, w2', u2. split; [reflexivity|].
      split; [apply lang_Lit_ci; exact H1|].
      split; [apply (proj1 (lang_Star_Any true w2')); exact H3|apply IH; exact H4].
    + intros (word' & between & w' & -> & Hw & Hb & Hr).
      constructor; [apply lang_Lit_ci; exact Hw|].
      constructor; [apply (proj2 (lang_Star_Any true between)); exact Hb|apply IH; exact Hr].
Qed.

Lemma patterns_are_phrases :
  SESSION_EXPIRY_PATTERNS = map phraseRe SESSION_EXPIRY_PHRASES.
Proof. reflexivity. Qed.

(** X14. An answer is classified as an expired session exactly when it
    holds one of the six phrases (the words [session] and [expired],
    [invalid] and [session], [not], [logged] and [in], [login] and
    [required], [authentication] and [failed], in that order on one line
    and in any letter case, or the word [unauthorized]) or one of the
    texts [<!DOCTYPE html] and [<html] as written.  Nothing else about
    the answer matters: not where the phrase stands, nor what the answer
    is otherwise. *)
Theorem isSessionExpiredResponse_iff (xml : jsstr) :
  isSessionExpiredResponse xml = true
  <-> (exists words a w b,
          In words SESSION_EXPIRY_PHRASES
          /\ xml = a ++ w ++ b /\ phraseText words w)
      \/ (exists a b, xml = a ++ str "<!DOCTYPE html" ++ b)
      \/ (exists a b, xml = a ++ str "<html" ++ b).
Proof.
  unfold isSessionExpiredResponse. rewrite patterns_are_phrases.
  rewrite <- !includes_iff.
  assert (Hp : existsb (fun pattern => test true pattern xml)
                 (map phraseRe SESSION_EXPIRY_PHRASES) = true
               <-> exists words a w b,
                     In words SESSION_EXPIRY_PHRASES
                     /\ xml = a ++ w ++ b /\ phraseText words w).
  { rewrite existsb_exists. split.
    - intros (pattern & Hin & Ht). apply in_map_iff in Hin as (words & <- & Hin).
      apply test_iff_lang in Ht as (a & w & b & -> & L);
        [|apply anchorFree_phraseRe].
      exists words, a, w, b. split; [exact Hin|]. split; [reflexivity|].
      apply lang_phraseRe. exact L.
    - intros (words & a & w & b & Hin & -> & Hw).
      exists (phraseRe words). split; [apply in_map; exact Hin|].
      apply test_iff_lang; [apply anchorFree_phraseRe|].
      exists a, w, b. split; [reflexivity|]. apply lang_phraseRe. exact Hw. }
  destruct (existsb _ (map phraseRe SESSION_EXPIRY_PHRASES)).
  - split; [intros _; left; apply Hp; reflexivity|reflexivity].
  - destruct (includes xml (str "<!DOCTYPE html")) eqn:E1; cbn [orb].
    + split; [intros _; right; left; reflexivity|reflexivity].
    + destruct (includes xml (str "<html")) eqn:E2.
      * split; [intros _; right; right; reflexivity|reflexivity].
      * split; [discriminate|].
        intros [H|[H|H]]; [apply Hp in H|..]; discriminate.
Qed.

End ExpiryPhrases.

(* ===================================================================== *)
(** * The API routes                                                      *)
(* ===================================================================== *)

Section EobtFormat.
Import JsString Regex RegexGroups Client ClientXml SessionStore Routes.

Lemma eobtRe_only_at_start (pos : nat) (s : jsstr) :
  search false eobtRe (S pos) s = None.
Proof.
  revert pos. induction s as [|x s IH]; intros pos; cbn [search].
  - reflexivity.
  - change (matchAt false eobtRe (S pos) (x :: s)) with (@None mres).
    apply IH.
Qed.

Lemma test_eobtRe (s : jsstr) :
  test false eobtRe s
  = match matchAt false eobtRe 0 s with Some _ => true | None => false end.
Proof.
  unfold test, exec. destruct s as [|x s]; cbn [search].
  - destruct (matchAt false eobtRe 0 []); reflexivity.
  - destruct (matchAt false eobtRe 0 (x :: s)); [reflexivity|].
    rewrite eobtRe_only_at_start. reflexivity.
Qed.

Lemma digit_class (x : ascii) : setMatches false [IDigit] x = isDigit x.
Proof. unfold setMatches, itemsHave. cbn. rewrite !orb_false_r. reflexivity. Qed.

Lemma validEobt_digits (newEobt : jsstr) :
  validEobt newEobt = true
  <-> length newEobt = 4 /\ forallb isDigit newEobt = true.
Proof.
  unfold validEobt. rewrite test_eobtRe.
  destruct newEobt as [|a [|b [|c [|d [|e rest]]]]];
    unfold matchAt, eobtRe, Repeat; cbn [run]; rewrite ?digit_class;
    cbn [truthy negb orb forallb length];
    repeat match goal with
           | |- context [isDigit ?x] => destruct (isDigit x)
           end;
    cbn; (split; intros H; try discriminate H;
          try (apply proj1 in H as H1; discriminate H1);
          try (apply proj2 in H as H2; discriminate H2);
          auto).
Qed.

(** X15. A new EOBT passes the test of the delay route and of the delay
    dialog exactly when it is four characters long and each of them is a
    digit: no range of hours or minutes is checked, and nothing may
    stand before or after the digits. *)
Theorem validEobt_iff (newEobt : jsstr) :
  validEobt newEobt = true
  <-> length newEobt = 4 /\ forallb isDigit newEobt = true.
Proof. exact (validEobt_digits newEobt). Qed.

End EobtFormat.

Section DelayRoute.
Import JsString Regex RegexGroups Client ClientXml SessionStore Routes.

Lemma truthy_nonempty (s : jsstr) : truthy s = true <-> s <> [].
Proof. destruct s; cbn; split; intros; congruence. Qed.

Lemma getSession_Some (nowCheck nowExtend : Z) (sessionId : jsstr) (st st1 : Store)
  (session1 : HomebriefingSession) :
  getSession nowCheck nowExtend sessionId st = (Some session1, st1) ->
  exists session,
    sessions st !! sessionId = Some session
    /\ (nowCheck <= expiresAt session)%Z
    /\ session1 = setExpiresAt (nowExtend + SESSION_TIMEOUT) session
    /\ st1 = {| sessions := <[sessionId := session1]> (sessions st);
                pendingLogins := pendingLogins st |}.
Proof.
  unfold getSession. destruct (sessions st !! sessionId) as [session|];
    [|discriminate].
  destruct (Z.gtb_spec nowCheck (expiresAt session)) as [Hgt|Hle];
    [discriminate|].
  intros [= <- <-]. exists session. repeat split. exact Hle.
Qed.

(** X16. The delay route lets the portal decide nothing unless the
    request comes with the cookie of a stored session that has not
    expired, a flight plan id that [parseInt] reads as a number, and a
    new EOBT of exactly four digits: whenever two portals would lead to
    different outcomes (answer, cookie change or store), all of these
    hold. *)
Theorem delayRoute_asks_only_when_valid (portal portal' : SoapCall -> jsstr)
  (nowCheck nowExtend : Z) (cookie : option jsstr) (flId : jsstr)
  (newEobt : option jsstr) (st : Store) :
  delayRoute portal nowCheck nowExtend cookie flId newEobt st
  <> delayRoute portal' nowCheck nowExtend cookie flId newEobt st ->
  exists sessionId session n eobt,
    cookie = Some sessionId /\ sessionId <> []
    /\ sessions st !! sessionId = Some session
    /\ (nowCheck <= expiresAt session)%Z
    /\ parseInt flId = Some n
    /\ newEobt = Some eobt /\ length eobt = 4 /\ forallb isDigit eobt = true
    /\ portal (delayCall session n eobt) <> portal' (delayCall session n eobt).
Proof.
  unfold delayRoute. intros Hne.
  destruct cookie as [sessionId|]; [|contradiction].
  destruct (truthy sessionId) eqn:Ht; cbn [negb] in Hne; [|contradiction].
  destruct (getSession nowCheck nowExtend sessionId st) as [[session1|] st1] eqn:Hg;
    [|contradiction].
  apply getSession_Some in Hg as (session & Hs & Hle & -> & ->).
  destruct (parseInt flId) as [n|]; [|contradiction].
  destruct (validEobt (default [] newEobt)) eqn:Hv; cbn [negb] in Hne;
    [|contradiction].
  apply validEobt_digits in Hv as [Hlen Hdig].
  destruct newEobt as [eobt|]; [|discriminate Hlen].
  change (default [] (Some eobt)) with eobt in *.
  exists sessionId, session, n, eobt.
  split; [reflexivity|]. split; [apply truthy_nonempty; exact Ht|].
  do 6 (split; [first [assumption|reflexivity]|]).
  intros Heq. apply Hne.
  set (session1 := setExpiresAt (nowExtend + SESSION_TIMEOUT) session).
  assert (Hsend :
    sendDelay portal (SessionStore.cookies session1) (SessionStore.token session1)
              (SessionStore.userSession session1) n eobt
    = sendDelay portal' (SessionStore.cookies session1)
                (SessionStore.token session1)
                (SessionStore.userSession session1) n eobt).
  { unfold sendDelay. exact (f_equal parseActionResponse Heq). }
  rewrite Hsend. reflexivity.
Qed.

Lemma delayRoute_asks_only_when_valid_witness :
  exists sessionId session n eobt,
    Some (str "a1") = Some sessionId /\ sessionId <> []
    /\ sessions RouteExamples.pilotStore !! sessionId = Some session
    /\ (1000 <= expiresAt session)%Z
    /\ parseInt (str "42") = Some n
    /\ Some (str "1230") = Some eobt /\ length eobt = 4
    /\ forallb isDigit eobt = true
    /\ RouteExamples.portalSent (delayCall session n eobt)
       <> RouteExamples.portalExpired (delayCall session n eobt).
Proof.
  apply (delayRoute_asks_only_when_valid RouteExamples.portalSent
           RouteExamples.portalExpired 1000 1000 (Some (str "a1")) (str "42")
           (Some (str "1230")) RouteExamples.pilotStore).
  intros H. apply (f_equal (fun out => snd (fst out))) in H.
  vm_compute in H. discriminate H.
Defined.

Lemma parseActionResponse_expired (xml : jsstr) :
  FlightPlanActionResponse.sessionExpired (parseActionResponse xml) = Some true
  <-> isSessionExpiredResponse xml = true.
Proof.
  unfold parseActionResponse. destruct (isSessionExpiredResponse xml); cbn;
    split; intros; congruence.
Qed.

Lemma authCheckRoute_absent (nowCheck nowExtend : Z) (sessionId : jsstr)
  (st : Store) :
  sessions st !! sessionId = None ->
  authCheckRoute nowCheck nowExtend (Some sessionId) st = (false, st).
Proof.
  intros H. unfold authCheckRoute. destruct (truthy sessionId); [|reflexivity].
  cbn [negb]. rewrite getSession_absent by exact H. reflexivity.
Qed.

Lemma authCheckRoute_live (nowCheck nowExtend : Z) (sessionId : jsstr)
  (st : Store) (session : HomebriefingSession) :
  sessionId <> [] ->
  sessions st !! sessionId = Some session ->
  (nowCheck <= expiresAt session)%Z ->
  fst (authCheckRoute nowCheck nowExtend (Some sessionId) st) = true.
Proof.
  intros Hid Hs Hle. unfold authCheckRoute.
  apply truthy_nonempty in Hid. rewrite Hid. cbn [negb].
  rewrite (getSession_live _ _ _ _ _ Hs Hle). reflexivity.
Qed.

(** X17. A delay request with the cookie of a live session, a numeric
    flight plan id and a four-digit EOBT is passed to the portal with the
    cookies, the token and the session handle of that session.  If the
    answer of the portal counts as an expired session, the route answers
    401 with the code SESSION_EXPIRED, deletes the cookie and forgets the
    session, so that the next check of the same cookie says not
    authenticated, while every other session stays as it was; otherwise
    it answers 200 with the parsed answer, keeps the cookie, and the
    session is extended to thirty minutes after the request. *)
Theorem delayRoute_forwards (portal : SoapCall -> jsstr) (nowCheck nowExtend : Z)
  (sessionId : jsstr) (session : HomebriefingSession) (flId : jsstr) (n : Z)
  (eobt : jsstr) (st : Store) :
  sessionId <> [] ->
  sessions st !! sessionId = Some session ->
  (nowCheck <= expiresAt session)%Z ->
  parseInt flId = Some n ->
  length eobt = 4 -> forallb isDigit eobt = true ->
  let xml := portal (delayCall session n eobt) in
  let out := delayRoute portal nowCheck nowExtend (Some sessionId) flId
                        (Some eobt) st in
  (isSessionExpiredResponse xml = true ->
   fst out = (portalSessionExpired, CookieDeleted)
   /\ (forall nc ne,
         authCheckRoute nc ne (Some sessionId) (snd out) = (false, snd out))
   /\ (forall other, other <> sessionId ->
         sessions (snd out) !! other = sessions st !! other))
  /\ (isSessionExpiredResponse xml = false ->
      fst out = (Answer200 (parseActionResponse xml), CookieKept)
      /\ sessions (snd out) !! sessionId
         = Some (setExpiresAt (nowExtend + SESSION_TIMEOUT) session)
      /\ (forall nc ne, (nc <= nowExtend + SESSION_TIMEOUT)%Z ->
            fst (authCheckRoute nc ne (Some sessionId) (snd out)) = true)
      /\ (forall other, other <> sessionId ->
            sessions (snd out) !! other = sessions st !! other)).
Proof.
  intros Hid Hs Hle Hn Hlen Hdig xml out.
  assert (Hv : validEobt eobt = true) by (apply validEobt_digits; auto).
  assert (Hout : out
    = if isSessionExpiredResponse xml
      then (portalSessionExpired, CookieDeleted,
            deleteSession sessionId
              {| sessions := <[sessionId := setExpiresAt (nowExtend + SESSION_TIMEOUT) session]> (sessions st);
                 pendingLogins := pendingLogins st |})
      else (Answer200 (parseActionResponse xml), CookieKept,
            {| sessions := <[sessionId := setExpiresAt (nowExtend + SESSION_TIMEOUT) session]> (sessions st);
               pendingLogins := pendingLogins st |})).
  { unfold out, delayRoute.
    apply truthy_nonempty in Hid. rewrite Hid. cbn [negb].
    rewrite (getSession_live _ _ _ _ _ Hs Hle), Hn.
    change (default [] (Some eobt)) with eobt. rewrite Hv. cbn [negb].
    unfold sendDelay.
    change {| soapCookies := _; soapToken := _; soapRequest := _ |}
      with (delayCall session n eobt).
    fold xml.
    destruct (isSessionExpiredResponse xml) eqn:E.
    - rewrite bool_decide_eq_true_2; [reflexivity|].
      apply parseActionResponse_expired. exact E.
    - rewrite bool_decide_eq_false_2; [reflexivity|].
      intros H. apply parseActionResponse_expired in H. congruence. }
  rewrite Hout. split; intros E; rewrite E.
  - split; [reflexivity|]. cbn [snd fst]. split.
    + intros nc ne. apply authCheckRoute_absent. cbn. apply lookup_delete_eq.
    + intros other Hne. cbn.
      rewrite lookup_delete_ne by congruence.
      rewrite lookup_insert_ne by congruence. reflexivity.
  - split; [reflexivity|]. cbn [snd fst sessions]. split; [|split].
    + apply lookup_insert_eq.
    + intros nc ne Hnc.
      eapply authCheckRoute_live; [exact Hid|cbn; apply lookup_insert_eq|].
      cbn. exact Hnc.
    + intros other Hne. rewrite lookup_insert_ne by congruence. reflexivity.
Qed.

Lemma delayRoute_forwards_witness :
  let portal := RouteExamples.portalSent in
  let session := RouteExamples.pilotSession in
  let st := RouteExamples.pilotStore in
  let xml := portal (delayCall session 42 (str "1230")) in
  let out := delayRoute portal 1000 1000 (Some (str "a1")) (str "42")
                        (Some (str "1230")) st in
  (isSessionExpiredResponse xml = true ->
   fst out = (portalSessionExpired, CookieDeleted)
   /\ (forall nc ne,
         authCheckRoute nc ne (Some (str "a1")) (snd out) = (false, snd out))
   /\ (forall other, other <> str "a1" ->
         sessions (snd out) !! other = sessions st !! other))
  /\ (isSessionExpiredResponse xml = false ->
      fst out = (Answer200 (parseActionResponse xml), CookieKept)
      /\ sessions (snd out) !! str "a1"
         = Some (setExpiresAt (1000 + SESSION_TIMEOUT) session)
      /\ (forall nc ne, (nc <= 1000 + SESSION_TIMEOUT)%Z ->
            fst (authCheckRoute nc ne (Some (str "a1")) (snd out)) = true)
      /\ (forall other, other <> str "a1" ->
            sessions (snd out) !! other = sessions st !! other)).
Proof.
  cbv zeta.
  apply (delayRoute_forwards RouteExamples.portalSent 1000 1000 (str "a1")
           RouteExamples.pilotSession (str "42") 42 (str "1230")
           RouteExamples.pilotStore).
  - discriminate.
  - reflexivity.
  - vm_compute. discriminate.
  - reflexivity.
  - reflexivity.
  - reflexivity.
Defined.

End DelayRoute.

Section LoginRoute.
Import JsString Regex RegexGroups Client ClientXml SessionStore Routes.

Lemma submitLogin_success_fields (fetch : nat -> Request -> Response)
  (cookies0 token0 username password captcha : jsstr) :
  Client.success (submitLogin fetch cookies0 token0 username password captcha)
  = true ->
  exists newCookies newToken session,
    submitLogin fetch cookies0 token0 username password captcha
    = {| Client.success := true; Client.cookies := Some newCookies;
         Client.token := Some newToken; Client.userSession := Some session;
         Client.error := None |}.
Proof.
  rewrite submitLogin_cases.
  destruct (requestFailed _ _ _ _ _ _); [discriminate|].
  destruct (errorMarker _ _ _ _ _ _); [discriminate|].
  destruct (backToLogin _ _ _ _ _ _); [discriminate|].
  destruct (exec false appCtrlRe _) as [m|] eqn:E; [|discriminate].
  destruct (exec_mandatory_groups false appCtrlRe _ m 1 E)
    as [newToken H1]; [vm_compute; auto|].
  destruct (exec_mandatory_groups false appCtrlRe _ m 2 E)
    as [session H2]; [vm_compute; auto|].
  intros _. rewrite H1, H2. eauto.
Qed.

Lemma getPendingLogin_Some (now : Z) (sessionId : jsstr) (st st1 : Store)
  (pending : PendingLogin) :
  getPendingLogin now sessionId st = (Some pending, st1) ->
  pendingLogins st !! sessionId = Some pending
  /\ (now - createdAt pending <= PENDING_TIMEOUT)%Z /\ st1 = st.
Proof.
  unfold getPendingLogin.
  destruct (pendingLogins st !! sessionId) as [p|]; [|discriminate].
  destruct (Z.gtb_spec (now - createdAt p) PENDING_TIMEOUT) as [Hgt|Hle];
    [discriminate|].
  intros [= <- <-]. auto.
Qed.

Lemma getPendingLogin_None (now : Z) (sessionId : jsstr) (st st1 : Store) :
  getPendingLogin now sessionId st = (None, st1) ->
  sessions st1 = sessions st.
Proof.
  unfold getPendingLogin.
  destruct (pendingLogins st !! sessionId) as [p|]; [|intros [= <-]; reflexivity].
  destruct (_ >? _)%Z; [|discriminate]. intros [= <-]. reflexivity.
Qed.

Lemma orElse_nonempty (x : option jsstr) (fallback : jsstr) :
  fallback <> [] -> orElse x fallback <> [].
Proof.
  intros H. unfold orElse. destruct x as [v|]; [|exact H].
  destruct (truthy v) eqn:E; [|exact H]. apply truthy_nonempty. exact E.
Qed.

(** X18. The login route opens a session only when the portal accepted
    the login.  It answers 200 only if the four fields are non-empty
    texts, a pending login of at most five minutes is stored under the
    session id, and [submitLogin], called with the cookies and the token
    of that pending login, succeeded; it then sets the cookie to the
    session id for thirty minutes, stores the credentials that
    [submitLogin] returned with an expiry thirty minutes ahead, and
    removes the pending login.  Every other answer is a 400 or a 401 with
    a non-empty error text, leaves the cookie and all sessions as they
    were, and a 400 (a missing field) changes nothing and does not
    depend on the portal. *)
Theorem loginRoute_outcomes (fetch : nat -> Request -> Response)
  (nowPending nowActivate : Z)
  (sessionId username password captcha : option jsstr) (st : Store) :
  let out := loginRoute fetch nowPending nowActivate sessionId username
                        password captcha st in
  (forall body, fst (fst out) = Answer200 body ->
     exists id u p c pending newCookies newToken session,
       sessionId = Some id /\ username = Some u /\ password = Some p
       /\ captcha = Some c
       /\ id <> [] /\ u <> [] /\ p <> [] /\ c <> []
       /\ pendingLogins st !! id = Some pending
       /\ (nowPending - createdAt pending <= PENDING_TIMEOUT)%Z
       /\ submitLogin fetch (pendingCookies pending) (pendingToken pending) u p c
          = {| Client.success := true; Client.cookies := Some newCookies;
               Client.token := Some newToken;
               Client.userSession := Some session; Client.error := None |}
       /\ snd (fst out) = CookieSet id (30 * 60)
       /\ sessions (snd out)
          = <[id := {| SessionStore.cookies := newCookies;
                       SessionStore.token := newToken;
                       SessionStore.userSession := session;
                       expiresAt := (nowActivate + SESSION_TIMEOUT)%Z |}]>
              (sessions st)
       /\ pendingLogins (snd out) = delete id (pendingLogins st))
  /\ (forall status error code,
        fst (fst out) = AnswerError status error code ->
        (status = 400 \/ status = 401)%Z /\ error <> [] /\ code = None
        /\ snd (fst out) = CookieKept
        /\ sessions (snd out) = sessions st
        /\ (status = 400%Z ->
            snd out = st
            /\ forall fetch',
                 loginRoute fetch' nowPending nowActivate sessionId username
                            password captcha st = out)).
Proof.
  cbv zeta. unfold loginRoute.
  destruct sessionId as [id|], username as [u|], password as [p|],
    captcha as [c|];
    try (split; [intros body H; discriminate H|];
         intros status error code [= <- <- <-]; cbn [fst snd];
         split; [left; reflexivity|]; split; [discriminate|];
         repeat (split; [reflexivity|]); intros _; split; reflexivity).
  destruct (truthy id) eqn:Hid, (truthy u) eqn:Hu, (truthy p) eqn:Hp,
    (truthy c) eqn:Hc; cbn [negb orb];
    try (split; [intros body H; discriminate H|];
         intros status error code [= <- <- <-]; cbn [fst snd];
         split; [left; reflexivity|]; split; [discriminate|];
         repeat (split; [reflexivity|]); intros _; split; reflexivity).
  destruct (getPendingLogin nowPending id st) as [[pending|] st1] eqn:Hg.
  - apply getPendingLogin_Some in Hg as (Hpl & Hle & ->).
    destruct (Client.success (submitLogin fetch (pendingCookies pending)
                (pendingToken pending) u p c)) eqn:Hok; cbn [negb].
    + destruct (submitLogin_success_fields _ _ _ _ _ _ Hok)
        as (newCookies & newToken & session & Hres).
      rewrite Hres. cbn [fst snd activateSession assertDefined default
        Client.cookies Client.token Client.userSession].
      split; [|intros status error code H; discriminate H].
      intros body _.
      exists id, u, p, c, pending, newCookies, newToken, session.
      repeat (split; [first [reflexivity | assumption
                            | apply truthy_nonempty; assumption]|]).
      reflexivity.
    + split; [intros body H; discriminate H|].
      intros status error code [= <- <- <-]. cbn [fst snd].
      split; [right; reflexivity|].
      split; [apply orElse_nonempty; discriminate|].
      repeat (split; [reflexivity|]). discriminate.
  - split; [intros body H; discriminate H|].
    intros status error code [= <- <- <-]. cbn [fst snd].
    split; [right; reflexivity|]. split; [discriminate|].
    split; [reflexivity|]. split; [reflexivity|].
    split; [eapply getPendingLogin_None; exact Hg|discriminate].
Qed.

End LoginRoute.

Section LoginFlow.
Import JsString Regex RegexGroups Client ClientXml SessionStore Routes.

Lemma initRoute_Answer200 (loginPage : Response) (id : jsstr) (now : Z)
  (st st1 : Store) (id' : jsstr) :
  initRoute loginPage id now st = (Answer200 id', st1) ->
  id' = id
  /\ exists cookies token,
       initLogin loginPage = InitLoginResult cookies token
       /\ st1 = {| sessions := sessions st;
                   pendingLogins :=
                     <[id := {| pendingCookies := cookies;
                                pendingToken := token;
                                createdAt := now |}]> (pendingLogins st) |}.
Proof.
  unfold initRoute. destruct (initLogin loginPage) as [cookies token|msg];
    [|discriminate].
  cbn. intros [= <- <-]. split; [reflexivity|]. eauto.
Qed.

(** X19. The two steps of a login fit together.  When the init route
    answered with a session id and the login route is called with that
    id and non-empty credentials at most five minutes later, the portal
    login is submitted with exactly the cookies and the token that
    [initLogin] took from the login page.  If it succeeds, the route
    answers 200 and sets the cookie, every check of that cookie within
    the next thirty minutes says authenticated, and the session id cannot
    be used for a second login: with any credentials and any portal the
    login route no longer answers 200.  If it fails, the route answers
    401 with the error of [submitLogin] and the store is as it was after
    the init step, so the same id can be tried again. *)
Theorem login_flow (fetch : nat -> Request -> Response) (loginPage : Response)
  (id : jsstr) (now nowPending nowActivate : Z) (u p c : jsstr)
  (st st1 : Store) (id' : jsstr) :
  initRoute loginPage id now st = (Answer200 id', st1) ->
  (nowPending - now <= PENDING_TIMEOUT)%Z ->
  id <> [] -> u <> [] -> p <> [] -> c <> [] ->
  id' = id
  /\ exists cookies token,
       initLogin loginPage = InitLoginResult cookies token
       /\ let result := submitLogin fetch cookies token u p c in
          let out := loginRoute fetch nowPending nowActivate (Some id') (Some u)
                                (Some p) (Some c) st1 in
          (Client.success result = true ->
           fst out = (Answer200 LoginSuccessful, CookieSet id (30 * 60))
           /\ (forall nc ne, (nc <= nowActivate + SESSION_TIMEOUT)%Z ->
                 fst (authCheckRoute nc ne (Some id) (snd out)) = true)
           /\ (forall fetch' n1 n2 u' p' c' body,
                 fst (fst (loginRoute fetch' n1 n2 (Some id) u' p' c' (snd out)))
                 <> Answer200 body))
          /\ (Client.success result = false ->
              out = (AnswerError 401 (orElse (Client.error result)
                                             (str "Login failed")) None,
                     CookieKept, st1)).
Proof.
  intros Hinit Hle Hid Hu Hp Hc.
  apply initRoute_Answer200 in Hinit as (-> & cookies & token & Hlogin & ->).
  split; [reflexivity|]. exists cookies, token. split; [exact Hlogin|].
  intros result out.
  apply truthy_nonempty in Hu, Hp, Hc.
  pose proof Hid as Hid'. apply truthy_nonempty in Hid'.
  assert (Hout : out
    = if negb (Client.success result)
      then (AnswerError 401 (orElse (Client.error result) (str "Login failed"))
                        None, CookieKept,
            {| sessions := sessions st;
               pendingLogins :=
                 <[id := {| pendingCookies := cookies; pendingToken := token;
                            createdAt := now |}]> (pendingLogins st) |})
      else (Answer200 LoginSuccessful, CookieSet id (30 * 60),
            snd (activateSession nowActivate id
                   (assertDefined (Client.cookies result))
                   (assertDefined (Client.token result))
                   (assertDefined (Client.userSession result))
                   {| sessions := sessions st;
                      pendingLogins :=
                        <[id := {| pendingCookies := cookies;
                                   pendingToken := token;
                                   createdAt := now |}]> (pendingLogins st) |}))).
  { unfold out, loginRoute. rewrite Hid', Hu, Hp, Hc. cbn [negb orb].
    unfold getPendingLogin. cbn [pendingLogins]. rewrite lookup_insert_eq.
    cbn [createdAt].
    destruct (Z.gtb_spec (nowPending - now) PENDING_TIMEOUT) as [Hgt|_]; [lia|].
    cbn [pendingCookies pendingToken]. fold result.
    destruct (negb (Client.success result)); reflexivity. }
  rewrite Hout.
  split; intros Hok; rewrite Hok; cbn [negb]; [|reflexivity].
  destruct (submitLogin_success_fields _ _ _ _ _ _ Hok)
    as (newCookies & newToken & session & Hres).
  fold result in Hres. rewrite Hres.
  cbn [fst snd activateSession assertDefined default
    Client.cookies Client.token Client.userSession sessions pendingLogins].
  split; [reflexivity|]. split.
  - intros nc ne Hnc.
    eapply authCheckRoute_live; [exact Hid|cbn; apply lookup_insert_eq|].
    cbn. exact Hnc.
  - intros fetch' n1 n2 u' p' c' body. unfold loginRoute.
    destruct u' as [u'|], p' as [p'|], c' as [c'|]; try discriminate.
    destruct (negb (truthy id) || negb (truthy u') || negb (truthy p')
              || negb (truthy c')); [discriminate|].
    unfold getPendingLogin. cbn [pendingLogins].
    rewrite lookup_delete_eq. discriminate.
Qed.

Lemma login_flow_witness :
  let fetch := LoginExamples.portalUp in
  let st1 := snd (initRoute RouteExamples.loginPage (str "a1") 0 emptyStore) in
  str "a1" = str "a1"
  /\ exists cookies token,
       initLogin RouteExamples.loginPage = InitLoginResult cookies token
       /\ let result := submitLogin fetch cookies token (str "pilot")
                                    (str "secret") (str "x7k2") in
          let out := loginRoute fetch 60000 61000 (Some (str "a1"))
                       (Some (str "pilot")) (Some (str "secret"))
                       (Some (str "x7k2")) st1 in
          (Client.success result = true ->
           fst out = (Answer200 LoginSuccessful, CookieSet (str "a1") (30 * 60))
           /\ (forall nc ne, (nc <= 61000 + SESSION_TIMEOUT)%Z ->
                 fst (authCheckRoute nc ne (Some (str "a1")) (snd out)) = true)
           /\ (forall fetch' n1 n2 u' p' c' body,
                 fst (fst (loginRoute fetch' n1 n2 (Some (str "a1")) u' p' c'
                                      (snd out)))
                 <> Answer200 body))
          /\ (Client.success result = false ->
              out = (AnswerError 401 (orElse (Client.error result)
                                             (str "Login failed")) None,
                     CookieKept, st1)).
Proof.
  cbv zeta.
  apply (login_flow LoginExamples.portalUp RouteExamples.loginPage (str "a1")
           0 60000 61000 (str "pilot") (str "secret") (str "x7k2") emptyStore
           (snd (initRoute RouteExamples.loginPage (str "a1") 0 emptyStore))
           (str "a1")).
  - vm_compute. reflexivity.
  - vm_compute. discriminate.
  - discriminate.
  - discriminate.
  - discriminate.
  - discriminate.
Defined.

(** X20. Logging out ends the session of the cookie and nothing else:
    the route always deletes the cookie; afterwards every check of the
    same cookie says not authenticated, a delay request with it is
    refused with a 401 whatever the portal would say, and the sessions
    and pending logins stored under other ids are as before. *)
Theorem logoutRoute_ends_session (cookie : option jsstr) (st : Store) :
  let out := logoutRoute cookie st in
  fst out = CookieDeleted
  /\ (forall nc ne, authCheckRoute nc ne cookie (snd out) = (false, snd out))
  /\ (forall portal nc ne flId newEobt,
        exists error,
          delayRoute portal nc ne cookie flId newEobt (snd out)
          = (AnswerError 401 error None, CookieKept, snd out))
  /\ (forall other, cookie <> Some other ->
        sessions (snd out) !! other = sessions st !! other
        /\ pendingLogins (snd out) !! other = pendingLogins st !! other).
Proof.
  cbv zeta. unfold logoutRoute.
  destruct cookie as [sessionId|].
  - destruct (truthy sessionId) eqn:Ht; cbn [fst snd].
    + split; [reflexivity|]. split; [|split].
      * intros nc ne. apply authCheckRoute_absent. cbn. apply lookup_delete_eq.
      * intros portal nc ne flId newEobt. exists (str "Session expired").
        unfold delayRoute. rewrite Ht. cbn [negb].
        rewrite getSession_absent by (cbn; apply lookup_delete_eq).
        reflexivity.
      * intros other Hne. cbn.
        rewrite !lookup_delete_ne by congruence. auto.
    + split; [reflexivity|]. split; [|split].
      * intros nc ne. unfold authCheckRoute. rewrite Ht. reflexivity.
      * intros portal nc ne flId newEobt. exists (str "Not authenticated").
        unfold delayRoute. rewrite Ht. reflexivity.
      * auto.
  - cbn [fst snd]. split; [reflexivity|]. split; [|split].
    + reflexivity.
    + intros. exists (str "Not authenticated"). reflexivity.
    + auto.
Qed.

Lemma parseDeleteTemplateResponse_expired (xml : jsstr) :
  DeleteTemplateResponse.sessionExpired (parseDeleteTemplateResponse xml)
  = Some true
  <-> isSessionExpiredResponse xml = true.
Proof.
  unfold parseDeleteTemplateResponse.
  destruct (isSessionExpiredResponse xml); cbn; split; intros; congruence.
Qed.

(** X21. The delete route for templates reports success only on the
    word of the portal: it answers 200 only for the cookie of a live
    session and a numeric template id, when the answer of the portal to
    the delete request of that session does not count as an expired
    session, its [IsError] element is not 1, and its [DeletedTplId]
    element starts with a number other than zero; the id in the answer
    of the route is that number, whatever id was asked for. *)
Theorem deleteTemplateRoute_success (portal : SoapCall -> jsstr)
  (nowCheck nowExtend : Z) (cookie : option jsstr) (tplId : jsstr) (st : Store)
  (body : DeletedBody) :
  fst (fst (deleteTemplateRoute portal nowCheck nowExtend cookie tplId st))
  = Answer200 body ->
  exists sessionId session n deleted,
    cookie = Some sessionId /\ sessionId <> []
    /\ sessions st !! sessionId = Some session
    /\ (nowCheck <= expiresAt session)%Z
    /\ parseInt tplId = Some n
    /\ let xml := portal (deleteTemplateCall session n) in
       isSessionExpiredResponse xml = false
       /\ getTagValue (str "IsError") xml <> str "1"
       /\ parseInt (getTagValue (str "DeletedTplId") xml) = Some deleted
       /\ deleted <> 0%Z
       /\ body = {| deletedTplId := Some deleted |}.
Proof.
  unfold deleteTemplateRoute. intros H.
  destruct cookie as [sessionId|]; [|discriminate].
  destruct (truthy sessionId) eqn:Ht; cbn [negb] in H; [|discriminate].
  destruct (getSession nowCheck nowExtend sessionId st) as [[session1|] st1] eqn:Hg;
    [|discriminate].
  apply getSession_Some in Hg as (session & Hs & Hle & -> & ->).
  destruct (parseInt tplId) as [n|]; [|discriminate].
  unfold deleteTemplate in H.
  change {| soapCookies := _; soapToken := _; soapRequest := _ |}
    with (deleteTemplateCall session n) in H.
  set (xml := portal (deleteTemplateCall session n)) in *.
  destruct (bool_decide _) eqn:Hexp in H; [discriminate|].
  apply bool_decide_eq_false in Hexp.
  assert (Hne : isSessionExpiredResponse xml = false).
  { destruct (isSessionExpiredResponse xml) eqn:E; [|reflexivity].
    exfalso. apply Hexp. apply parseDeleteTemplateResponse_expired. exact E. }
  destruct (_ || _) eqn:Hfail in H; [discriminate|].
  cbn [fst] in H. injection H as <-.
  unfold parseDeleteTemplateResponse in Hfail |- *. rewrite Hne in Hfail |- *.
  cbn [DeleteTemplateResponse.isError DeleteTemplateResponse.success
       DeleteTemplateResponse.deletedTplId] in Hfail |- *.
  apply orb_false_iff in Hfail as [Herr Hsucc].
  rewrite Herr in Hsucc. cbn [negb andb] in Hsucc.
  unfold parseIntOrUndefined in Hsucc |- *.
  destruct (parseInt (getTagValue (str "DeletedTplId") xml)) as [deleted|] eqn:Hd;
    [|discriminate].
  destruct (Z.eqb_spec deleted 0) as [->|Hnz]; [discriminate|].
  exists sessionId, session, n, deleted.
  split; [reflexivity|]. split; [apply truthy_nonempty; exact Ht|].
  do 3 (split; [first [assumption|reflexivity]|]).
  cbv zeta. fold xml. split; [exact Hne|]. split.
  - apply eqb_false. exact Herr.
  - split; [exact Hd|]. split; [exact Hnz|reflexivity].
Qed.

Lemma deleteTemplateRoute_success_witness :
  exists sessionId session n deleted,
    Some (str "a1") = Some sessionId /\ sessionId <> []
    /\ sessions RouteExamples.pilotStore !! sessionId = Some session
    /\ (1000 <= expiresAt session)%Z
    /\ parseInt (str "12") = Some n
    /\ let xml := RouteExamples.portalDeleted (deleteTemplateCall session n) in
       isSessionExpiredResponse xml = false
       /\ getTagValue (str "IsError") xml <> str "1"
       /\ parseInt (getTagValue (str "DeletedTplId") xml) = Some deleted
       /\ deleted <> 0%Z
       /\ {| deletedTplId := Some 7%Z |} = {| deletedTplId := Some deleted |}.
Proof.
  apply (deleteTemplateRoute_success RouteExamples.portalDeleted 1000 1000
           (Some (str "a1")) (str "12") RouteExamples.pilotStore
           {| deletedTplId := Some 7%Z |}).
  vm_compute. reflexivity.
Defined.

End LoginFlow.

(* ===================================================================== *)
(** * Field 19: when decoding gives back what was encoded                 *)
(* ===================================================================== *)

Section Field19RoundTripFacts.
Import JsString Regex Field19 Field19Parts Field19RoundTrip.

Lemma buildField19String_allParts (data : Field19Data) :
  buildField19String data = join (str " ") (map partText (allParts data)).
Proof.
  unfold buildField19String, allParts, dinghyParts, partsBefore, partsAfter.
  rewrite !map_app, !map_if. cbn [map]. rewrite ?map_app, ?map_if.
  unfold partText, dPart, dinghyPayload. cbn [fst snd].
  rewrite <- !app_assoc. reflexivity.
Qed.

Lemma parse_switchAll_any (s : jsstr) :
  parseField19String s
  = switchAll s (map codeValue (matchAll false field19Re s)) defaultField19Data.
Proof.
  destruct s as [|x s]; [|apply parse_switchAll; discriminate].
  unfold parseField19String, matchAll. cbn [truthy negb scan].
  rewrite matchAt_field19_nil. reflexivity.
Qed.

Lemma switchAll_optional (s : jsstr) (b : bool) (l : ascii) (v : jsstr)
  (toks : list (jsstr * jsstr)) (d : Field19Data) :
  switchAll s (map (fun p => ([fst p], nonSpaceRun (snd p)))
                   (if b then [(l, v)] else []) ++ toks) d
  = switchAll s toks (optionalToken s b [l] (nonSpaceRun v) d).
Proof. destruct b; reflexivity. Qed.

End Field19RoundTripFacts.
